(** * Events-and-bookings data layer: normalizers, save hooks, connection cache

    A shallow embedding of the Mongoose models and of the connection helper
    of the repository, with the properties of its specification.

    The repository keeps two revisions of [database/event.model.ts] and of
    [database/booking.model.ts]; both revisions of each file are embedded,
    each in its own module, and every property is settled on both.

    Conventions.
    - A JavaScript string is a [list ascii]: a sequence of code units, here
      restricted to the code units below 256 (ASCII and Latin-1), on which
      [toLowerCase], [trim] and the class [\s] are written out in full.
    - Integers handled by the source are far inside the exactly representable
      range of a JavaScript number and are modelled as [Z].
    - A function that throws returns [inr] of its error; [inl] is the normal
      return value. *)

From Stdlib Require Import ZArith Ascii String List Bool Lia Arith.
Import ListNotations.

Local Open Scope list_scope.

Set Implicit Arguments.

(** ** JavaScript strings *)

Definition str := list ascii.

(** A string literal of the source. *)
Definition lit (s : string) : str := list_ascii_of_string s.

(** Strict equality [===] of two strings. *)
Definition str_eqb (a b : str) : bool :=
  if list_eq_dec ascii_dec a b then true else false.

Module Js.

Definition code (c : ascii) : N := N_of_ascii c.

Definition between (lo hi : ascii) (c : ascii) : bool :=
  (code lo <=? code c)%N && (code c <=? code hi)%N.

Definition is_char (x : ascii) (c : ascii) : bool := (code c =? code x)%N.

(** WhiteSpace and LineTerminator code units below 256: TAB, LF, VT, FF,
    CR, SP and NBSP.  [String.prototype.trim] strips them and the regular
    expression class [\s] matches them. *)
Definition is_space (c : ascii) : bool :=
  let n := code c in
  ((9 <=? n) && (n <=? 13) || (n =? 32) || (n =? 160))%N.

(** [String.prototype.trimStart]. *)
Fixpoint trimStart (s : str) : str :=
  match s with
  | c :: s' => if is_space c then trimStart s' else s
  | [] => []
  end.

Definition trimEnd (s : str) : str := rev (trimStart (rev s)).

(** [String.prototype.trim]. *)
Definition trim (s : str) : str := trimEnd (trimStart s).

(** The letters with a lower-case counterpart below code unit 256 are A-Z
    and the Latin-1 capitals U+00C0..U+00DE without the multiplication
    sign U+00D7; the counterpart is 32 above in each case. *)
Definition has_lower (c : ascii) : bool :=
  let n := code c in
  ((65 <=? n) && (n <=? 90) ||
   (192 <=? n) && (n <=? 222) && negb (n =? 215))%N.

Definition lower_char (c : ascii) : ascii :=
  if has_lower c then ascii_of_N (code c + 32) else c.

(** [String.prototype.toLowerCase]. *)
Definition toLowerCase (s : str) : str := map lower_char s.

(** [String.prototype.padStart(n, fill)] for a one-character [fill]. *)
Definition padStart (n : nat) (fill : ascii) (s : str) : str :=
  repeat fill (n - length s) ++ s.

Definition digit_char (d : Z) : ascii := ascii_of_N (48 + Z.to_N d).

(** Decimal digits of a positive integer, most significant first: at most
    [fuel] digits are produced. *)
Fixpoint digits (fuel : nat) (n : Z) (acc : str) : str :=
  match fuel with
  | O => acc
  | S k =>
      if (n <? 10)%Z then digit_char n :: acc
      else digits k (n / 10)%Z (digit_char (n mod 10)%Z :: acc)
  end.

(** [String(n)] for an integer [n]. *)
Definition String_ (n : Z) : str :=
  if (n <? 0)%Z
  then "-"%char :: digits (S (Z.to_nat (Z.log2 (- n)))) (- n)%Z []
  else digits (S (Z.to_nat (Z.log2 n))) n [].

Definition is_digit (c : ascii) : bool := between "0" "9" c.

Definition digit_val (c : ascii) : Z := Z.of_N (code c) - 48.

Fixpoint digit_prefix (s : str) : str :=
  match s with
  | c :: s' => if is_digit c then c :: digit_prefix s' else []
  | [] => []
  end.

(** [parseInt(s, 10)]: leading white space is skipped, a sign is read, and
    the longest run of decimal digits that follows is the value; [None]
    stands for NaN. *)
Definition parseInt (s : str) : option Z :=
  let t := trimStart s in
  let '(sign, u) :=
    match t with
    | c :: t' =>
        if is_char "-" c then ((-1)%Z, t')
        else if is_char "+" c then (1%Z, t') else (1%Z, t)
    | [] => (1%Z, t)
    end in
  match digit_prefix u with
  | [] => None
  | ds => Some (sign * fold_left (fun a c => 10 * a + digit_val c) ds 0)%Z
  end.

(** [!s] for a value that is a string or undefined. *)
Definition falsy (s : option str) : bool :=
  match s with
  | None => true
  | Some [] => true
  | Some (_ :: _) => false
  end.

End Js.

(** ** Regular expressions

    A backtracking matcher in the order of ECMAScript: alternatives left to
    right, greedy repetition, first success wins.  The captures of a match
    are listed in the order of the opening parentheses; a group inside an
    alternative that takes no part in the match would be left out of the
    list rather than recorded as undefined, and no pattern of the
    repository has such a group. *)

Module Regex.

Inductive regex : Type :=
| Eps
| Cls (p : ascii -> bool)        (* one character of a class *)
| Seq (r1 r2 : regex)
| Alt (r1 r2 : regex)
| Star (r : regex)               (* greedy r* *)
| Group (r : regex)              (* capturing ( r ) *)
| Bol                            (* ^ without the m flag *)
| Eol.                           (* $ without the m flag *)

Definition Plus (r : regex) : regex := Seq r (Star r).     (* r+ *)
Definition Opt (r : regex) : regex := Alt r Eps.           (* r? *)
Definition Chr (c : ascii) : regex := Cls (Js.is_char c).
Definition NotCls (p : ascii -> bool) : regex := Cls (fun c => negb (p c)).

(** One way of matching at a position: the text consumed, the rest of the
    input, and the captures of the groups closed on the way, in the order
    of their opening parenthesis. *)
Record hit : Type := Hit { taken : str; rest : str; groups : list str }.

Definition join (h1 h2 : hit) : hit :=
  Hit (taken h1 ++ taken h2) (rest h2) (groups h1 ++ groups h2).

Definition nothing (s : str) : hit := Hit [] s [].

Definition is_nil {A} (l : list A) : bool :=
  match l with [] => true | _ => false end.

(** All the ways [r*] matches at [s], longest first.  An iteration that
    consumes nothing is not repeated.  [fuel] bounds the number of
    iterations; the length of the input is always enough. *)
Fixpoint star (step : bool -> str -> list hit) (fuel : nat)
         (bos : bool) (s : str) : list hit :=
  match fuel with
  | O => [nothing s]
  | S k =>
      flat_map
        (fun h1 =>
           if is_nil (taken h1) then []
           else map (join h1) (star step k false (rest h1)))
        (step bos s)
      ++ [nothing s]
  end.

(** All the ways [r] matches at the head of [s], in backtracking order.
    [bos] says that [s] is the whole input (the position is 0). *)
Fixpoint run (r : regex) (bos : bool) (s : str) : list hit :=
  match r with
  | Eps => [nothing s]
  | Cls p =>
      match s with
      | c :: s' => if p c then [Hit [c] s' []] else []
      | [] => []
      end
  | Seq r1 r2 =>
      flat_map
        (fun h1 =>
           map (join h1) (run r2 (bos && is_nil (taken h1)) (rest h1)))
        (run r1 bos s)
  | Alt r1 r2 => run r1 bos s ++ run r2 bos s
  | Star r1 => star (run r1) (length s) bos s
  | Group r1 =>
      map (fun h => Hit (taken h) (rest h) (taken h :: groups h))
          (run r1 bos s)
  | Bol => if bos then [nothing s] else []
  | Eol => match s with [] => [nothing s] | _ :: _ => [] end
  end.

(** The first match starting at the current position or later. *)
Fixpoint search (r : regex) (bos : bool) (s : str) : option hit :=
  match run r bos s with
  | h :: _ => Some h
  | [] =>
      match s with
      | [] => None
      | _ :: s' => search r false s'
      end
  end.

(** [RegExp.prototype.exec] of a regular expression without flags: the
    result array, with the whole match at index 0 and the captures after
    it, or [None] for null. *)
Definition exec (r : regex) (s : str) : option (list str) :=
  match search r true s with
  | Some h => Some (taken h :: groups h)
  | None => None
  end.

(** [RegExp.prototype.test]. *)
Definition test (r : regex) (s : str) : bool :=
  match exec r s with Some _ => true | None => false end.

(** [String.prototype.replace(r, by)] for a regular expression with the
    [g] flag and a replacement without [$] patterns: the matches are
    found left to right, each search resuming where the previous match
    ended, one code unit further after an empty match. *)
Fixpoint replace_from (fuel : nat) (r : regex) (by_ : str)
         (bos : bool) (s : str) : str :=
  match fuel with
  | O => s
  | S k =>
      match run r bos s with
      | h :: _ =>
          match taken h, s with
          | [], c :: s' => by_ ++ c :: replace_from k r by_ false s'
          | [], [] => by_
          | _ :: _, _ => by_ ++ replace_from k r by_ false (rest h)
          end
      | [] =>
          match s with
          | c :: s' => c :: replace_from k r by_ false s'
          | [] => []
          end
      end
  end.

Definition replace_all (r : regex) (by_ : str) (s : str) : str :=
  replace_from (S (length s)) r by_ true s.

End Regex.

(** ** Errors

    The source throws [new Error(message)]; Mongoose reports the failures of
    the validators declared in a schema as one [ValidationError] that lists
    the failing paths with their messages. *)

Inductive error : Type :=
| Error (message : str)
| ValidationError (errors : list (string * str)).

(** A small error monad for the code inside [try]. *)
Definition result (A : Type) : Type := (A + error)%type.

Definition ret {A} (a : A) : result A := inl a.
Definition throw {A} (e : error) : result A := inr e.
Definition bind {A B} (m : result A) (k : A -> result B) : result B :=
  match m with
  | inl a => k a
  | inr e => inr e
  end.

Declare Scope result_scope.
Delimit Scope result_scope with result.
Notation "x <- m ;; k" := (bind m (fun x => k))
  (at level 61, m at next level, right associativity) : result_scope.
Notation "m ;;; k" := (bind m (fun _ => k))
  (at level 61, right associativity) : result_scope.

(** ** The Date built-in

    Time values are integral numbers of milliseconds since the epoch; the
    definitions follow the abstract operations of ECMA-262 (Day Number and
    Time within Day, Year Number, Month Number, Date Number, MakeDay,
    MakeDate). *)

Module JsDate.

Local Open Scope Z_scope.

Definition msPerDay : Z := 86400000.

Definition Day (t : Z) : Z := t / msPerDay.

Definition DaysInYear (y : Z) : Z :=
  if negb (y mod 4 =? 0) then 365
  else if negb (y mod 100 =? 0) then 366
  else if negb (y mod 400 =? 0) then 365
  else 366.

Definition DayFromYear (y : Z) : Z :=
  365 * (y - 1970) + (y - 1969) / 4 - (y - 1901) / 100 + (y - 1601) / 400.

Definition TimeFromYear (y : Z) : Z := msPerDay * DayFromYear y.

(** The largest [y] with [TimeFromYear y <= t]: the mean year has
    146097/400 days, which places [y] within one year of the estimate
    (lemma [YearFromTime_spec] below). *)
Definition YearFromTime (t : Z) : Z :=
  let d := Day t in
  let e := 1970 + (400 * d) / 146097 in
  if DayFromYear (e + 1) <=? d then e + 1
  else if DayFromYear e <=? d then e
  else e - 1.

Definition InLeapYear (t : Z) : Z :=
  if DaysInYear (YearFromTime t) =? 366 then 1 else 0.

Definition DayWithinYear (t : Z) : Z :=
  Day t - DayFromYear (YearFromTime t).

Definition MonthFromTime (t : Z) : Z :=
  let d := DayWithinYear t in
  let l := InLeapYear t in
  if d <? 31 then 0
  else if d <? 59 + l then 1
  else if d <? 90 + l then 2
  else if d <? 120 + l then 3
  else if d <? 151 + l then 4
  else if d <? 181 + l then 5
  else if d <? 212 + l then 6
  else if d <? 243 + l then 7
  else if d <? 273 + l then 8
  else if d <? 304 + l then 9
  else if d <? 334 + l then 10
  else 11.

Definition DateFromTime (t : Z) : Z :=
  let d := DayWithinYear t in
  let l := InLeapYear t in
  match MonthFromTime t with
  | 0 => d + 1
  | 1 => d - 30
  | 2 => d - 58 - l
  | 3 => d - 89 - l
  | 4 => d - 119 - l
  | 5 => d - 150 - l
  | 6 => d - 180 - l
  | 7 => d - 211 - l
  | 8 => d - 242 - l
  | 9 => d - 272 - l
  | 10 => d - 303 - l
  | _ => d - 333 - l
  end.

(** Day within the year of the first day of month [mn] (0 = January). *)
Definition month_start (leap : Z) (mn : Z) : Z :=
  match mn with
  | 0 => 0
  | 1 => 31
  | 2 => 59 + leap
  | 3 => 90 + leap
  | 4 => 120 + leap
  | 5 => 151 + leap
  | 6 => 181 + leap
  | 7 => 212 + leap
  | 8 => 243 + leap
  | 9 => 273 + leap
  | 10 => 304 + leap
  | _ => 334 + leap
  end.

(** [MakeDay(year, month, date)]: the day number of the first day of the
    month, plus [date - 1]. *)
Definition MakeDay (year month date : Z) : Z :=
  let ym := year + month / 12 in
  let mn := month mod 12 in
  let leap := if DaysInYear ym =? 366 then 1 else 0 in
  DayFromYear ym + month_start leap mn + date - 1.

Definition MakeDate (day time : Z) : Z := day * msPerDay + time.

Definition DaysInMonth (year month : Z) : Z :=
  let leap := if DaysInYear year =? 366 then 1 else 0 in
  match month with
  | 2 => 28 + leap
  | 4 | 6 | 9 | 11 => 30
  | _ => 31
  end.

(** The date-only form [YYYY-MM-DD] of the Date Time String Format: four,
    two and two decimal digits. *)
Definition number (ds : str) : Z :=
  fold_left (fun a c => 10 * a + Js.digit_val c) ds 0.

Definition iso_date_only (s : str) : option (Z * Z * Z) :=
  match s with
  | [y1; y2; y3; y4; h1; m1; m2; h2; d1; d2] =>
      if forallb Js.is_digit [y1; y2; y3; y4; m1; m2; d1; d2]
         && Js.is_char "-" h1 && Js.is_char "-" h2
      then Some (number [y1; y2; y3; y4], number [m1; m2], number [d1; d2])
      else None
  | _ => None
  end.

Section Parse.

(** What [Date.parse] makes of a string that is not a date-only form
    with a month and a day of the calendar: the other forms of the
    format and the fall-back of the implementation, [None] for NaN. *)
Variable other_formats : str -> option Z.

(** [Date.parse]: a date-only form is read as UTC midnight. *)
Definition parse (s : str) : option Z :=
  match iso_date_only s with
  | Some (y, m, d) =>
      if (1 <=? m) && (m <=? 12) && (1 <=? d) && (d <=? DaysInMonth y m)
      then Some (MakeDate (MakeDay y (m - 1) d) 0)
      else other_formats s
  | None => other_formats s
  end.

End Parse.

Definition getUTCFullYear (t : Z) : Z := YearFromTime t.
Definition getUTCMonth (t : Z) : Z := MonthFromTime t.
Definition getUTCDate (t : Z) : Z := DateFromTime t.

End JsDate.

(** ** The Event document

    [IEvent extends Document]: the fields of the interface, and of the
    Document part the method [isModified] the hooks consult.  [slug] is
    undefined on a document that never had one; [createdAt] and [updatedAt]
    belong to Mongoose and play no part in the hooks. *)

Record IEvent : Type := {
  title : str;
  slug : option str;
  description : str;
  overview : str;
  image : str;
  venue : str;
  location : str;
  date : str;
  time : str;
  mode : str;
  audience : str;
  agenda : list str;
  organizer : str;
  tags : list str;
  isModified : string -> bool
}.

Definition set_slug (e : IEvent) (v : str) : IEvent :=
  {| title := title e; slug := Some v; description := description e;
     overview := overview e; image := image e; venue := venue e;
     location := location e; date := date e; time := time e; mode := mode e;
     audience := audience e; agenda := agenda e; organizer := organizer e;
     tags := tags e; isModified := isModified e |}.

Definition set_date (e : IEvent) (v : str) : IEvent :=
  {| title := title e; slug := slug e; description := description e;
     overview := overview e; image := image e; venue := venue e;
     location := location e; date := v; time := time e; mode := mode e;
     audience := audience e; agenda := agenda e; organizer := organizer e;
     tags := tags e; isModified := isModified e |}.

Definition set_time (e : IEvent) (v : str) : IEvent :=
  {| title := title e; slug := slug e; description := description e;
     overview := overview e; image := image e; venue := venue e;
     location := location e; date := date e; time := v; mode := mode e;
     audience := audience e; agenda := agenda e; organizer := organizer e;
     tags := tags e; isModified := isModified e |}.

(** [Document.prototype.save] as far as the hooks are concerned: the
    pre-save middleware runs on the document, and the document it leaves is
    written to the collection only when no middleware passed an error to
    [next]. *)
Definition save_with {D : Type} (hooks : D -> result D)
           (collection : list D) (doc : D) : result D * list D :=
  match hooks doc with
  | inl doc' => (inl doc', collection ++ [doc'])
  | inr e => (inr e, collection)
  end.

(** Character classes of the regular expressions of the models. *)
Definition lower_alnum (c : ascii) : bool :=
  Js.between "a" "z" c || Js.between "0" "9" c.

Definition one_of (cs : string) (c : ascii) : bool :=
  existsb (fun x => Js.is_char x c) (lit cs).

(** The double quote inside the messages of the source. *)
Definition dq : ascii := "034"%char.

(** Template literal [`${year}-${month}-${day}`]. *)
Definition ymd (year month day : str) : str :=
  year ++ lit "-" ++ month ++ lit "-" ++ day.

Import Regex.

Definition Cat (rs : list regex) : regex := fold_right Seq Eps rs.

(** [/[^a-z0-9]+/g] *)
Definition re_non_alnum : regex := Plus (NotCls lower_alnum).

(** [/^-+|-+$/g] *)
Definition re_edge_dashes : regex :=
  Alt (Seq Bol (Plus (Chr "-"))) (Seq (Plus (Chr "-")) Eol).

(** [/^([01]\d|2[0-3]):([0-5]\d)$/] *)
Definition re_hhmm : regex :=
  Cat [Bol;
       Group (Alt (Seq (Cls (one_of "01")) (Cls Js.is_digit))
                  (Seq (Chr "2") (Cls (Js.between "0" "3"))));
       Chr ":";
       Group (Seq (Cls (Js.between "0" "5")) (Cls Js.is_digit));
       Eol].

(** The hour, minute and meridiem groups shared by the two 12-hour
    patterns: [(1[0-2]|0?\d)], [([0-5]\d)] and [([AaPp][Mm])]. *)
Definition re_hour12 : regex :=
  Group (Alt (Seq (Chr "1") (Cls (Js.between "0" "2")))
             (Seq (Opt (Chr "0")) (Cls Js.is_digit))).
Definition re_minute : regex :=
  Group (Seq (Cls (Js.between "0" "5")) (Cls Js.is_digit)).
Definition re_meridiem : regex :=
  Group (Seq (Cls (one_of "AaPp")) (Cls (one_of "Mm"))).

(** [String(hours).padStart(2, '0')]; [String(NaN)] is ["NaN"]. *)
Definition hours_text (hours : option Z) : str :=
  Js.padStart 2 "0"
    (match hours with Some h => Js.String_ h | None => lit "NaN" end).

(** The arithmetic both revisions of [normalizeTime] do on a 12-hour match:
    [if (period === 'pm' && hours !== 12) hours += 12] and then
    [if (period === 'am' && hours === 12) hours = 0]; [None] is NaN. *)
Definition to24 (hours : option Z) (period : str) : option Z :=
  let hours :=
    match hours with
    | Some h =>
        if str_eqb period (lit "pm") && negb (h =? 12)%Z
        then Some (h + 12)%Z else Some h
    | None => None
    end in
  match hours with
  | Some h =>
      if str_eqb period (lit "am") && (h =? 12)%Z
      then Some 0%Z else Some h
  | None => None
  end.

(** ** First revision of [database/event.model.ts] (validation in the hook)

    The schema of this revision declares its paths with [required] and
    [trim] only; all its checks are in the pre-save hook, which is what is
    embedded here. *)

Module Event1.

Definition InvalidDate : error := Error (lit "Invalid event date").
Definition InvalidTime : error := Error (lit "Invalid event time format").
Definition RequiredFieldMissing (field : string) : error :=
  Error (lit "Field " ++ [dq] ++ lit field ++ [dq]
         ++ lit " is required and must be a non-empty string").
Definition EmptyListField (field : string) : error :=
  Error (lit "Field " ++ [dq] ++ lit field ++ [dq]
         ++ lit " is required and must be a non-empty array").

Definition generateSlug (title : str) : str :=
  replace_all re_edge_dashes (lit "")
    (replace_all re_non_alnum (lit "-")
       (Js.toLowerCase (Js.trim title))).

Section WithDate.

Variable other_formats : str -> option Z.

Definition normalizeDate (date : str) : result str :=
  match JsDate.parse other_formats date with
  | None => throw InvalidDate
  | Some parsed =>
      let year := JsDate.getUTCFullYear parsed in
      let month :=
        Js.padStart 2 "0" (Js.String_ (JsDate.getUTCMonth parsed + 1)) in
      let day :=
        Js.padStart 2 "0" (Js.String_ (JsDate.getUTCDate parsed)) in
      ret (ymd (Js.String_ year) month day)
  end.

End WithDate.

(** [/^\s*(1[0-2]|0?\d):([0-5]\d)\s*([AaPp][Mm])\s*$/] *)
Definition re_twelve : regex :=
  Cat [Bol; Star (Cls Js.is_space); re_hour12; Chr ":"; re_minute;
       Star (Cls Js.is_space); re_meridiem; Star (Cls Js.is_space); Eol].

Definition normalizeTime (time : str) : result str :=
  let trimmed := Js.trim time in
  match exec re_hhmm trimmed with
  | Some _ => ret trimmed
  | None =>
      match exec re_twelve trimmed with
      | Some twelveHourMatch =>
          let hours := Js.parseInt (nth 1 twelveHourMatch []) in
          let minutes := nth 2 twelveHourMatch [] in
          let period := Js.toLowerCase (nth 3 twelveHourMatch []) in
          ret (hours_text (to24 hours period) ++ lit ":" ++ minutes)
      | None => throw InvalidTime
      end
  end.

(** [value] has the type of the field, a string, so that the [typeof]
    test of the source passes. *)
Definition assertNonEmpty (field : string) (value : str) : result unit :=
  if is_nil (Js.trim value) then throw (RequiredFieldMissing field)
  else ret tt.

Section Hook.

Variable other_formats : str -> option Z.

Local Open Scope result_scope.

Definition preSave (this : IEvent) : result IEvent :=
  assertNonEmpty "title" (title this) ;;;
  assertNonEmpty "description" (description this) ;;;
  assertNonEmpty "overview" (overview this) ;;;
  assertNonEmpty "image" (image this) ;;;
  assertNonEmpty "venue" (venue this) ;;;
  assertNonEmpty "location" (location this) ;;;
  assertNonEmpty "mode" (mode this) ;;;
  assertNonEmpty "audience" (audience this) ;;;
  assertNonEmpty "organizer" (organizer this) ;;;
  (if is_nil (agenda this) then throw (EmptyListField "agenda")
   else ret tt) ;;;
  (if is_nil (tags this) then throw (EmptyListField "tags")
   else ret tt) ;;;
  this <- ret (if isModified this "title" || Js.falsy (slug this)
               then set_slug this (generateSlug (title this))
               else this) ;;
  this <- (if isModified this "date"
           then d <- normalizeDate other_formats (date this) ;;
                ret (set_date this d)
           else ret this) ;;
  this <- (if isModified this "time"
           then t <- normalizeTime (time this) ;; ret (set_time this t)
           else ret this) ;;
  ret this.

End Hook.

End Event1.

(** The string fields the specification lists as required, in the order
    in which the hook of the first revision looks at them. *)
Definition required_strings (this : IEvent) : list (string * str) :=
  [("title", title this); ("description", description this);
   ("overview", overview this); ("image", image this);
   ("venue", venue this); ("location", location this);
   ("mode", mode this); ("audience", audience this);
   ("organizer", organizer this)]%string.

Definition empty_after_trim (field : string * str) : bool :=
  is_nil (Js.trim (snd field)).

(** The first listed field that is empty after trimming, if any. *)
Definition first_empty (this : IEvent) : option string :=
  option_map fst (find empty_after_trim (required_strings this)).

(** ** Schema declarations

    What Mongoose does with the options of a schema path that the models
    rely on: the setters [trim] and [lowercase] rewrite a value
    when it is assigned, and the validators of a path are tried in order
    ([required] first), the first one that fails giving the error of the
    path. *)

Module Schema.

Definition failure : Type := (string * str)%type.

(** [required: [true, message]] on a String path: the empty string is
    rejected. *)
Definition required (message : string) (value : str) : option str :=
  if is_nil value then Some (lit message) else None.

(** [enum: { values, message }] *)
Definition enum (values : list string) (message : string) (value : str)
  : option str :=
  if existsb (fun v => str_eqb value (lit v)) values then None
  else Some (lit message).

(** [validate: { validator, message }] *)
Definition validate_with {A} (validator : A -> bool) (message : string)
           (value : A) : option str :=
  if validator value then None else Some (lit message).

Fixpoint first_failure (checks : list (option str)) : option str :=
  match checks with
  | [] => None
  | Some m :: _ => Some m
  | None :: rest => first_failure rest
  end.

Definition path_errors (path : string) (checks : list (option str))
  : list failure :=
  match first_failure checks with
  | Some m => [(path, m)]
  | None => []
  end.

(** The built-in validation middleware, which runs before the pre-save
    hooks of the schema. *)
Definition validated {D} (validate : D -> list failure)
           (hook : D -> result D) (doc : D) : result D :=
  match validate doc with
  | [] => hook doc
  | errors => throw (ValidationError errors)
  end.

End Schema.

(** ** Second revision of [database/event.model.ts] (validation in the schema) *)

Module Event2.

Definition InvalidDate : error :=
  Error (lit "Invalid date format. Please provide a valid date.").
Definition InvalidTime : error :=
  Error (lit "Invalid time format. Use HH:mm or h:mm AM/PM format.").

Definition generateSlug (title : str) : str :=
  replace_all re_edge_dashes (lit "")
    (replace_all re_non_alnum (lit "-")
       (Js.trim (Js.toLowerCase title))).

Section WithDate.

Variable other_formats : str -> option Z.

Definition normalizeDate (date : str) : result str :=
  match JsDate.parse other_formats date with
  | None => throw InvalidDate
  | Some parsed =>
      let year := JsDate.getUTCFullYear parsed in
      let month :=
        Js.padStart 2 "0" (Js.String_ (JsDate.getUTCMonth parsed + 1)) in
      let day :=
        Js.padStart 2 "0" (Js.String_ (JsDate.getUTCDate parsed)) in
      ret (ymd (Js.String_ year) month day)
  end.

End WithDate.

(** [/^(1[0-2]|0?\d):([0-5]\d)\s*([AaPp][Mm])$/] *)
Definition re_twelve : regex :=
  Cat [Bol; re_hour12; Chr ":"; re_minute; Star (Cls Js.is_space);
       re_meridiem; Eol].

Definition normalizeTime (time : str) : result str :=
  let trimmed := Js.trim time in
  if test re_hhmm trimmed then ret trimmed
  else
    match exec re_twelve trimmed with
    | Some match_ =>
        let hours := Js.parseInt (nth 1 match_ []) in
        let minutes := nth 2 match_ [] in
        let period := Js.toLowerCase (nth 3 match_ []) in
        ret (hours_text (to24 hours period)
             ++ lit ":" ++ minutes)
    | None => throw InvalidTime
    end.

(** The setters of [EventSchema], applied to the values a caller
    assigns. *)
Definition setters (raw : IEvent) : IEvent :=
  {| title := Js.trim (title raw);
     slug := option_map Js.toLowerCase (slug raw);
     description := Js.trim (description raw);
     overview := Js.trim (overview raw);
     image := Js.trim (image raw);
     venue := Js.trim (venue raw);
     location := Js.trim (location raw);
     date := date raw;
     time := time raw;
     mode := Js.toLowerCase (mode raw);
     audience := Js.trim (audience raw);
     agenda := agenda raw;
     organizer := Js.trim (organizer raw);
     tags := tags raw;
     isModified := isModified raw |}.

Definition mode_values : list string := ["online"; "offline"; "hybrid"]%string.

Definition non_empty_array (v : list str) : bool := (0 <? length v)%nat.

(** The validators of [EventSchema], path by path.  An array path with
    [required] accepts the empty array, which is why the schema adds a
    validator to [agenda] and [tags]. *)
Definition validators (this : IEvent) : list (string * list (option str)) :=
  [("title", [Schema.required "Title is required" (title this)]);
   ("description",
    [Schema.required "Description is required" (description this)]);
   ("overview", [Schema.required "Overview is required" (overview this)]);
   ("image", [Schema.required "Image URL is required" (image this)]);
   ("venue", [Schema.required "Venue is required" (venue this)]);
   ("location", [Schema.required "Location is required" (location this)]);
   ("date", [Schema.required "Date is required" (date this)]);
   ("time", [Schema.required "Time is required" (time this)]);
   ("mode",
    [Schema.required "Mode is required" (mode this);
     Schema.enum mode_values "Mode must be online, offline, or hybrid"
       (mode this)]);
   ("audience", [Schema.required "Audience is required" (audience this)]);
   ("agenda",
    [Schema.validate_with non_empty_array
       "Agenda must contain at least one item" (agenda this)]);
   ("organizer", [Schema.required "Organizer is required" (organizer this)]);
   ("tags",
    [Schema.validate_with non_empty_array
       "Tags must contain at least one item" (tags this)])]%string.

Definition validate (this : IEvent) : list Schema.failure :=
  flat_map (fun path => Schema.path_errors (fst path) (snd path))
           (validators this).

Section Hook.

Variable other_formats : str -> option Z.

Local Open Scope result_scope.

Definition preSave (this : IEvent) : result IEvent :=
  this <- ret (if isModified this "title"
               then set_slug this (generateSlug (title this))
               else this) ;;
  this <- (if isModified this "date"
           then d <- normalizeDate other_formats (date this) ;;
                ret (set_date this d)
           else ret this) ;;
  this <- (if isModified this "time"
           then t <- normalizeTime (time this) ;; ret (set_time this t)
           else ret this) ;;
  ret this.

(** Validation, then the hook. *)
Definition hooks : IEvent -> result IEvent :=
  Schema.validated validate preSave.

End Hook.

End Event2.

(** [e] with its three derived fields replaced. *)
Definition rewritten (e : IEvent) (s : option str) (d t : str) : IEvent :=
  {| title := title e; slug := s; description := description e;
     overview := overview e; image := image e; venue := venue e;
     location := location e; date := d; time := t; mode := mode e;
     audience := audience e; agenda := agenda e; organizer := organizer e;
     tags := tags e; isModified := isModified e |}.

(** The three rewriting steps the two hooks share, for a given condition on
    the slug and given helpers. *)
Definition normalise (recompute : IEvent -> bool) (generateSlug : str -> str)
           (normalizeDate normalizeTime : str -> result str)
           (this : IEvent) : result IEvent :=
  (this <- ret (if recompute this
                then set_slug this (generateSlug (title this))
                else this) ;;
   this <- (if isModified this "date"
            then d <- normalizeDate (date this) ;; ret (set_date this d)
            else ret this) ;;
   this <- (if isModified this "time"
            then t <- normalizeTime (time this) ;; ret (set_time this t)
            else ret this) ;;
   ret this)%result.

(** When the hooks recompute the slug: the first revision, the second. *)
Definition recompute1 (this : IEvent) : bool :=
  isModified this "title" || Js.falsy (slug this).

Definition recompute2 (this : IEvent) : bool := isModified this "title".

(** A document for the examples: every field is filled in, nothing is
    marked as modified, and the mode is none of online, offline, hybrid. *)
Definition sample_event : IEvent :=
  {| title := lit "Rocq Meetup";
     slug := Some (lit "rocq-meetup");
     description := lit "An evening of proofs";
     overview := lit "Talks and a workshop";
     image := lit "https://example.org/meetup.png";
     venue := lit "Hall 2";
     location := lit "Paris";
     date := lit "2025-06-01";
     time := lit "18:30";
     mode := lit "virtual";
     audience := lit "Everyone";
     agenda := [lit "Talks"];
     organizer := lit "The club";
     tags := [lit "proofs"];
     isModified := fun _ => false |}.

(** The same document before it ever had a slug. *)
Definition sample_without_slug : IEvent :=
  {| title := title sample_event; slug := None;
     description := description sample_event;
     overview := overview sample_event; image := image sample_event;
     venue := venue sample_event; location := location sample_event;
     date := date sample_event; time := time sample_event;
     mode := lit "hybrid"; audience := audience sample_event;
     agenda := agenda sample_event; organizer := organizer sample_event;
     tags := tags sample_event; isModified := fun _ => false |}.

(** A document whose title, date and time were just assigned. *)
Definition sample_modified : IEvent :=
  {| title := lit "  Rocq Meetup: Paris!  "; slug := None;
     description := description sample_event;
     overview := overview sample_event; image := image sample_event;
     venue := venue sample_event; location := location sample_event;
     date := lit "2025-06-01"; time := lit "6:30 pm";
     mode := lit "hybrid"; audience := audience sample_event;
     agenda := agenda sample_event; organizer := organizer sample_event;
     tags := tags sample_event; isModified := fun _ => true |}.


(** ** The Booking document and the Event collection it refers to *)

(** An ObjectId, by its hexadecimal text. *)
Definition ObjectId : Type := str.

(** [IBooking extends Document]: the two fields, and of the Document part
    the property [isNew] and the method [isModified], here [modified]. *)
Record IBooking : Type := {
  eventId : ObjectId;
  email : str;
  isNew : bool;
  modified : string -> bool
}.

(** The Event collection as [Event.exists] sees it: the identifiers of the
    stored documents, and the error of the driver when the query cannot be
    answered. *)
Record EventStore : Type := {
  stored : list ObjectId;
  outage : option error
}.

(** [await Event.exists({ _id })]: whether a document was found, or the
    rejection of the query. *)
Definition Event_exists (db : EventStore) (id : ObjectId) : result bool :=
  match outage db with
  | Some e => throw e
  | None => ret (existsb (str_eqb id) (stored db))
  end.

(** [/^[^\s@]+@[^\s@]+\.[^\s@]+$/] *)
Definition EMAIL_REGEX : regex :=
  let part := Plus (NotCls (fun c => Js.is_space c || Js.is_char "@" c)) in
  Cat [Bol; part; Chr "@"; part; Chr "."; part; Eol].

(** The setters of the [email] path of [BookingSchema], [trim: true] and
    [lowercase: true] in both revisions, applied to the value a caller
    assigns. *)
Definition email_setters (raw : str) : str := Js.toLowerCase (Js.trim raw).

(** A hook that queries the Event collection returns its outcome together
    with the identifiers it asked [Event.exists] about. *)
Definition queried (A : Type) : Type := (result A * list ObjectId)%type.

(** ** First revision of [database/booking.model.ts] *)

Module Booking1.

Definition InvalidEmail : error := Error (lit "Invalid email address").
Definition DanglingReference : error :=
  Error (lit "Referenced event does not exist").

(** [email] has the type of the interface, a string, so that the [typeof]
    test of the source passes; an error thrown by [Event.exists] is caught
    and passed to [next] as it is. *)
Definition preSave (db : EventStore) (this : IBooking) : queried IBooking :=
  if negb (test EMAIL_REGEX (email this)) then (throw InvalidEmail, [])
  else
    match Event_exists db (eventId this) with
    | inl true => (ret this, [eventId this])
    | inl false => (throw DanglingReference, [eventId this])
    | inr e => (throw e, [eventId this])
    end.

End Booking1.

(** ** Second revision of [database/booking.model.ts] *)

Module Booking2.

(** The validation error of the [email] path, with the message of the
    validator that failed: [required] on the empty string, the pattern on
    the others. *)
Definition InvalidEmail (email : str) : error :=
  ValidationError
    [("email"%string,
      if is_nil email then lit "Email is required"
      else lit "Please provide a valid email address")].
Definition DanglingReference (id : ObjectId) : error :=
  Error (lit "Event with ID " ++ id ++ lit " does not exist").
Definition ReferenceCheckFailed : error :=
  Error (lit "Failed to validate event reference").

Definition validate (this : IBooking) : list Schema.failure :=
  Schema.path_errors "email"
    [Schema.required "Email is required" (email this);
     Schema.validate_with (test EMAIL_REGEX)
       "Please provide a valid email address" (email this)].

Section Hook.

Variable db : EventStore.

Definition preSave (this : IBooking) : queried IBooking :=
  if isNew this || modified this "eventId" then
    match Event_exists db (eventId this) with
    | inl true => (ret this, [eventId this])
    | inl false =>
        (throw (DanglingReference (eventId this)), [eventId this])
    | inr _ => (throw ReferenceCheckFailed, [eventId this])
    end
  else (ret this, []).

(** Validation, then the hook. *)
Definition hooks (this : IBooking) : queried IBooking :=
  match validate this with
  | [] => preSave this
  | errors => (throw (ValidationError errors), [])
  end.

End Hook.

End Booking2.

(** The policy of the specification for the existence check: the hook asks
    the Event collection exactly when the booking is new or its [eventId]
    was modified. *)
Definition queries_on_reference_change
           (hook : EventStore -> IBooking -> queried IBooking) : Prop :=
  forall (db : EventStore) (this : IBooking),
    snd (hook db this) <> [] <->
    isNew this || modified this "eventId" = true.

(** ** The connection helper ([connectDB])

    [connectDB] is an async function with one [await].  Between two awaits
    JavaScript runs a function without interruption, so a call is two
    atomic segments: [connectDB_enter], up to the [await], and
    [connectDB_resume], from the settlement of the awaited promise to the
    end.  The promises made by [mongoose.connect] live in a heap indexed by
    their creation order; its length is the number of connection attempts
    started so far. *)

Module Connection.

Section WithHandle.

(** [typeof mongoose], the value a connection attempt resolves to. *)
Variable Mongoose : Type.

Record MongooseCache : Type := {
  conn : option Mongoose;
  promise : option nat
}.

Inductive settlement : Type :=
| Pending
| Fulfilled (value : Mongoose)
| Rejected (reason : error).

Record World : Type := {
  cached : MongooseCache;
  promises : list settlement
}.

(** Where a call of [connectDB] stands. *)
Inductive call : Type :=
| Awaiting (p : nat)
| Returned (value : Mongoose)
| Thrown (reason : error).

(** The three states of the specification. *)
Inductive phase : Type := Unconnected | Connecting | Connected.

Definition phase_of (c : MongooseCache) : phase :=
  match conn c, promise c with
  | Some _, _ => Connected
  | None, Some _ => Connecting
  | None, None => Unconnected
  end.

Definition attempts (w : World) : nat := length (promises w).

(** From the call to the [await]. *)
Definition connectDB_enter (w : World) : World * call :=
  match conn (cached w) with
  | Some c => (w, Returned c)
  | None =>
      match promise (cached w) with
      | Some p => (w, Awaiting p)
      | None =>
          let p := length (promises w) in
          ({| cached := {| conn := None; promise := Some p |};
              promises := promises w ++ [Pending] |},
           Awaiting p)
      end
  end.

(** From the settlement of the awaited promise [p] to the end; [None]
    while [p] is pending. *)
Definition connectDB_resume (w : World) (p : nat) : option (World * call) :=
  match nth_error (promises w) p with
  | Some (Fulfilled v) =>
      Some ({| cached := {| conn := Some v;
                            promise := promise (cached w) |};
               promises := promises w |},
            Returned v)
  | Some (Rejected e) =>
      Some ({| cached := {| conn := conn (cached w); promise := None |};
               promises := promises w |},
            Thrown e)
  | Some Pending | None => None
  end.

(** The driver settles a pending attempt. *)
Fixpoint set_nth {A} (l : list A) (n : nat) (a : A) : list A :=
  match l, n with
  | [], _ => []
  | _ :: l', O => a :: l'
  | x :: l', S n' => x :: set_nth l' n' a
  end.

Definition settle (w : World) (p : nat) (outcome : Mongoose + error)
  : option World :=
  match nth_error (promises w) p with
  | Some Pending =>
      Some {| cached := cached w;
              promises :=
                set_nth (promises w) p
                  (match outcome with
                   | inl v => Fulfilled v
                   | inr e => Rejected e
                   end) |}
  | _ => None
  end.

(** Several callers: what each of them has reached. *)
Record System : Type := {
  world : World;
  calls : nat -> option call
}.

Definition update (f : nat -> option call) (i : nat) (c : call)
  : nat -> option call :=
  fun j => if Nat.eqb j i then Some c else f j.

Inductive event : Type :=
| Call (caller : nat)
| Settle (p : nat) (outcome : Mongoose + error)
| Resume (caller : nat).

(** One event of the event loop; [None] when the event cannot happen in
    this state. *)
Definition step (s : System) (ev : event) : option System :=
  match ev with
  | Call i =>
      match calls s i with
      | Some _ => None
      | None =>
          let '(w, c) := connectDB_enter (world s) in
          Some {| world := w; calls := update (calls s) i c |}
      end
  | Settle p outcome =>
      match settle (world s) p outcome with
      | Some w => Some {| world := w; calls := calls s |}
      | None => None
      end
  | Resume i =>
      match calls s i with
      | Some (Awaiting p) =>
          match connectDB_resume (world s) p with
          | Some (w, c) =>
              Some {| world := w; calls := update (calls s) i c |}
          | None => None
          end
      | _ => None
      end
  end.

Fixpoint steps (s : System) (evs : list event) : option System :=
  match evs with
  | [] => Some s
  | ev :: evs' =>
      match step s ev with
      | Some s' => steps s' evs'
      | None => None
      end
  end.

(** A process in which nobody has called [connectDB] yet. *)
Definition idle (w : World) : System :=
  {| world := w; calls := fun _ => None |}.

(** A call that has come to its end. *)
Definition finished (c : call) : bool :=
  match c with
  | Awaiting _ => false
  | Returned _ | Thrown _ => true
  end.

(** The settlement a call that ended has seen. *)
Definition outcome_of (c : call) : settlement :=
  match c with
  | Awaiting _ => Pending
  | Returned v => Fulfilled v
  | Thrown e => Rejected e
  end.

Definition is_call (ev : event) : bool :=
  match ev with Call _ => true | _ => false end.

Definition is_resume (ev : event) : bool :=
  match ev with Resume _ => true | _ => false end.

(** The callers arrive together: every call is made before any of the
    calls is resumed. *)
Definition concurrent (arrivals later : list event) : Prop :=
  forallb (fun ev => negb (is_resume ev)) arrivals = true /\
  forallb (fun ev => negb (is_call ev)) later = true.

(** While the callers arrive: nothing is connected, and either nobody has
    called yet or everybody waits for the one attempt [p0]. *)
Definition arriving (n0 : nat) (s : System) : Prop :=
  conn (cached (world s)) = None /\
  ((promise (cached (world s)) = None /\ attempts (world s) = n0 /\
    forall i, calls s i = None) \/
   (promise (cached (world s)) = Some n0 /\ attempts (world s) = S n0 /\
    forall i c, calls s i = Some c -> c = Awaiting n0)).

(** Once everybody has arrived: no further attempt is started, and a call
    that has come to its end did so with the outcome of the attempt [p0]. *)
Definition settled (n p0 : nat) (s : System) : Prop :=
  attempts (world s) = n /\
  forall i c, calls s i = Some c ->
    c = Awaiting p0 \/
    (finished c = true /\
     nth_error (promises (world s)) p0 = Some (outcome_of c)).

(** What the helper hands out comes from the driver: the cached
    connection is the value of a fulfilled attempt, a handle returned to a
    caller likewise, and an error thrown is the reason of a rejected
    attempt. *)
Definition from_driver (s : System) : Prop :=
  (forall v, conn (cached (world s)) = Some v ->
             In (Fulfilled v) (promises (world s))) /\
  (forall i v, calls s i = Some (Returned v) ->
               In (Fulfilled v) (promises (world s))) /\
  (forall i e, calls s i = Some (Thrown e) ->
               In (Rejected e) (promises (world s))).

End WithHandle.

Arguments Pending {Mongoose}.
Arguments Fulfilled {Mongoose} value.
Arguments Rejected {Mongoose} reason.
Arguments Awaiting {Mongoose} p.
Arguments Returned {Mongoose} value.
Arguments Thrown {Mongoose} reason.
Arguments Call {Mongoose} caller.
Arguments Resume {Mongoose} caller.

End Connection.

(** ** The slug in the words of the specification

    Lower-case the title, collapse every maximal run of characters outside
    [a-z0-9] to one hyphen, strip the hyphens at both ends. *)

Module SlugSpec.

Definition is_dash (c : ascii) : bool := Js.is_char "-" c.

Definition non_alnum (c : ascii) : bool := negb (lower_alnum c).

Fixpoint drop_while (p : ascii -> bool) (s : str) : str :=
  match s with
  | c :: s' => if p c then drop_while p s' else s
  | [] => []
  end.

Fixpoint take_while (p : ascii -> bool) (s : str) : str :=
  match s with
  | c :: s' => if p c then c :: take_while p s' else []
  | [] => []
  end.

(** Drop the run of [p] that ends the string. *)
Fixpoint drop_end (p : ascii -> bool) (s : str) : str :=
  match s with
  | c :: s' => if forallb p s then [] else c :: drop_end p s'
  | [] => []
  end.

(** One hyphen for each maximal run of [p]; [in_run] says that the
    previous character belonged to a run. *)
Fixpoint collapse (p : ascii -> bool) (in_run : bool) (s : str) : str :=
  match s with
  | c :: s' =>
      if p c
      then if in_run then collapse p true s'
           else "-"%char :: collapse p true s'
      else c :: collapse p false s'
  | [] => []
  end.

Definition collapse_runs (s : str) : str := collapse non_alnum false s.

Definition strip_dashes (s : str) : str :=
  drop_end is_dash (drop_while is_dash s).

Definition slugify (title : str) : str :=
  strip_dashes (collapse_runs (Js.toLowerCase title)).

(** The alphabet of a slug. *)
Definition slug_char (c : ascii) : bool := lower_alnum c || is_dash c.

Definition starts_with_dash (s : str) : Prop :=
  exists s', s = "-"%char :: s'.
Definition ends_with_dash (s : str) : Prop :=
  exists s', s = s' ++ ["-"%char].
Definition has_double_dash (s : str) : Prop :=
  exists s1 s2, s = s1 ++ "-"%char :: "-"%char :: s2.

(** Decides [has_double_dash]. *)
Fixpoint double_dash (s : str) : bool :=
  match s with
  | c :: s' =>
      match s' with
      | c' :: _ => (is_dash c && is_dash c') || double_dash s'
      | [] => false
      end
  | [] => false
  end.

(** Lower-case alphanumerics separated by single interior hyphens. *)
Definition well_formed (s : str) : Prop :=
  forallb slug_char s = true /\
  ~ starts_with_dash s /\ ~ ends_with_dash s /\ ~ has_double_dash s.

(** [r] is the slug of [title]: the string the specification describes,
    in lower case and well formed. *)
Definition slug_of (title r : str) : Prop :=
  r = slugify title /\ Js.toLowerCase r = r /\ well_formed r.

End SlugSpec.

(** ** Times and dates in the words of the specification *)

Module TimeSpec.

Local Open Scope Z_scope.

(** Decimal value of a string of digits. *)
Definition value (ds : str) : Z := JsDate.number ds.

(** A 24-hour time [HH:mm]: two digits up to 23, a colon, two digits up to
    59. *)
Definition hhmm (t : str) : bool :=
  match t with
  | [h1; h2; c; m1; m2] =>
      forallb Js.is_digit [h1; h2; m1; m2] && Js.is_char ":" c
      && (value [h1; h2] <=? 23) && (value [m1; m2] <=? 59)
  | _ => false
  end.

(** The hour of a 12-hour time, one digit or two, and what follows its
    colon. *)
Definition split_hour (t : str) : option (str * str) :=
  match t with
  | d1 :: c :: r =>
      if Js.is_digit d1 && Js.is_char ":" c then Some ([d1], r)
      else
        match r with
        | c' :: r' =>
            if Js.is_digit d1 && Js.is_digit c && Js.is_char ":" c'
            then Some ([d1; c], r') else None
        | [] => None
        end
  | _ => None
  end.

(** A 12-hour time [h:mm AM/PM] with an hour from [min_hour] to 12, minutes
    up to 59, any white space before the meridiem, and the meridiem in
    either case: its hour, minutes and meridiem.  With [padded], white
    space may also surround the whole. *)
Definition twelve (min_hour : Z) (padded : bool) (t : str)
  : option (str * str * str) :=
  match split_hour (if padded then SlugSpec.drop_while Js.is_space t else t)
  with
  | Some (h, m1 :: m2 :: r) =>
      if (min_hour <=? value h) && (value h <=? 12)
         && Js.is_digit m1 && Js.is_digit m2 && (value [m1; m2] <=? 59)
      then
        match SlugSpec.drop_while Js.is_space r with
        | a :: b :: r' =>
            if one_of "AaPp" a && one_of "Mm" b
               && is_nil (if padded then SlugSpec.drop_while Js.is_space r'
                          else r')
            then Some (h, [m1; m2], [a; b]) else None
        | _ => None
        end
      else None
  | _ => None
  end.

Definition is_pm (meridiem : str) : bool :=
  match meridiem with
  | a :: _ => one_of "Pp" a
  | [] => false
  end.

(** 12 AM is 0, 12 PM is 12, the other PM hours gain 12. *)
Definition convert12 (hour : Z) (pm : bool) : Z :=
  if hour =? 12 then (if pm then 12 else 0)
  else if pm then hour + 12 else hour.

(** [v] in decimal, padded with zeros to [n] digits. *)
Definition pad (n : nat) (v : Z) : str := Js.padStart n "0" (Js.String_ v).

(** The time a 12-hour shape stands for, as [HH:mm]. *)
Definition in24 (parts : str * str * str) : str :=
  let '(h, mm, meridiem) := parts in
  pad 2 (convert12 (value h) (is_pm meridiem)) ++ lit ":" ++ mm.

(** A date of the calendar, years 0 to 9999. *)
Definition calendar_date (y m d : Z) : Prop :=
  0 <= y <= 9999 /\ 1 <= m <= 12 /\ 1 <= d <= JsDate.DaysInMonth y m.

(** Its canonical form [YYYY-MM-DD]. *)
Definition canonical_date (y m d : Z) : str :=
  ymd (pad 4 y) (pad 2 m) (pad 2 d).

End TimeSpec.

(** The captures of a match: the elements of the result of [exec] after
    the first. *)
Definition captures (m : option (list str)) : option (list str) :=
  option_map (@tl str) m.

Definition parts_list (parts : option (str * str * str)) : option (list str) :=
  option_map (fun p => [fst (fst p); snd (fst p); snd p]) parts.

(** Helpers for the tables and case analyses of the date proofs. *)

Module DateTables.

Local Open Scope Z_scope.

Definition leap (y : Z) : Z := if JsDate.DaysInYear y =? 366 then 1 else 0.


(** [pad n v] is [n] digits that read back as [v]. *)
Definition reads_back (n : nat) (v : Z) : bool :=
  (length (TimeSpec.pad n v) =? n)%nat
  && forallb Js.is_digit (TimeSpec.pad n v)
  && (JsDate.number (TimeSpec.pad n v) =? v).

Definition upto (n : Z) : list Z := map Z.of_nat (seq 0 (Z.to_nat n)).


Definition year_written_in_full (y : Z) : bool :=
  str_eqb (TimeSpec.pad 4 y) (Js.String_ y).

Definition year_shortened (y : Z) : bool :=
  (length (Js.String_ y) <? 4)%nat.

End DateTables.

(** ** The schema of the first revision of [database/event.model.ts]

    The paths of the first [EventSchema] are declared with [required: true]
    and no message, so that a failure carries the default message of
    Mongoose.  On a String path [required] rejects [undefined] and the
    empty string; [agenda] and [tags] have [default: []], and an array
    passes [required] even when it is empty.  Validation is the first
    pre-save middleware of every schema: it runs before the hook that the
    source registers. *)

Module Event1Schema.

Definition required_message (path : string) : string :=
  ("Path `" ++ path ++ "` is required.")%string.

Definition required_path (path : string) (value : str)
  : string * list (option str) :=
  (path, [Schema.required (required_message path) value]).

Definition validators (this : IEvent) : list (string * list (option str)) :=
  [required_path "title" (title this);
   required_path "slug" (match slug this with Some s => s | None => [] end);
   required_path "description" (description this);
   required_path "overview" (overview this);
   required_path "image" (image this);
   required_path "venue" (venue this);
   required_path "location" (location this);
   required_path "date" (date this);
   required_path "time" (time this);
   required_path "mode" (mode this);
   required_path "audience" (audience this);
   required_path "organizer" (organizer this)]%string.

Definition validate (this : IEvent) : list Schema.failure :=
  flat_map (fun path => Schema.path_errors (fst path) (snd path))
           (validators this).

(** Validation, then the hook. *)
Definition hooks (other_formats : str -> option Z)
  : IEvent -> result IEvent :=
  Schema.validated validate (Event1.preSave other_formats).

(** The setters of the first [EventSchema]: [trim: true] on the nine
    string paths that have it; [slug], [date] and [time] have none. *)
Definition setters (raw : IEvent) : IEvent :=
  {| title := Js.trim (title raw);
     slug := slug raw;
     description := Js.trim (description raw);
     overview := Js.trim (overview raw);
     image := Js.trim (image raw);
     venue := Js.trim (venue raw);
     location := Js.trim (location raw);
     date := date raw;
     time := time raw;
     mode := Js.trim (mode raw);
     audience := Js.trim (audience raw);
     agenda := agenda raw;
     organizer := Js.trim (organizer raw);
     tags := tags raw;
     isModified := isModified raw |}.

End Event1Schema.

(** ** The schema of the first revision of the Booking model

    [email] is declared with [required: true] and no message; [eventId] is
    required too, and is always there in a document of this model.
    Validation runs before the hook, which asks nothing of the Event
    collection when validation has failed. *)

Module Booking1Schema.

Definition validate (this : IBooking) : list Schema.failure :=
  Schema.path_errors "email"
    [Schema.required (Event1Schema.required_message "email") (email this)].

(** Validation, then the hook. *)
Definition hooks (db : EventStore) (this : IBooking) : queried IBooking :=
  match validate this with
  | [] => Booking1.preSave db this
  | errors => (throw (ValidationError errors), [])
  end.

End Booking1Schema.

(** ** A whole save

    [Document.prototype.save] on a document whose values a caller
    assigned: the setters of the schema have rewritten the values, the
    validators of the schema run, and the pre-save hook of the source runs
    when they have passed. *)

Module Save.






End Save.


(** ** Addresses in the words of the pattern *)

Module EmailSpec.

(** A character that is neither white space nor an at sign. *)
Definition address_char (c : ascii) : bool :=
  negb (Js.is_space c || Js.is_char "@" c).

(** [local@domain.rest]: three non-empty parts of such characters, an at
    sign after the first and a full stop between the other two. *)
Definition address (s : str) : Prop :=
  exists l d1 d2,
    s = l ++ "@"%char :: d1 ++ "."%char :: d2 /\
    l <> [] /\ d1 <> [] /\ d2 <> [] /\
    forallb address_char l = true /\
    forallb address_char d1 = true /\
    forallb address_char d2 = true.

End EmailSpec.

(** * Properties *)

Import SlugSpec.

(** *** Characters *)

Ltac codes :=
  repeat match goal with
  | |- context [Js.code (Ascii ?a ?b ?c ?d ?e ?f ?g ?h)] =>
      let v := eval vm_compute in (Js.code (Ascii a b c d e f g h)) in
      change (Js.code (Ascii a b c d e f g h)) with v
  | H : context [Js.code (Ascii ?a ?b ?c ?d ?e ?f ?g ?h)] |- _ =>
      let v := eval vm_compute in (Js.code (Ascii a b c d e f g h)) in
      change (Js.code (Ascii a b c d e f g h)) with v in H
  end.

Ltac bool_props :=
  repeat rewrite ?andb_true_iff, ?orb_true_iff, ?negb_true_iff,
    ?andb_false_iff, ?orb_false_iff, ?negb_false_iff,
    ?N.leb_le, ?N.eqb_eq, ?N.leb_gt, ?N.eqb_neq in *.

(** Facts about character classes, by linear arithmetic on code units. *)
Ltac class_arith :=
  unfold slug_char, non_alnum, lower_alnum, is_dash, Js.is_space, Js.is_digit,
    Js.has_lower, Js.between, Js.is_char in *;
  codes; intros;
  lazymatch goal with
  | |- _ = true => idtac
  | |- _ = false => idtac
  | |- @eq bool _ _ => apply Bool.eq_true_iff_eq
  | _ => idtac
  end;
  bool_props; lia.

Lemma code_inj (a b : ascii) : Js.code a = Js.code b -> a = b.
Proof.
  unfold Js.code. intros H.
  rewrite <- (ascii_N_embedding a), <- (ascii_N_embedding b). now rewrite H.
Qed.

Lemma is_char_eq (x c : ascii) : Js.is_char x c = true -> c = x.
Proof. unfold Js.is_char. intros H. apply code_inj. now apply N.eqb_eq. Qed.

Lemma is_dash_eq (c : ascii) : is_dash c = true -> c = "-"%char.
Proof. apply is_char_eq. Qed.

Lemma dash_non_alnum (c : ascii) : is_dash c = true -> non_alnum c = true.
Proof. intros H. apply is_dash_eq in H. subst. reflexivity. Qed.

Lemma space_non_alnum (c : ascii) : Js.is_space c = true -> non_alnum c = true.
Proof. class_arith. Qed.

Lemma slug_char_cases (c : ascii) :
  slug_char c = true -> non_alnum c = true -> is_dash c = true.
Proof.
  unfold slug_char, non_alnum. destruct (lower_alnum c); simpl; congruence.
Qed.

Lemma slug_char_lower (c : ascii) : slug_char c = true -> Js.lower_char c = c.
Proof.
  intros H. unfold Js.lower_char.
  replace (Js.has_lower c) with false; [reflexivity|].
  revert H. class_arith.
Qed.

Lemma lower_char_code (c : ascii) :
  Js.has_lower c = true -> Js.code (Js.lower_char c) = (Js.code c + 32)%N.
Proof.
  intros H. unfold Js.lower_char. rewrite H. unfold Js.code at 1.
  apply N_ascii_embedding. revert H. class_arith.
Qed.

Lemma lower_char_space (c : ascii) :
  Js.is_space (Js.lower_char c) = Js.is_space c.
Proof.
  destruct (Js.has_lower c) eqn:H.
  - unfold Js.is_space. rewrite (@lower_char_code _ H). revert H. class_arith.
  - unfold Js.lower_char. now rewrite H.
Qed.

(** *** Trimming *)

Lemma trimStart_drop (s : str) : Js.trimStart s = drop_while Js.is_space s.
Proof. induction s as [|c s IH]; simpl; [|rewrite IH]; reflexivity. Qed.

Lemma drop_while_split (p : ascii -> bool) (s : str) :
  exists w, s = w ++ drop_while p s /\ forallb p w = true.
Proof.
  induction s as [|c s (w & E & F)]; simpl.
  - exists []. auto.
  - destruct (p c) eqn:P.
    + exists (c :: w). simpl. rewrite P, F. split; [congruence|reflexivity].
    + exists []. auto.
Qed.

Lemma drop_while_head (p : ascii -> bool) (s : str) c s' :
  drop_while p s = c :: s' -> p c = false.
Proof.
  induction s as [|a s IH]; simpl; [discriminate|].
  destruct (p a) eqn:P; [exact IH|]. intros E. injection E as -> _. exact P.
Qed.

Lemma drop_while_id (p : ascii -> bool) (s : str) :
  (forall c s', s = c :: s' -> p c = false) -> drop_while p s = s.
Proof.
  destruct s as [|c s]; simpl; [reflexivity|]. intros H.
  now rewrite (H c s eq_refl).
Qed.

Lemma trim_split (s : str) :
  exists w1 w2, s = w1 ++ Js.trim s ++ w2 /\
                forallb Js.is_space w1 = true /\ forallb Js.is_space w2 = true.
Proof.
  unfold Js.trim, Js.trimEnd. rewrite !trimStart_drop.
  destruct (drop_while_split Js.is_space s) as (w1 & E1 & F1).
  destruct (drop_while_split Js.is_space (rev (drop_while Js.is_space s)))
    as (w2 & E2 & F2).
  exists w1, (rev w2). repeat split; auto.
  - rewrite E1 at 1. f_equal.
    rewrite <- (rev_involutive (drop_while Js.is_space s)) at 1.
    rewrite E2 at 1. now rewrite rev_app_distr.
  - rewrite forallb_forall in *. intros x Hx. apply F2. now apply in_rev.
Qed.

Lemma trimStart_lower (s : str) :
  Js.trimStart (Js.toLowerCase s) = Js.toLowerCase (Js.trimStart s).
Proof.
  induction s as [|c s IH]; simpl; [reflexivity|].
  rewrite lower_char_space. destruct (Js.is_space c); [exact IH|reflexivity].
Qed.

Lemma trim_lower (s : str) :
  Js.trim (Js.toLowerCase s) = Js.toLowerCase (Js.trim s).
Proof.
  unfold Js.trim, Js.trimEnd. rewrite trimStart_lower.
  unfold Js.toLowerCase at 1. rewrite <- map_rev.
  fold (Js.toLowerCase (rev (Js.trimStart s))). rewrite trimStart_lower.
  unfold Js.toLowerCase. now rewrite map_rev.
Qed.

(** *** Runs, ends and collapsing *)

Lemma drop_end_nil_iff (p : ascii -> bool) (s : str) :
  drop_end p s = [] <-> forallb p s = true.
Proof.
  destruct s as [|c s]; simpl; [tauto|].
  destruct (p c && forallb p s); split; intros; congruence.
Qed.

Lemma drop_end_cons (p : ascii -> bool) c (s t : str) :
  drop_end p s = drop_end p t -> drop_end p (c :: s) = drop_end p (c :: t).
Proof.
  intros E. simpl.
  assert (F : forallb p s = forallb p t).
  { destruct (forallb p s) eqn:Fs, (forallb p t) eqn:Ft; auto.
    - apply drop_end_nil_iff in Fs. rewrite E in Fs.
      apply drop_end_nil_iff in Fs. congruence.
    - apply drop_end_nil_iff in Ft. rewrite <- E in Ft.
      apply drop_end_nil_iff in Ft. congruence. }
  rewrite F, E. reflexivity.
Qed.

Lemma collapse_in_run (p : ascii -> bool) (s : str) :
  collapse p true s = collapse p false (drop_while p s).
Proof.
  induction s as [|c s IH]; simpl; [reflexivity|].
  destruct (p c) eqn:P; [exact IH|]. simpl. now rewrite P.
Qed.

Lemma collapse_run (p : ascii -> bool) b (w : str) :
  forallb p w = true -> collapse p b w = [] \/ collapse p b w = ["-"%char].
Proof.
  revert b. induction w as [|c w IH]; simpl; intros b F; [auto|].
  apply andb_prop in F as [P F]. rewrite P.
  destruct b; [apply IH; exact F|].
  right. rewrite collapse_in_run.
  clear IH. induction w as [|a w IW]; simpl in *; [reflexivity|].
  apply andb_prop in F as [Pa F]. rewrite Pa. auto.
Qed.

(** Leading white space leaves at most one more hyphen at the front. *)
Lemma collapse_lead (p : ascii -> bool) (w s : str) :
  forallb p w = true ->
  drop_while is_dash (collapse p false (w ++ s))
  = drop_while is_dash (collapse p false s).
Proof.
  intros F. destruct w as [|c w]; [reflexivity|].
  simpl in F. apply andb_prop in F as [P F].
  simpl. rewrite P. rewrite collapse_in_run.
  assert (E : drop_while p (w ++ s) = drop_while p s).
  { clear P. induction w as [|a w IW]; simpl in *; [reflexivity|].
    apply andb_prop in F as [Pa F]. rewrite Pa. auto. }
  rewrite E. change (drop_while is_dash ("-"%char :: ?x)) with (drop_while is_dash x).
  destruct s as [|a s]; [reflexivity|].
  cbn [drop_while collapse]. destruct (p a) eqn:Pa.
  - change (drop_while is_dash ("-"%char :: ?x)) with (drop_while is_dash x).
    now rewrite collapse_in_run.
  - cbn [collapse]. now rewrite Pa.
Qed.

(** Trailing white space leaves at most one more hyphen at the end. *)
Lemma collapse_trail (p : ascii -> bool) b (s w : str) :
  forallb p w = true ->
  drop_end is_dash (collapse p b (s ++ w)) = drop_end is_dash (collapse p b s).
Proof.
  intros F. revert b. induction s as [|c s IH]; intros b.
  - simpl. destruct (@collapse_run p b w F) as [-> | ->]; reflexivity.
  - simpl. destruct (p c), b; auto using drop_end_cons.
Qed.

Lemma drop_end_drop_while (s t : str) :
  drop_end is_dash s = drop_end is_dash t ->
  drop_end is_dash (drop_while is_dash s)
  = drop_end is_dash (drop_while is_dash t).
Proof.
  revert t. induction s as [|c s IH]; intros t E.
  - simpl in *. symmetry in E. apply drop_end_nil_iff in E.
    clear -E. induction t as [|a t IT]; simpl in *; [reflexivity|].
    apply andb_prop in E as [Pa E]. rewrite Pa. auto.
  - destruct t as [|a t].
    + apply drop_end_nil_iff in E. simpl in E.
      apply andb_prop in E as [Pc E]. simpl. rewrite Pc.
      assert (E' : drop_end is_dash s = drop_end is_dash []).
      { simpl. now apply drop_end_nil_iff. }
      apply (IH [] E').
    + simpl in E.
      destruct (is_dash c && forallb is_dash s) eqn:Fs,
               (is_dash a && forallb is_dash t) eqn:Ft; try discriminate.
      * apply andb_prop in Fs as [Pc Fs]. apply andb_prop in Ft as [Pa Ft].
        simpl. rewrite Pc, Pa. apply IH.
        transitivity (@nil ascii);
          [|symmetry]; now apply drop_end_nil_iff.
      * injection E as -> E. simpl.
        destruct (is_dash a) eqn:Pa.
        -- apply IH. exact E.
        -- simpl. rewrite Pa. simpl. now rewrite E.
Qed.

(** *** The matcher on a repeated class *)

Lemma drop_while_length (p : ascii -> bool) (s : str) :
  length (drop_while p s) <= length s.
Proof.
  induction s as [|c s IH]; simpl; [lia|]. destruct (p c); simpl; lia.
Qed.

Lemma take_drop_all (p : ascii -> bool) (s : str) :
  forallb p s = true -> take_while p s = s /\ drop_while p s = [].
Proof.
  induction s as [|c s IH]; simpl; [auto|]. intros F.
  apply andb_prop in F as [P F]. rewrite P.
  destruct (IH F) as [-> ->]. auto.
Qed.

(** Equations of the matcher, used for rewriting. *)
Lemma star_S step k b (s : str) :
  star step (S k) b s
  = flat_map (fun h1 => if is_nil (taken h1) then []
                        else map (join h1) (star step k false (rest h1)))
             (step b s) ++ [nothing s].
Proof. reflexivity. Qed.

Lemma run_cls_cons p b c (s : str) :
  run (Cls p) b (c :: s) = if p c then [Hit [c] s []] else [].
Proof. reflexivity. Qed.

Lemma run_cls_nil p b : run (Cls p) b [] = [].
Proof. reflexivity. Qed.

Lemma run_seq r1 r2 b (s : str) :
  run (Seq r1 r2) b s
  = flat_map (fun h1 => map (join h1)
                          (run r2 (b && is_nil (taken h1)) (rest h1)))
             (run r1 b s).
Proof. reflexivity. Qed.

Lemma run_alt r1 r2 b (s : str) :
  run (Alt r1 r2) b s = run r1 b s ++ run r2 b s.
Proof. reflexivity. Qed.

Lemma run_star r b (s : str) :
  run (Star r) b s = star (run r) (length s) b s.
Proof. reflexivity. Qed.

Lemma run_group r b (s : str) :
  run (Group r) b s
  = map (fun h => Hit (taken h) (rest h) (taken h :: groups h)) (run r b s).
Proof. reflexivity. Qed.

Lemma run_bol b (s : str) : run Bol b s = if b then [nothing s] else [].
Proof. reflexivity. Qed.

Lemma run_eol_nil b : run Eol b [] = [nothing []].
Proof. reflexivity. Qed.

Lemma run_eol_cons b c (s : str) : run Eol b (c :: s) = [].
Proof. reflexivity. Qed.

Lemma star_cls_head (p : ascii -> bool) fuel b (s : str) :
  length s <= fuel ->
  exists tl, star (run (Cls p)) fuel b s
             = Hit (take_while p s) (drop_while p s) [] :: tl.
Proof.
  revert b s. induction fuel as [|k IH]; intros b s L.
  - destruct s; [|simpl in L; lia]. eexists. reflexivity.
  - rewrite star_S. destruct s as [|c s]; [eexists; reflexivity|].
    rewrite run_cls_cons. cbn [take_while drop_while]. destruct (p c).
    + simpl in L. destruct (IH false s ltac:(lia)) as (tl & E).
      cbn [flat_map taken rest is_nil]. rewrite E. cbn. eexists. reflexivity.
    + cbn. eexists. reflexivity.
Qed.

Lemma star_cls_all (p : ascii -> bool) fuel b (s : str) (h : hit) :
  In h (star (run (Cls p)) fuel b s) ->
  taken h ++ rest h = s /\ forallb p (taken h) = true /\ groups h = [].
Proof.
  revert b s h. induction fuel as [|k IH]; intros b s h.
  - simpl. intros [<- | []]. auto.
  - rewrite star_S. intros H. apply in_app_or in H as [H | [<- | []]];
      [|simpl; auto].
    destruct s as [|c s]; [contradiction|]. rewrite run_cls_cons in H.
    destruct (p c) eqn:P; [|contradiction].
    cbn [flat_map taken rest is_nil] in H. rewrite app_nil_r in H.
    apply in_map_iff in H as (h' & <- & H').
    destruct (IH _ _ _ H') as (E & F & G). cbn. rewrite E, F, G, P. auto.
Qed.

Lemma run_plus_nil (p : ascii -> bool) b (s : str) :
  (forall c s', s = c :: s' -> p c = false) -> run (Plus (Cls p)) b s = [].
Proof.
  intros H. unfold Plus. rewrite run_seq. destruct s as [|c s]; [reflexivity|].
  rewrite run_cls_cons. now rewrite (H c s eq_refl).
Qed.

Lemma run_plus_head (p : ascii -> bool) b c (s : str) :
  p c = true ->
  exists tl, run (Plus (Cls p)) b (c :: s)
             = Hit (c :: take_while p s) (drop_while p s) [] :: tl.
Proof.
  intros P. unfold Plus. rewrite run_seq, run_cls_cons, P.
  cbn [flat_map taken rest is_nil].
  rewrite app_nil_r, andb_false_r, run_star.
  destruct (@star_cls_head p (length s) false s (le_n _)) as (tl & E).
  rewrite E. cbn. eexists. reflexivity.
Qed.

Lemma run_plus_all (p : ascii -> bool) b (s : str) (h : hit) :
  In h (run (Plus (Cls p)) b s) ->
  taken h ++ rest h = s /\ forallb p (taken h) = true /\ groups h = [].
Proof.
  unfold Plus. rewrite run_seq.
  destruct s as [|c s]; [contradiction|]. rewrite run_cls_cons.
  destruct (p c) eqn:P; [|contradiction].
  cbn [flat_map taken rest is_nil]. rewrite app_nil_r, run_star. intros H.
  apply in_map_iff in H as (h' & <- & H').
  destruct (@star_cls_all _ _ _ _ _ H') as (E & F & G).
  cbn. rewrite E, F, G, P. auto.
Qed.

(** *** The two replacements of [generateSlug] *)

Lemma replace_non_alnum fuel b (s : str) :
  length s < fuel ->
  replace_from fuel re_non_alnum (lit "-") b s = collapse_runs s.
Proof.
  unfold collapse_runs.
  revert b s. induction fuel as [|k IH]; intros b s L; [lia|].
  destruct s as [|c s]; [reflexivity|]. simpl in L.
  cbn [replace_from collapse].
  change re_non_alnum with (Plus (Cls non_alnum)).
  destruct (non_alnum c) eqn:P.
  - destruct (@run_plus_head non_alnum b c s P) as (tl & ->).
    cbn [taken rest]. rewrite IH
      by (pose proof (drop_while_length non_alnum s); lia).
    rewrite collapse_in_run. reflexivity.
  - rewrite run_plus_nil
      by (intros c' s' E; injection E as <- _; exact P).
    rewrite IH by lia. reflexivity.
Qed.

Lemma run_edge_later (s : str) :
  run re_edge_dashes false s
  = flat_map (fun h1 => map (join h1)
                          (run Eol (false && is_nil (taken h1)) (rest h1)))
             (run (Plus (Cls is_dash)) false s).
Proof.
  change re_edge_dashes
    with (Alt (Seq Bol (Plus (Cls is_dash))) (Seq (Plus (Cls is_dash)) Eol)).
  rewrite run_alt, (run_seq Bol), run_bol. cbn [flat_map app].
  now rewrite run_seq.
Qed.

Lemma run_edge_first (s : str) :
  run re_edge_dashes true s
  = map (join (nothing s)) (run (Plus (Cls is_dash)) true s)
    ++ flat_map (fun h1 => map (join h1)
                             (run Eol (true && is_nil (taken h1)) (rest h1)))
                (run (Plus (Cls is_dash)) true s).
Proof.
  change re_edge_dashes
    with (Alt (Seq Bol (Plus (Cls is_dash))) (Seq (Plus (Cls is_dash)) Eol)).
  rewrite run_alt, (run_seq Bol), run_bol. cbn [flat_map app taken rest nothing is_nil andb].
  now rewrite app_nil_r, run_seq.
Qed.

Lemma plus_eol_none (p : ascii -> bool) b (s : str) :
  forallb p s = false ->
  flat_map (fun h1 => map (join h1)
                        (run Eol (b && is_nil (taken h1)) (rest h1)))
           (run (Plus (Cls p)) b s) = [].
Proof.
  intros F.
  assert (H : forall h, In h (run (Plus (Cls p)) b s) -> rest h <> []).
  { intros h Hh E. destruct (@run_plus_all _ _ _ _ Hh) as (A & B & _).
    rewrite E, app_nil_r in A. congruence. }
  induction (run (Plus (Cls p)) b s) as [|h l IH]; [reflexivity|].
  cbn [flat_map]. rewrite IH by (intros; apply H; now right).
  specialize (H h (or_introl eq_refl)).
  destruct (rest h); [congruence|reflexivity].
Qed.

Lemma replace_edge_later fuel (s : str) :
  length s < fuel ->
  replace_from fuel re_edge_dashes (lit "") false s = drop_end is_dash s.
Proof.
  revert s. induction fuel as [|k IH]; intros s L; [lia|].
  destruct s as [|c s]; [reflexivity|]. simpl in L.
  cbn [replace_from]. rewrite run_edge_later.
  destruct (forallb is_dash (c :: s)) eqn:F.
  - pose proof F as F'. simpl in F'. apply andb_prop in F' as [P Fs].
    destruct (@run_plus_head is_dash false c s P) as (tl & ->).
    destruct (@take_drop_all _ _ Fs) as [-> ->].
    cbn. rewrite P, Fs. cbn. destruct k; reflexivity.
  - rewrite plus_eol_none by exact F.
    cbn [drop_end]. rewrite F. rewrite IH by lia. reflexivity.
Qed.

Lemma replace_edge (s : str) :
  replace_all re_edge_dashes (lit "") s = strip_dashes s.
Proof.
  unfold replace_all, strip_dashes.
  destruct s as [|c s]; [reflexivity|].
  cbn [replace_from]. rewrite run_edge_first.
  destruct (is_dash c) eqn:P.
  - destruct (@run_plus_head is_dash true c s P) as (tl & ->).
    cbn [map app join taken rest drop_while]. rewrite P.
    cbn [lit list_ascii_of_string app].
    apply replace_edge_later.
    pose proof (drop_while_length is_dash s). simpl. lia.
  - rewrite run_plus_nil
      by (intros c' s' E; injection E as <- _; exact P).
    cbn [map app flat_map drop_while]. rewrite P.
    cbn [drop_end forallb]. rewrite P. cbn [andb].
    f_equal. apply replace_edge_later. simpl. lia.
Qed.

(** *** [generateSlug] against the specification's words *)

Lemma lower_spaces (w : str) :
  forallb Js.is_space w = true ->
  forallb non_alnum (Js.toLowerCase w) = true.
Proof.
  induction w as [|c w IH]; simpl; [reflexivity|]. intros F.
  apply andb_prop in F as [P F]. rewrite (IH F), andb_true_r.
  apply space_non_alnum. now rewrite lower_char_space.
Qed.

Lemma strip_collapse_padding (w1 x w2 : str) :
  forallb non_alnum w1 = true -> forallb non_alnum w2 = true ->
  strip_dashes (collapse_runs (w1 ++ x ++ w2)) = strip_dashes (collapse_runs x).
Proof.
  intros F1 F2. unfold strip_dashes, collapse_runs.
  rewrite app_assoc.
  rewrite (@drop_end_drop_while _ _ (@collapse_trail non_alnum false (w1 ++ x) w2 F2)).
  now rewrite collapse_lead by exact F1.
Qed.

Lemma slug_trim (s : str) : slugify (Js.trim s) = slugify s.
Proof.
  destruct (trim_split s) as (w1 & w2 & E & F1 & F2).
  unfold slugify. rewrite E at 2. unfold Js.toLowerCase. rewrite !map_app.
  symmetry. apply strip_collapse_padding; now apply lower_spaces.
Qed.

Lemma generateSlug1_slug (title : str) :
  Event1.generateSlug title = slugify title.
Proof.
  unfold Event1.generateSlug. rewrite replace_edge.
  unfold replace_all. rewrite replace_non_alnum by lia.
  apply slug_trim.
Qed.

Lemma generateSlug2_slug (title : str) :
  Event2.generateSlug title = slugify title.
Proof.
  unfold Event2.generateSlug. rewrite replace_edge.
  unfold replace_all. rewrite replace_non_alnum by lia.
  rewrite trim_lower. apply slug_trim.
Qed.

(** *** Shape of a slug *)

Lemma double_dash_iff (s : str) :
  has_double_dash s <-> double_dash s = true.
Proof.
  split.
  - intros (s1 & s2 & ->). induction s1 as [|a s1 IH]; [reflexivity|].
    cbn [app double_dash]. destruct (s1 ++ "-"%char :: "-"%char :: s2) eqn:E.
    + destruct s1; discriminate.
    + rewrite IH. apply orb_true_r.
  - induction s as [|c s IH]; [discriminate|]. cbn [double_dash].
    destruct s as [|c' s]; [discriminate|]. intros H.
    apply orb_prop in H as [H | H].
    + apply andb_prop in H as [Hc Hc'].
      apply is_dash_eq in Hc, Hc'. subst. exists [], s. reflexivity.
    + destruct (IH H) as (s1 & s2 & E). exists (c :: s1), s2.
      now rewrite E.
Qed.

Lemma double_dash_cons c (s : str) :
  double_dash (c :: s) = false -> double_dash s = false.
Proof.
  cbn [double_dash]. destruct s; [reflexivity|].
  intros H. apply orb_false_elim in H as [_ H]. exact H.
Qed.

Lemma double_dash_drop_while p (s : str) :
  double_dash s = false -> double_dash (drop_while p s) = false.
Proof.
  induction s as [|c s IH]; [reflexivity|]. intros H. cbn [drop_while].
  destruct (p c); [|exact H]. apply IH. exact (@double_dash_cons _ _ H).
Qed.

Lemma double_dash_drop_end p (s : str) :
  double_dash s = false -> double_dash (drop_end p s) = false.
Proof.
  induction s as [|c s IH]; [reflexivity|]. intros H. cbn [drop_end].
  destruct (forallb p (c :: s)); [reflexivity|].
  specialize (IH (@double_dash_cons _ _ H)).
  cbn [double_dash] in *. destruct s as [|c' s]; [reflexivity|].
  cbn [drop_end] in *. destruct (forallb p (c' :: s)); [reflexivity|].
  apply orb_false_elim in H as [H _]. now rewrite H, IH.
Qed.

Lemma collapse_shape (b : bool) (s : str) :
  double_dash (collapse non_alnum b s) = false /\
  forallb slug_char (collapse non_alnum b s) = true /\
  (b = true -> forall c t, collapse non_alnum b s = c :: t -> is_dash c = false).
Proof.
  revert b. induction s as [|c s IH]; intros b; [repeat split; discriminate|].
  cbn [collapse]. destruct (non_alnum c) eqn:P.
  - destruct (IH true) as (D & F & H). destruct b; [auto|].
    repeat split; [|cbn; exact F|discriminate].
    cbn [double_dash]. destruct (collapse non_alnum true s) as [|c' t] eqn:E;
      [reflexivity|].
    rewrite (H eq_refl c' t eq_refl), andb_false_r. exact D.
  - destruct (IH false) as (D & F & _).
    assert (Hc : is_dash c = false).
    { destruct (is_dash c) eqn:Q; [|reflexivity].
      apply dash_non_alnum in Q. congruence. }
    repeat split.
    + cbn [double_dash]. destruct (collapse non_alnum false s);
        [reflexivity|]. now rewrite Hc.
    + cbn [forallb]. rewrite F, andb_true_r. unfold slug_char.
      unfold non_alnum in P. destruct (lower_alnum c); [reflexivity|discriminate].
    + intros _ c' t E. now injection E as <- _.
Qed.

Lemma forallb_drop_while (q p : ascii -> bool) (s : str) :
  forallb q s = true -> forallb q (drop_while p s) = true.
Proof.
  induction s as [|c s IH]; [reflexivity|]. intros F. cbn [drop_while].
  destruct (p c); [|exact F]. apply IH. simpl in F.
  now apply andb_prop in F as [_ F].
Qed.

Lemma forallb_drop_end (q p : ascii -> bool) (s : str) :
  forallb q s = true -> forallb q (drop_end p s) = true.
Proof.
  induction s as [|c s IH]; [reflexivity|]. intros F. cbn [drop_end].
  destruct (forallb p (c :: s)); [reflexivity|]. simpl in F.
  apply andb_prop in F as [Q F]. cbn [forallb]. now rewrite Q, IH.
Qed.

Lemma drop_end_last (p : ascii -> bool) (s s' : str) c :
  drop_end p s = s' ++ [c] -> p c = false.
Proof.
  revert s'. induction s as [|a s IH]; intros s'; cbn [drop_end].
  - destruct s'; discriminate.
  - destruct (forallb p (a :: s)) eqn:F; [destruct s'; discriminate|].
    destruct s' as [|a' s'].
    + cbn [app]. intros E. injection E as -> E.
      apply drop_end_nil_iff in E. simpl in F. rewrite E, andb_true_r in F.
      exact F.
    + cbn [app]. intros E. injection E as _ E. exact (IH _ E).
Qed.

Lemma strip_no_lead (s : str) : ~ starts_with_dash (strip_dashes s).
Proof.
  unfold strip_dashes. intros (t & E).
  destruct (drop_while is_dash s) as [|c u] eqn:D; [discriminate|].
  pose proof (@drop_while_head _ _ _ _ D) as Hc. cbn [drop_end] in E.
  destruct (forallb is_dash (c :: u)); [discriminate|].
  injection E as -> _. discriminate.
Qed.

Lemma strip_no_trail (s : str) : ~ ends_with_dash (strip_dashes s).
Proof.
  unfold strip_dashes. intros (t & E). apply drop_end_last in E. discriminate.
Qed.

Lemma slug_well_formed (title : str) : well_formed (slugify title).
Proof.
  unfold slugify, collapse_runs.
  destruct (collapse_shape false (Js.toLowerCase title)) as (D & F & _).
  repeat split.
  - unfold strip_dashes. now apply forallb_drop_end, forallb_drop_while.
  - apply strip_no_lead.
  - apply strip_no_trail.
  - rewrite double_dash_iff. unfold strip_dashes.
    rewrite double_dash_drop_end; [discriminate|].
    now apply double_dash_drop_while.
Qed.

Lemma slug_chars_lower (s : str) :
  forallb slug_char s = true -> Js.toLowerCase s = s.
Proof.
  induction s as [|c s IH]; [reflexivity|]. simpl. intros F.
  apply andb_prop in F as [P F]. now rewrite (@slug_char_lower _ P), (IH F).
Qed.

Lemma collapse_fixed (s : str) :
  forallb slug_char s = true -> double_dash s = false ->
  collapse_runs s = s.
Proof.
  unfold collapse_runs.
  induction s as [|c s IH]; [reflexivity|]. intros F D.
  simpl in F. apply andb_prop in F as [P F].
  specialize (IH F (@double_dash_cons _ _ D)).
  cbn [collapse]. destruct (non_alnum c) eqn:N; [|now rewrite IH].
  pose proof (@slug_char_cases _ P N) as Q. apply is_dash_eq in Q. subst c.
  rewrite collapse_in_run. f_equal.
  rewrite drop_while_id; [exact IH|].
  intros a t ->. cbn [double_dash] in D.
  apply orb_false_elim in D as [D _]. simpl in D.
  simpl in F. apply andb_prop in F as [Pa _].
  destruct (non_alnum a) eqn:Na; [|reflexivity].
  rewrite (@slug_char_cases _ Pa Na) in D. discriminate.
Qed.

Lemma drop_end_id (s : str) :
  ~ ends_with_dash s -> drop_end is_dash s = s.
Proof.
  induction s as [|c s IH]; [reflexivity|]. intros H. cbn [drop_end].
  destruct (forallb is_dash (c :: s)) eqn:F.
  - exfalso. apply H.
    destruct (@exists_last _ (c :: s) ltac:(discriminate)) as (t & a & E).
    exists t. rewrite E. do 2 f_equal. apply is_dash_eq.
    rewrite forallb_forall in F. apply F. rewrite E.
    apply in_or_app. right. now left.
  - f_equal. apply IH. intros (t & ->). apply H. now exists (c :: t).
Qed.

Lemma slug_fixed (s : str) : well_formed s -> slugify s = s.
Proof.
  intros (F & L & T & D). unfold slugify.
  rewrite (@slug_chars_lower _ F).
  rewrite collapse_fixed; [|exact F|].
  - unfold strip_dashes. rewrite drop_while_id.
    + now apply drop_end_id.
    + intros c t ->. destruct (is_dash c) eqn:Q; [|reflexivity].
      exfalso. apply L. exists t. now rewrite (@is_dash_eq _ Q).
  - destruct (double_dash s) eqn:E; [|reflexivity].
    exfalso. apply D. now apply double_dash_iff.
Qed.

(** ** The slug generator *)

(** C2: for every title, [generateSlug] of either revision returns the slug
    of the specification's words: the lower-cased title with every maximal
    run of characters outside [a-z0-9] collapsed to one hyphen and the
    hyphens at both ends stripped.  The result is a fixed point of
    [toLowerCase] written over [a-z0-9-], it neither begins nor ends with a
    hyphen, and it has no two hyphens in a row.  [generateSlug] is a total
    function, and the empty title gives the empty string. *)
Theorem generateSlug_shape (title : str) :
  slug_of title (Event1.generateSlug title) /\
  slug_of title (Event2.generateSlug title) /\
  Event1.generateSlug [] = [] /\ Event2.generateSlug [] = [].
Proof.
  assert (S : slug_of title (slugify title)).
  { pose proof (slug_well_formed title) as W. repeat split; try apply W.
    apply slug_chars_lower, W. }
  rewrite generateSlug1_slug, generateSlug2_slug. auto.
Qed.

(** C10: [generateSlug] of either revision is idempotent, and each of its
    outputs is a string of lower-case alphanumerics separated by single
    interior hyphens. *)
Theorem generateSlug_idempotent (title : str) :
  Event1.generateSlug (Event1.generateSlug title) = Event1.generateSlug title /\
  Event2.generateSlug (Event2.generateSlug title) = Event2.generateSlug title /\
  well_formed (Event1.generateSlug title) /\
  well_formed (Event2.generateSlug title).
Proof.
  rewrite !generateSlug1_slug, !generateSlug2_slug.
  pose proof (slug_well_formed title) as W.
  rewrite (slug_fixed W). auto.
Qed.

(** Every well-formed slug is a fixed point of [generateSlug]. *)
Lemma generateSlug_fixed (s : str) :
  well_formed s -> Event1.generateSlug s = s /\ Event2.generateSlug s = s.
Proof.
  intros W. rewrite generateSlug1_slug, generateSlug2_slug.
  now rewrite (slug_fixed W).
Qed.

(** ** The connection helper *)

Section ConnectionFacts.

Import Connection.

Variable Mongoose : Type.

Local Abbreviation World := (World Mongoose).
Local Abbreviation System := (System Mongoose).

Lemma set_nth_length {A} (l : list A) n a : length (set_nth l n a) = length l.
Proof.
  revert n. induction l as [|x l IH]; intros [|n]; simpl; auto.
Qed.

Lemma set_nth_other {A} (l : list A) n m a :
  n <> m -> nth_error (set_nth l n a) m = nth_error l m.
Proof.
  revert n m. induction l as [|x l IH]; intros [|n] [|m] H; simpl; auto;
    congruence.
Qed.

Lemma settle_inv (w w' : World) p o :
  settle w p o = Some w' ->
  cached w' = cached w /\ attempts w' = attempts w /\
  nth_error (promises w) p = Some Pending /\
  (forall q, q <> p -> nth_error (promises w') q = nth_error (promises w) q).
Proof.
  unfold settle, attempts.
  destruct (nth_error (promises w) p) as [[| |]|] eqn:E; try discriminate.
  intros H. injection H as <-. cbn. repeat split.
  - apply set_nth_length.
  - intros q Hq. apply set_nth_other. congruence.
Qed.


Lemma arriving_step n0 (s s' : System) ev :
  is_resume ev = false -> step s ev = Some s' ->
  arriving n0 s -> arriving n0 s'.
Proof.
  intros R St (C & I). destruct ev as [i | p o | i]; [| |discriminate];
    cbn [step] in St.
  - destruct (calls s i) eqn:Ci; [discriminate|].
    unfold connectDB_enter in St. rewrite C in St.
    destruct I as [(P & A & N) | (P & A & N)]; rewrite P in St;
      injection St as <-; cbn; (split; [assumption || reflexivity|]); right.
    + unfold attempts in *. cbn. rewrite length_app, A. cbn.
      repeat split; [lia|]. intros j c. unfold update.
      destruct (Nat.eqb j i); [now intros [= <-]|]. now rewrite N.
    + cbn. split; [exact P|]. split; [exact A|]. intros j c. unfold update.
      destruct (Nat.eqb j i); [now intros [= <-]|]. apply N.
  - destruct (settle (world s) p o) as [w'|] eqn:E; [|discriminate].
    injection St as <-. destruct (settle_inv _ _ _ E) as (Ec & Ea & _).
    unfold arriving. cbn. rewrite Ec, Ea. auto.
Qed.

Lemma arriving_steps n0 (evs : list (event Mongoose)) (s s' : System) :
  forallb (fun ev => negb (is_resume ev)) evs = true ->
  steps s evs = Some s' -> arriving n0 s -> arriving n0 s'.
Proof.
  revert s. induction evs as [|ev evs IH]; intros s F St A.
  - injection St as <-. exact A.
  - cbn in F, St. apply andb_prop in F as [R F].
    destruct (step s ev) as [s1|] eqn:E; [|discriminate].
    apply (IH s1 F St). eapply arriving_step; eauto.
    now apply negb_true_iff.
Qed.

Lemma settled_step n p0 (s s' : System) ev :
  is_call ev = false -> step s ev = Some s' ->
  settled n p0 s -> settled n p0 s'.
Proof.
  intros R St (A & I). destruct ev as [i | p o | i]; [discriminate| |];
    cbn [step] in St.
  - destruct (settle (world s) p o) as [w'|] eqn:E; [|discriminate].
    injection St as <-.
    destruct (settle_inv _ _ _ E) as (Ec & Ea & Ep & Eo).
    split; [cbn; congruence|]. cbn. intros j c Hj.
    destruct (I j c Hj) as [-> | (Fc & Hc)]; [now left|right].
    split; [exact Fc|]. rewrite Eo; [exact Hc|].
    intros ->. rewrite Hc in Ep. destruct c; discriminate.
  - destruct (calls s i) as [[q| |]|] eqn:Ci; try discriminate.
    destruct (connectDB_resume (world s) q) as [[w' c']|] eqn:E;
      [|discriminate].
    injection St as <-. unfold connectDB_resume in E.
    destruct (I i _ Ci) as [Hq | (Fq & _)]; [|discriminate].
    injection Hq as ->.
    destruct (nth_error (promises (world s)) p0) as [[|v|e]|] eqn:Hp;
      try discriminate; injection E as <- <-.
    + split; [exact A|]. cbn. intros j c. unfold update.
      destruct (Nat.eqb j i).
      * intros H. injection H as <-. right. split; [reflexivity|exact Hp].
      * rewrite Hp. apply I.
    + split; [exact A|]. cbn. intros j c. unfold update.
      destruct (Nat.eqb j i).
      * intros H. injection H as <-. right. split; [reflexivity|exact Hp].
      * rewrite Hp. apply I.
Qed.

Lemma settled_steps n p0 (evs : list (event Mongoose)) (s s' : System) :
  forallb (fun ev => negb (is_call ev)) evs = true ->
  steps s evs = Some s' -> settled n p0 s -> settled n p0 s'.
Proof.
  revert s. induction evs as [|ev evs IH]; intros s F St A.
  - injection St as <-. exact A.
  - cbn in F, St. apply andb_prop in F as [R F].
    destruct (step s ev) as [s1|] eqn:E; [|discriminate].
    apply (IH s1 F St). eapply settled_step; eauto.
    now apply negb_true_iff.
Qed.

Lemma steps_app (evs1 evs2 : list (event Mongoose)) (s s' : System) :
  steps s (evs1 ++ evs2) = Some s' ->
  exists s1, steps s evs1 = Some s1 /\ steps s1 evs2 = Some s'.
Proof.
  revert s. induction evs1 as [|ev evs1 IH]; intros s; cbn.
  - eauto.
  - destruct (step s ev); [apply IH|discriminate].
Qed.

Lemma outcome_of_inj (c1 c2 : call Mongoose) :
  finished c1 = true -> finished c2 = true ->
  outcome_of c1 = outcome_of c2 -> c1 = c2.
Proof.
  destruct c1, c2; cbn; intros; congruence.
Qed.


Lemma no_calls_steps (evs : list (event Mongoose)) (s s' : System) :
  forallb (fun ev => negb (is_call ev)) evs = true ->
  steps s evs = Some s' ->
  (forall i, calls s i = None) -> forall i, calls s' i = None.
Proof.
  revert s. induction evs as [|ev evs IH]; intros s F St N.
  - now injection St as <-.
  - cbn in F, St. apply andb_prop in F as [R F].
    destruct (step s ev) as [s1|] eqn:E; [|discriminate].
    apply (IH s1 F St). destruct ev as [i | p o | i]; [discriminate| |];
      cbn [step] in E.
    + destruct (settle (world s) p o); [|discriminate].
      now injection E as <-.
    + now rewrite N in E.
Qed.

(** C8: when the attempt a call awaits is rejected and no connection is
    cached, the call ends by throwing the error of the attempt, after
    clearing the cached promise and caching no connection: the cache is
    back in the Unconnected state.  No attempt was started in that call (the
    heap of attempts is as it was), and the next call of [connectDB] starts
    a fresh attempt and awaits it. *)
Theorem connectDB_failure_clears (w : World) (p : nat) (e : error) :
  conn (cached w) = None ->
  nth_error (promises w) p = Some (Rejected e) ->
  exists w',
    connectDB_resume w p = Some (w', Thrown e) /\
    cached w' = {| conn := None; promise := None |} /\
    phase_of (cached w') = Unconnected /\
    promises w' = promises w /\
    connectDB_enter w'
    = ({| cached := {| conn := None; promise := Some (attempts w) |};
          promises := promises w ++ [Pending] |},
       Awaiting (attempts w)).
Proof.
  intros C P. unfold connectDB_resume. rewrite P, C.
  eexists. split; [reflexivity|]. cbn. repeat split.
Qed.

Lemma set_nth_last {A} (l : list A) (x y : A) :
  set_nth (l ++ [x]) (length l) y = l ++ [y].
Proof. induction l as [|a l IH]; cbn; [reflexivity|now rewrite IH]. Qed.

Lemma nth_error_last {A} (l : list A) (x : A) :
  nth_error (l ++ [x]) (length l) = Some x.
Proof. induction l as [|a l IH]; cbn; [reflexivity|exact IH]. Qed.

(** Two callers that arrive together do come to their end: the schedule in
    which both call, the attempt is fulfilled with [v], and both resume,
    runs, with one attempt and [v] returned to both. *)
Lemma connectDB_two_callers (w : World) (a b : nat) (v : Mongoose) :
  phase_of (cached w) = Unconnected -> a <> b ->
  exists s,
    steps (idle w)
      [Call a; Call b; Settle (attempts w) (inl v); Resume a; Resume b]
    = Some s /\
    calls s a = Some (Returned v) /\ calls s b = Some (Returned v) /\
    attempts (world s) = S (attempts w) /\
    conn (cached (world s)) = Some v.
Proof.
  intros U N. destruct w as [[c p] ps]. unfold phase_of in U. cbn in U.
  destruct c; [discriminate|]. destruct p; [discriminate|].
  assert (Eab : Nat.eqb a b = false) by now apply Nat.eqb_neq.
  assert (Eba : Nat.eqb b a = false) by (apply Nat.eqb_neq; congruence).
  cbv [steps step idle attempts calls world connectDB_enter cached conn
       promise promises update settle connectDB_resume].
  repeat (first [rewrite Eba | rewrite Eab | rewrite Nat.eqb_refl
                 | rewrite nth_error_last | rewrite set_nth_last];
          cbv beta iota).
  eexists. split; [reflexivity|]. cbv beta iota.
  rewrite Eab, !Nat.eqb_refl, length_app. cbn [length].
  repeat split. lia.
Qed.

End ConnectionFacts.

Lemma connectDB_failure_clears_witness :
  exists w',
    Connection.connectDB_resume
      {| Connection.cached :=
           {| Connection.conn := @None nat; Connection.promise := Some 0 |};
         Connection.promises := [Connection.Rejected (Error (lit "down"))] |}
      0
    = Some (w', Connection.Thrown (Error (lit "down"))) /\
    Connection.phase_of (Connection.cached w') = Connection.Unconnected.
Proof.
  destruct (@connectDB_failure_clears nat
              {| Connection.cached :=
                   {| Connection.conn := None; Connection.promise := Some 0 |};
                 Connection.promises :=
                   [Connection.Rejected (Error (lit "down"))] |}
              0 (Error (lit "down")) eq_refl eq_refl)
    as (w' & R & _ & U & _).
  exists w'. split; [exact R|exact U].
Defined.

(** ** The Booking hooks *)

Lemma str_eqb_eq (a b : str) : str_eqb a b = true <-> a = b.
Proof.
  unfold str_eqb. destruct (list_eq_dec ascii_dec a b); split; congruence.
Qed.

Lemma stored_In (id : ObjectId) (ids : list ObjectId) :
  existsb (str_eqb id) ids = true <-> In id ids.
Proof.
  rewrite existsb_exists. split.
  - intros (x & H & E). apply str_eqb_eq in E. now subst.
  - intros H. exists id. split; [exact H|]. now apply str_eqb_eq.
Qed.


Lemma booking2_validate (this : IBooking) :
  Booking2.validate this
  = if test EMAIL_REGEX (email this) then []
    else [("email"%string,
           if is_nil (email this) then lit "Email is required"
           else lit "Please provide a valid email address")].
Proof.
  unfold Booking2.validate, Schema.path_errors, Schema.required,
    Schema.validate_with.
  destruct (email this) as [|c s]; [reflexivity|]. cbn [is_nil Schema.first_failure].
  destruct (test EMAIL_REGEX (c :: s)); reflexivity.
Qed.

(** The first revision asks the Event collection about a booking that is
    neither new nor modified: the policy of the specification fails on
    it. *)
Lemma booking1_queries_on_every_save :
  ~ queries_on_reference_change Booking1.preSave.
Proof.
  intros H.
  specialize (H {| stored := []; outage := None |}
                {| eventId := lit "64b7f0c2a1"; email := lit "ana@example.org";
                   isNew := false; modified := fun _ => false |}).
  apply proj1 in H. cbn [isNew modified orb] in H.
  discriminate H. vm_compute. discriminate.
Qed.

(** C6, as amended: the second revision asks the Event collection exactly
    when the booking is new or its [eventId] was modified, with one query,
    about that [eventId]; when the query fails, the write fails with
    ReferenceCheckFailed, which is none of the DanglingReference errors.
    The first revision asks on every save of a booking with a well-formed
    email, also of one that is neither new nor modified, and does not ask
    otherwise; when the query fails there, the write fails with the error
    of the collection itself. *)
Theorem booking_reference_check (db : EventStore) (this : IBooking) :
  (snd (Booking2.preSave db this) <> [] <->
   isNew this || modified this "eventId" = true) /\
  (snd (Booking2.preSave db this) <> [] ->
   snd (Booking2.preSave db this) = [eventId this]) /\
  (forall e, outage db = Some e ->
             isNew this || modified this "eventId" = true ->
             fst (Booking2.preSave db this)
             = inr Booking2.ReferenceCheckFailed) /\
  (forall id, Booking2.ReferenceCheckFailed <> Booking2.DanglingReference id) /\
  snd (Booking1.preSave db this)
  = (if test EMAIL_REGEX (email this) then [eventId this] else []) /\
  (forall e, outage db = Some e -> test EMAIL_REGEX (email this) = true ->
             fst (Booking1.preSave db this) = inr e).
Proof.
  unfold Booking2.preSave, Booking1.preSave.
  repeat split.
  - destruct (isNew this || modified this "eventId"); [reflexivity|].
    intros H. now contradiction H.
  - intros H. rewrite H.
    destruct (Event_exists db (eventId this)) as [[|]|]; discriminate.
  - destruct (isNew this || modified this "eventId"); [|intros H; now contradiction H].
    destruct (Event_exists db (eventId this)) as [[|]|]; reflexivity.
  - intros e O M. rewrite M. unfold Event_exists. rewrite O. reflexivity.
  - intros id H. discriminate H.
  - destruct (test EMAIL_REGEX (email this)); cbn [negb]; [|reflexivity].
    destruct (Event_exists db (eventId this)) as [[|]|]; reflexivity.
  - intros e O T. rewrite T. cbn [negb]. unfold Event_exists. rewrite O.
    reflexivity.
Qed.

Lemma booking_reference_check_witness :
  fst (Booking2.preSave
         {| stored := []; outage := Some (Error (lit "ECONNREFUSED")) |}
         {| eventId := lit "64b7f0c2a1"; email := lit "ana@example.org";
            isNew := true; modified := fun _ => false |})
  = inr Booking2.ReferenceCheckFailed /\
  fst (Booking1.preSave
         {| stored := []; outage := Some (Error (lit "ECONNREFUSED")) |}
         {| eventId := lit "64b7f0c2a1"; email := lit "ana@example.org";
            isNew := true; modified := fun _ => false |})
  = inr (Error (lit "ECONNREFUSED")).
Proof.
  pose (db := {| stored := []; outage := Some (Error (lit "ECONNREFUSED")) |}).
  pose (b := {| eventId := lit "64b7f0c2a1"; email := lit "ana@example.org";
                isNew := true; modified := fun _ => false |}).
  destruct (@booking_reference_check db b) as (_ & _ & F2 & _ & _ & F1).
  split.
  - exact (F2 _ eq_refl eq_refl).
  - apply (F1 _ eq_refl). vm_compute. reflexivity.
Defined.

(** ** The Event hooks *)

Section Normalise.

Variable recompute : IEvent -> bool.
Variable generateSlug : str -> str.
Variables normalizeDate normalizeTime : str -> result str.

Local Abbreviation run_hook :=
  (normalise recompute generateSlug normalizeDate normalizeTime).

Lemma normalise_inl (this r : IEvent) :
  run_hook this = inl r ->
  slug r = (if recompute this then Some (generateSlug (title this))
            else slug this) /\
  (if isModified this "date" then normalizeDate (date this) = inl (date r)
   else date r = date this) /\
  (if isModified this "time" then normalizeTime (time this) = inl (time r)
   else time r = time this) /\
  r = rewritten this (slug r) (date r) (time r).
Proof.
  unfold normalise, bind, ret.
  destruct this as [ti sl de ov im ve lo da tm mo au ag og ta md].
  destruct (recompute _); cbn;
    destruct (md "date"%string);
    try destruct (normalizeDate da) as [d|e] eqn:D; cbn;
    try discriminate;
    destruct (md "time"%string);
    try destruct (normalizeTime tm) as [t|e'] eqn:T; cbn;
    try discriminate;
    intros H; injection H as H; subst r; cbn; auto.
Qed.

Lemma normalise_date_error (this : IEvent) (e : error) :
  isModified this "date" = true -> normalizeDate (date this) = inr e ->
  run_hook this = inr e.
Proof.
  unfold normalise, bind, ret.
  destruct this as [ti sl de ov im ve lo da tm mo au ag og ta md].
  cbn. intros M E. destruct (recompute _); cbn; rewrite M, E; reflexivity.
Qed.

Lemma normalise_time_error (this : IEvent) (e : error) :
  (isModified this "date" = false \/
   exists d, normalizeDate (date this) = inl d) ->
  isModified this "time" = true -> normalizeTime (time this) = inr e ->
  run_hook this = inr e.
Proof.
  unfold normalise, bind, ret.
  destruct this as [ti sl de ov im ve lo da tm mo au ag og ta md].
  cbn. intros D M E.
  destruct (recompute _); cbn;
    (destruct D as [D | (d & D)];
     [rewrite D | rewrite D; destruct (md "date"%string)]);
    cbn; rewrite M, E; reflexivity.
Qed.

End Normalise.

Section EventHooks.

Variable other_formats : str -> option Z.

Lemma assertNonEmpty_cases (field : string) (value : str) :
  Event1.assertNonEmpty field value
  = if is_nil (Js.trim value) then inr (Event1.RequiredFieldMissing field)
    else inl tt.
Proof. reflexivity. Qed.

Lemma preSave1_cases (this : IEvent) :
  Event1.preSave other_formats this
  = match first_empty this with
    | Some f => inr (Event1.RequiredFieldMissing f)
    | None =>
        if is_nil (agenda this) then inr (Event1.EmptyListField "agenda")
        else if is_nil (tags this) then inr (Event1.EmptyListField "tags")
        else normalise recompute1 Event1.generateSlug
               (Event1.normalizeDate other_formats) Event1.normalizeTime this
    end.
Proof.
  unfold Event1.preSave, first_empty, required_strings, normalise, recompute1.
  rewrite !assertNonEmpty_cases. unfold empty_after_trim.
  cbn [find snd fst option_map].
  repeat match goal with
  | |- context [is_nil (Js.trim ?v)] =>
      destruct (is_nil (Js.trim v)); [reflexivity|]; cbn [bind]
  end.
  destruct (is_nil (agenda this)); [reflexivity|]. cbn [bind].
  destruct (is_nil (tags this)); reflexivity.
Qed.

Lemma preSave2_cases (this : IEvent) :
  Event2.preSave other_formats this
  = normalise recompute2 Event2.generateSlug
      (Event2.normalizeDate other_formats) Event2.normalizeTime this.
Proof. reflexivity. Qed.

Lemma normalizeDate1_error (d : str) (e : error) :
  Event1.normalizeDate other_formats d = inr e -> e = Event1.InvalidDate.
Proof.
  unfold Event1.normalizeDate. destruct (JsDate.parse other_formats d);
    [discriminate|]. now intros [= <-].
Qed.

Lemma normalizeDate2_error (d : str) (e : error) :
  Event2.normalizeDate other_formats d = inr e -> e = Event2.InvalidDate.
Proof.
  unfold Event2.normalizeDate. destruct (JsDate.parse other_formats d);
    [discriminate|]. now intros [= <-].
Qed.

Lemma normalizeTime1_error (t : str) (e : error) :
  Event1.normalizeTime t = inr e -> e = Event1.InvalidTime.
Proof.
  unfold Event1.normalizeTime. destruct (exec re_hhmm (Js.trim t));
    [discriminate|]. destruct (exec Event1.re_twelve (Js.trim t));
    [discriminate|]. now intros [= <-].
Qed.

Lemma normalizeTime2_error (t : str) (e : error) :
  Event2.normalizeTime t = inr e -> e = Event2.InvalidTime.
Proof.
  unfold Event2.normalizeTime. destruct (test re_hhmm (Js.trim t));
    [discriminate|]. destruct (exec Event2.re_twelve (Js.trim t));
    [discriminate|]. now intros [= <-].
Qed.


Lemma first_empty_Some (this : IEvent) (f : string) :
  first_empty this = Some f ->
  exists v, In (f, v) (required_strings this) /\ Js.trim v = [].
Proof.
  unfold first_empty.
  destruct (find empty_after_trim (required_strings this)) as [[f' v]|] eqn:E;
    [|discriminate].
  intros [= <-]. apply find_some in E as (I & T). exists v. split; [exact I|].
  unfold empty_after_trim in T. cbn [snd] in T.
  destruct (Js.trim v); [reflexivity|discriminate].
Qed.

Lemma first_empty_None (this : IEvent) (f : string) (v : str) :
  first_empty this = None -> In (f, v) (required_strings this) ->
  Js.trim v <> [].
Proof.
  unfold first_empty.
  destruct (find empty_after_trim (required_strings this)) eqn:E;
    [discriminate|].
  intros _ I T. pose proof (find_none _ _ E _ I) as N.
  unfold empty_after_trim in N. cbn [snd] in N. now rewrite T in N.
Qed.

Lemma mode_values_In (v : str) :
  existsb (fun x => str_eqb v (lit x)) Event2.mode_values = true
  <-> In v (map lit Event2.mode_values).
Proof.
  rewrite existsb_exists, in_map_iff. split.
  - intros (x & I & E). apply str_eqb_eq in E. eauto.
  - intros (x & E & I). exists x. split; [exact I|]. now apply str_eqb_eq.
Qed.




(** The second revision leaves an unset slug unset when the title is not
    modified. *)
Lemma event2_keeps_unset_slug :
  Js.falsy (slug sample_without_slug) = true /\
  Event2.preSave (fun _ => None) sample_without_slug
  = inl sample_without_slug /\
  slug sample_without_slug
  <> Some (Event2.generateSlug (title sample_without_slug)).
Proof.
  split; [reflexivity|]. split; [vm_compute; reflexivity|discriminate].
Qed.

(** C4, as amended.  A hook that succeeds has set the slug to
    [generateSlug] of the title exactly when the title is modified or -- in
    the first revision only -- the slug is unset, has replaced the date by
    its normal form exactly when the date is modified and the time by its
    normal form exactly when the time is modified, and has left everything
    else as it was; the second revision leaves an unset slug unset while
    the title is not modified.  When the date is modified and
    [normalizeDate] fails, the hook fails with that InvalidDate; when the
    time is modified and [normalizeTime] fails after the date went through,
    the hook fails with that InvalidTime (in the first revision, provided
    the assertions before them passed). *)
Theorem event_hook_frame (this r : IEvent) :
  (Event1.preSave other_formats this = inl r ->
   slug r = (if isModified this "title" || Js.falsy (slug this)
             then Some (Event1.generateSlug (title this)) else slug this) /\
   (if isModified this "date"
    then Event1.normalizeDate other_formats (date this) = inl (date r)
    else date r = date this) /\
   (if isModified this "time"
    then Event1.normalizeTime (time this) = inl (time r)
    else time r = time this) /\
   r = rewritten this (slug r) (date r) (time r)) /\
  (Event2.preSave other_formats this = inl r ->
   slug r = (if isModified this "title"
             then Some (Event2.generateSlug (title this)) else slug this) /\
   (if isModified this "date"
    then Event2.normalizeDate other_formats (date this) = inl (date r)
    else date r = date this) /\
   (if isModified this "time"
    then Event2.normalizeTime (time this) = inl (time r)
    else time r = time this) /\
   r = rewritten this (slug r) (date r) (time r)) /\
  (forall e, isModified this "date" = true ->
     (Event1.normalizeDate other_formats (date this) = inr e ->
      first_empty this = None -> agenda this <> [] -> tags this <> [] ->
      e = Event1.InvalidDate /\ Event1.preSave other_formats this = inr e) /\
     (Event2.normalizeDate other_formats (date this) = inr e ->
      e = Event2.InvalidDate /\ Event2.preSave other_formats this = inr e)) /\
  (forall e, isModified this "time" = true ->
     (Event1.normalizeTime (time this) = inr e ->
      (isModified this "date" = false \/
       exists d, Event1.normalizeDate other_formats (date this) = inl d) ->
      first_empty this = None -> agenda this <> [] -> tags this <> [] ->
      e = Event1.InvalidTime /\ Event1.preSave other_formats this = inr e) /\
     (Event2.normalizeTime (time this) = inr e ->
      (isModified this "date" = false \/
       exists d, Event2.normalizeDate other_formats (date this) = inl d) ->
      e = Event2.InvalidTime /\ Event2.preSave other_formats this = inr e)).
Proof.
  assert (P1 : first_empty this = None -> agenda this <> [] ->
               tags this <> [] ->
               Event1.preSave other_formats this
               = normalise recompute1 Event1.generateSlug
                   (Event1.normalizeDate other_formats)
                   Event1.normalizeTime this).
  { intros E A T. rewrite preSave1_cases, E.
    destruct (agenda this); [contradiction|].
    destruct (tags this); [contradiction|reflexivity]. }
  repeat match goal with |- _ /\ _ => split end.
  - rewrite preSave1_cases. destruct (first_empty this); [discriminate|].
    destruct (is_nil (agenda this)); [discriminate|].
    destruct (is_nil (tags this)); [discriminate|].
    apply normalise_inl.
  - rewrite preSave2_cases. apply normalise_inl.
  - intros e M. split.
    + intros E F A T. split; [exact (@normalizeDate1_error _ _ E)|].
      rewrite (P1 F A T). now apply normalise_date_error.
    + intros E. split; [exact (@normalizeDate2_error _ _ E)|].
      rewrite preSave2_cases. now apply normalise_date_error.
  - intros e M. split.
    + intros E D F A T. split; [exact (@normalizeTime1_error _ _ E)|].
      rewrite (P1 F A T). now apply normalise_time_error.
    + intros E D. split; [exact (@normalizeTime2_error _ _ E)|].
      rewrite preSave2_cases. now apply normalise_time_error.
Qed.

End EventHooks.

Lemma event_hook_frame_witness :
  let r := rewritten sample_modified (Some (lit "rocq-meetup-paris"))
                     (lit "2025-06-01") (lit "18:30") in
  slug r = Some (Event1.generateSlug (title sample_modified)) /\
  Event1.normalizeDate (fun _ => None) (date sample_modified)
  = inl (date r) /\
  Event1.normalizeTime (time sample_modified) = inl (time r).
Proof.
  cbv zeta.
  destruct (proj1 (@event_hook_frame (fun _ => None) sample_modified
                     (rewritten sample_modified
                        (Some (lit "rocq-meetup-paris"))
                        (lit "2025-06-01") (lit "18:30")))
                  ltac:(vm_compute; reflexivity))
    as (S & D & T & _).
  split; [exact S|split; [exact D|exact T]].
Defined.

(** ** The time normalizer *)

Lemma run_eps b (s : str) : run Eps b s = [nothing s].
Proof. reflexivity. Qed.

Lemma join_nothing (s : str) (h : hit) : join (nothing s) h = h.
Proof. now destruct h. Qed.

Lemma run_anchored r b (s : str) :
  run (Seq Bol r) b s = if b then run r true s else [].
Proof.
  rewrite run_seq, run_bol. destruct b; [|reflexivity].
  cbn [flat_map taken rest nothing is_nil andb]. rewrite app_nil_r.
  rewrite (map_ext _ (fun h => h) (join_nothing s)). apply map_id.
Qed.

Lemma search_anchored_later r (s : str) : search (Seq Bol r) false s = None.
Proof.
  induction s as [|c s IH]; cbn [search]; rewrite run_anchored;
    [reflexivity|exact IH].
Qed.

(** An anchored pattern matches at the start of the input or nowhere. *)
Lemma exec_anchored r (s : str) :
  exec (Seq Bol r) s
  = match run r true s with
    | h :: _ => Some (taken h :: groups h)
    | [] => None
    end.
Proof.
  unfold exec. destruct s as [|c s]; cbn [search]; rewrite run_anchored;
    destruct (run r true _); try reflexivity.
  now rewrite search_anchored_later.
Qed.

(** A repeated class followed by something that cannot begin inside the
    class: the repetition takes the whole run. *)
Lemma star_then (X : Type) (p : ascii -> bool) (G : hit -> list X)
      fuel b (s : str) :
  (forall h c s', rest h = c :: s' -> p c = true -> G h = []) ->
  length s <= fuel ->
  flat_map G (star (run (Cls p)) fuel b s)
  = G (Hit (take_while p s) (drop_while p s) []).
Proof.
  revert G b s. induction fuel as [|k IH]; intros G b s HG L.
  - destruct s; [|simpl in L; lia]. cbn. apply app_nil_r.
  - rewrite star_S, flat_map_app. cbn [flat_map nothing].
    rewrite (app_nil_r (G _)).
    destruct s as [|c s]; [reflexivity|]. rewrite run_cls_cons.
    cbn [take_while drop_while]. destruct (p c) eqn:P; [|reflexivity].
    cbn [flat_map taken rest is_nil]. rewrite app_nil_r.
    rewrite (HG (nothing (c :: s)) c s eq_refl P), app_nil_r.
    rewrite flat_map_concat_map, map_map, <- flat_map_concat_map.
    rewrite (IH (fun h => G (join (Hit [c] s []) h)) false s).
    + reflexivity.
    + intros h c' s' E P'. apply (HG _ c' s'); [exact E|exact P'].
    + simpl in L. lia.
Qed.

Lemma run_star_then (p : ascii -> bool) r b (s : str) :
  (forall b' c s', p c = true -> run r b' (c :: s') = []) ->
  run (Seq (Star (Cls p)) r) b s
  = map (join (Hit (take_while p s) (drop_while p s) []))
        (run r (b && is_nil (take_while p s)) (drop_while p s)).
Proof.
  intros H. rewrite run_seq, run_star.
  rewrite (@star_then _ p
             (fun h1 => map (join h1) (run r (b && is_nil (taken h1)) (rest h1)))
             (length s) b s); [reflexivity| |apply le_n].
  intros h c s' E P. rewrite E, (H _ c s' P). reflexivity.
Qed.

Ltac run_step :=
  repeat progress
    (rewrite ?run_seq, ?run_alt, ?run_group, ?run_cls_cons, ?run_cls_nil,
       ?run_eol_nil, ?run_eol_cons, ?run_eps, ?andb_false_r;
     cbn [flat_map map app join taken rest groups is_nil andb nothing]).

Ltac run_split :=
  match goal with
  | |- context [if ?p ?c then _ else _] =>
      lazymatch p with
      | andb _ => fail
      | _ => let E := fresh "E" in destruct (p c) eqn:E
      end
  end.

Ltac use_known :=
  repeat match goal with
  | H : ?x = true |- context [?x] => rewrite H
  | H : ?x = false |- context [?x] => rewrite H
  end.

Ltac run_eval := repeat (run_step; try run_split).

(** Facts about the character classes of the time patterns, by linear
    arithmetic on code units and digit values. *)
Ltac time_arith :=
  unfold TimeSpec.hhmm, TimeSpec.value, JsDate.number, Js.digit_val, one_of,
    Js.is_digit, Js.is_space, Js.between, Js.is_char in *;
  cbn [forallb fold_left existsb lit list_ascii_of_string] in *;
  codes; intros;
  lazymatch goal with
  | |- _ = true => idtac
  | |- _ = false => idtac
  | |- @eq bool _ _ => apply Bool.eq_true_iff_eq
  | _ => idtac
  end;
  repeat rewrite ?andb_true_iff, ?orb_true_iff, ?negb_true_iff,
    ?andb_false_iff, ?orb_false_iff, ?negb_false_iff,
    ?N.leb_le, ?N.eqb_eq, ?N.leb_gt, ?N.eqb_neq,
    ?Z.leb_le, ?Z.leb_gt, ?Z.eqb_eq, ?Z.eqb_neq in *;
  lia.

Lemma test_hhmm (t : str) : test re_hhmm t = TimeSpec.hhmm t.
Proof.
  unfold test, re_hhmm, Chr. cbn [Cat fold_right]. rewrite exec_anchored.
  destruct t as [|h1 [|h2 [|c [|m1 [|m2 [|x r]]]]]];
    run_eval; cbn [TimeSpec.hhmm]; try reflexivity.
  all: symmetry; time_arith.
Qed.

(** *** The 12-hour patterns, piece by piece *)

Ltac run_more := repeat (run_step; try run_split).

Lemma run_hour (k : regex) b (t : str) :
  run (Seq re_hour12 (Seq (Chr ":") k)) b t
  = match TimeSpec.split_hour t with
    | Some (h, r) =>
        if (TimeSpec.value h <=? 12)%Z
        then map (join (Hit (h ++ [":"%char]) r [h])) (run k false r)
        else []
    | None => []
    end.
Proof.
  unfold re_hour12, Chr, Opt.
  destruct t as [|d1 [|c [|c' r]]]; run_more; cbn [TimeSpec.split_hour];
    try reflexivity.
  all: repeat match goal with
       | |- context [if ?x then _ else _] =>
           let C := fresh "C" in destruct x eqn:C
       end;
       cbn [map app join taken rest groups]; rewrite ?app_nil_r;
       try reflexivity; try (exfalso; time_arith).
  all: rewrite map_map; apply map_ext; intros h; unfold join;
       cbn [taken rest groups app];
       repeat match goal with
       | H : Js.is_char ":" ?x = true |- _ => apply is_char_eq in H; subst x
       end; reflexivity.
Qed.

Lemma run_minute (k : regex) b (t : str) :
  run (Seq re_minute k) b t
  = match t with
    | m1 :: m2 :: r =>
        if Js.is_digit m1 && Js.is_digit m2
           && (TimeSpec.value [m1; m2] <=? 59)%Z
        then map (join (Hit [m1; m2] r [[m1; m2]])) (run k false r)
        else []
    | _ => []
    end.
Proof.
  unfold re_minute.
  destruct t as [|m1 [|m2 r]]; run_more; try reflexivity.
  all: repeat match goal with
       | |- context [if ?x then _ else _] =>
           let C := fresh "C" in destruct x eqn:C
       end;
       cbn [map app join taken rest groups]; rewrite ?app_nil_r;
       try reflexivity; exfalso; time_arith.
Qed.

Lemma meridiem_not_space (k : regex) b c (s : str) :
  Js.is_space c = true -> run (Seq re_meridiem k) b (c :: s) = [].
Proof.
  intros P. unfold re_meridiem. run_more; try reflexivity.
  all: exfalso; time_arith.
Qed.

Lemma run_meridiem (k : regex) b (t : str) :
  run (Seq (Star (Cls Js.is_space)) (Seq re_meridiem k)) b t
  = match drop_while Js.is_space t with
    | a :: b' :: r =>
        if one_of "AaPp" a && one_of "Mm" b'
        then map (join (Hit (take_while Js.is_space t ++ [a; b']) r
                            [[a; b']]))
                 (run k false r)
        else []
    | _ => []
    end.
Proof.
  rewrite run_star_then by (intros; now apply meridiem_not_space).
  unfold re_meridiem. generalize (b && is_nil (take_while Js.is_space t)).
  intros b0.
  destruct (drop_while Js.is_space t) as [|a [|b' r]]; run_more;
    try reflexivity; try congruence.
  all: use_known; cbn [map app join taken rest groups andb];
       rewrite ?app_nil_r; try reflexivity.
  rewrite map_map. apply map_ext. intros h. unfold join.
  cbn [taken rest groups app]. now rewrite <- app_assoc.
Qed.

Lemma run_end b (t : str) :
  run (Seq Eol Eps) b t = if is_nil t then [nothing []] else [].
Proof. destruct t; reflexivity. Qed.

Lemma run_padded_end b (t : str) :
  run (Seq (Star (Cls Js.is_space)) (Seq Eol Eps)) b t
  = if is_nil (drop_while Js.is_space t)
    then [Hit (take_while Js.is_space t) [] []] else [].
Proof.
  rewrite run_star_then by reflexivity. rewrite run_end.
  destruct (drop_while Js.is_space t);
    cbn [is_nil map]; unfold join, nothing; cbn [taken rest groups app];
    rewrite ?app_nil_r; reflexivity.
Qed.

Lemma hour_not_space (k : regex) b c (s : str) :
  Js.is_space c = true -> run (Seq re_hour12 (Seq (Chr ":") k)) b (c :: s) = [].
Proof.
  intros P. rewrite run_hour. unfold TimeSpec.split_hour.
  replace (Js.is_digit c) with false by (symmetry; time_arith).
  cbn [andb]. destruct s as [|c' [|c'' s]]; reflexivity.
Qed.

Lemma split_hour_value (t h r : str) :
  TimeSpec.split_hour t = Some (h, r) -> (0 <=? TimeSpec.value h)%Z = true.
Proof.
  unfold TimeSpec.split_hour.
  destruct t as [|d1 [|c [|c' r']]]; try discriminate.
  - destruct (Js.is_digit d1 && Js.is_char ":" c) eqn:C; [|discriminate].
    intros [= <- <-]. revert C. time_arith.
  - destruct (Js.is_digit d1 && Js.is_char ":" c) eqn:C.
    + intros [= <- <-]. revert C. time_arith.
    + destruct (Js.is_digit d1 && Js.is_digit c && Js.is_char ":" c') eqn:D;
        [|discriminate].
      intros [= <- <-]. revert D. time_arith.
Qed.

Ltac finish_match :=
  cbn [map]; unfold join, nothing; cbn [taken rest groups app option_map tl];
  reflexivity.

Lemma exec_twelve2 (t : str) :
  captures (exec Event2.re_twelve t) = parts_list (TimeSpec.twelve 0 false t).
Proof.
  unfold captures, parts_list, Event2.re_twelve. cbn [Cat fold_right].
  rewrite exec_anchored, run_hour. unfold TimeSpec.twelve.
  destruct (TimeSpec.split_hour t) as [[h r]|] eqn:S; [|reflexivity].
  rewrite (split_hour_value _ S). cbn [andb].
  rewrite run_minute. destruct r as [|m1 [|m2 r]];
    try (destruct (TimeSpec.value h <=? 12)%Z; reflexivity).
  destruct (TimeSpec.value h <=? 12)%Z; [|reflexivity]. cbn [andb].
  destruct (Js.is_digit m1 && Js.is_digit m2
            && (TimeSpec.value [m1; m2] <=? 59)%Z); [|reflexivity].
  rewrite run_meridiem.
  destruct (drop_while Js.is_space r) as [|a [|b' r']]; try reflexivity.
  destruct (one_of "AaPp" a && one_of "Mm" b'); [|reflexivity].
  rewrite run_end. cbn [andb]. destruct r'; finish_match.
Qed.

Lemma exec_twelve1 (t : str) :
  captures (exec Event1.re_twelve t) = parts_list (TimeSpec.twelve 0 true t).
Proof.
  unfold captures, parts_list, Event1.re_twelve. cbn [Cat fold_right].
  rewrite exec_anchored.
  rewrite run_star_then by (intros; now apply hour_not_space).
  rewrite run_hour. unfold TimeSpec.twelve.
  destruct (TimeSpec.split_hour (drop_while Js.is_space t)) as [[h r]|] eqn:S;
    [|reflexivity].
  rewrite (split_hour_value _ S). cbn [andb].
  rewrite run_minute. destruct r as [|m1 [|m2 r]];
    try (destruct (TimeSpec.value h <=? 12)%Z; reflexivity).
  destruct (TimeSpec.value h <=? 12)%Z; [|reflexivity]. cbn [andb].
  destruct (Js.is_digit m1 && Js.is_digit m2
            && (TimeSpec.value [m1; m2] <=? 59)%Z); [|reflexivity].
  rewrite run_meridiem.
  destruct (drop_while Js.is_space r) as [|a [|b' r']]; try reflexivity.
  destruct (one_of "AaPp" a && one_of "Mm" b'); [|reflexivity].
  rewrite run_padded_end. cbn [andb].
  destruct (is_nil (drop_while Js.is_space r')); finish_match.
Qed.

(** *** [normalizeTime] against the shapes of the specification *)

Lemma captures_parts (m : option (list str)) (parts : option (str * str * str)) :
  captures m = parts_list parts ->
  match m, parts with
  | Some l, Some (h, mm, ap) =>
      nth 1 l [] = h /\ nth 2 l [] = mm /\ nth 3 l [] = ap
  | None, None => True
  | _, _ => False
  end.
Proof.
  unfold captures, parts_list.
  destruct m as [[|x l]|], parts as [[[h mm] ap]|]; cbn;
    try discriminate; auto.
  intros H. injection H as H. subst l. auto.
Qed.

Lemma one_of_AaPp (a : ascii) :
  one_of "AaPp" a = true ->
  a = "A"%char \/ a = "a"%char \/ a = "P"%char \/ a = "p"%char.
Proof.
  unfold one_of. cbn [existsb lit list_ascii_of_string].
  rewrite !orb_true_iff. intros [H|[H|[H|[H|H]]]];
    try (apply is_char_eq in H; auto); discriminate.
Qed.

Lemma one_of_Mm (b : ascii) :
  one_of "Mm" b = true -> b = "M"%char \/ b = "m"%char.
Proof.
  unfold one_of. cbn [existsb lit list_ascii_of_string].
  rewrite !orb_true_iff. intros [H|[H|H]];
    try (apply is_char_eq in H; auto); discriminate.
Qed.

Lemma to24_convert (v : Z) (a b : ascii) :
  one_of "AaPp" a = true -> one_of "Mm" b = true ->
  to24 (Some v) (Js.toLowerCase [a; b])
  = Some (TimeSpec.convert12 v (TimeSpec.is_pm [a; b])).
Proof.
  intros A B. apply one_of_AaPp in A. apply one_of_Mm in B.
  unfold to24, TimeSpec.convert12.
  destruct A as [ -> | [ -> | [ -> | -> ]]], B as [ -> | -> ];
    cbn; destruct (Z.eqb_spec v 12); subst; cbn; reflexivity.
Qed.

Lemma parseInt_digit1 (d : ascii) :
  Js.is_digit d = true -> Js.parseInt [d] = Some (TimeSpec.value [d]).
Proof.
  intros D. unfold Js.parseInt. cbn [Js.trimStart].
  replace (Js.is_space d) with false by (symmetry; revert D; time_arith).
  replace (Js.is_char "-" d) with false by (symmetry; revert D; time_arith).
  replace (Js.is_char "+" d) with false by (symmetry; revert D; time_arith).
  cbn [Js.digit_prefix]. rewrite D. unfold TimeSpec.value, JsDate.number.
  cbn [fold_left]. f_equal. lia.
Qed.

Lemma parseInt_digit2 (d e : ascii) :
  Js.is_digit d = true -> Js.is_digit e = true ->
  Js.parseInt [d; e] = Some (TimeSpec.value [d; e]).
Proof.
  intros D E. unfold Js.parseInt. cbn [Js.trimStart].
  replace (Js.is_space d) with false by (symmetry; revert D; time_arith).
  replace (Js.is_char "-" d) with false by (symmetry; revert D; time_arith).
  replace (Js.is_char "+" d) with false by (symmetry; revert D; time_arith).
  cbn [Js.digit_prefix]. rewrite D, E. unfold TimeSpec.value, JsDate.number.
  cbn [fold_left]. f_equal. lia.
Qed.

Lemma split_hour_parseInt (t h r : str) :
  TimeSpec.split_hour t = Some (h, r) ->
  Js.parseInt h = Some (TimeSpec.value h).
Proof.
  unfold TimeSpec.split_hour.
  destruct t as [|d1 [|c [|c' r']]]; try discriminate.
  - destruct (Js.is_digit d1 && Js.is_char ":" c) eqn:C; [|discriminate].
    intros [= <- <-]. apply andb_prop in C as [D _].
    now apply parseInt_digit1.
  - destruct (Js.is_digit d1 && Js.is_char ":" c) eqn:C.
    + intros [= <- <-]. apply andb_prop in C as [D _].
      now apply parseInt_digit1.
    + destruct (Js.is_digit d1 && Js.is_digit c && Js.is_char ":" c') eqn:D;
        [|discriminate].
      intros [= <- <-]. apply andb_prop in D as [D _].
      apply andb_prop in D as [D1 D2]. now apply parseInt_digit2.
Qed.

Lemma twelve_in24 (m : Z) (padded : bool) (t h mm ap : str) :
  TimeSpec.twelve m padded t = Some (h, mm, ap) ->
  hours_text (to24 (Js.parseInt h) (Js.toLowerCase ap))
  ++ lit ":" ++ mm
  = TimeSpec.in24 (h, mm, ap).
Proof.
  unfold TimeSpec.twelve.
  destruct (TimeSpec.split_hour _) as [[h' r]|] eqn:S; [|discriminate].
  destruct r as [|m1 [|m2 r]]; try discriminate.
  destruct (_ && _ && _ && _ && _); [|discriminate].
  destruct (drop_while Js.is_space r) as [|a [|b r']]; try discriminate.
  destruct (one_of "AaPp" a && one_of "Mm" b) eqn:AB; [|discriminate].
  cbn [andb]. destruct (is_nil _); [|discriminate].
  intros [= <- <- <-]. apply andb_prop in AB as [A B].
  rewrite (split_hour_parseInt _ S), (to24_convert _ _ _ A B).
  reflexivity.
Qed.

Lemma twelve_from_1 (padded : bool) (t : str) (parts : str * str * str) :
  TimeSpec.twelve 1 padded t = Some parts ->
  TimeSpec.twelve 0 padded t = Some parts.
Proof.
  unfold TimeSpec.twelve.
  destruct (TimeSpec.split_hour _) as [[h r]|] eqn:S; [|discriminate].
  destruct r as [|m1 [|m2 r]]; try discriminate.
  rewrite (split_hour_value _ S).
  destruct (1 <=? TimeSpec.value h)%Z; [|discriminate]. intros H. exact H.
Qed.

(** What [normalizeTime] computes, first revision. *)
Lemma normalizeTime1_spec (time : str) :
  Event1.normalizeTime time
  = if TimeSpec.hhmm (Js.trim time) then inl (Js.trim time)
    else match TimeSpec.twelve 0 true (Js.trim time) with
         | Some parts => inl (TimeSpec.in24 parts)
         | None => inr Event1.InvalidTime
         end.
Proof.
  unfold Event1.normalizeTime. rewrite <- test_hhmm. unfold test.
  destruct (exec re_hhmm (Js.trim time)); [reflexivity|].
  pose proof (captures_parts _ _ (exec_twelve1 (Js.trim time))) as H.
  destruct (exec Event1.re_twelve (Js.trim time)) as [l|],
    (TimeSpec.twelve 0 true (Js.trim time)) as [[[h mm] ap]|] eqn:T;
    try contradiction; [|reflexivity].
  destruct H as (-> & -> & ->). unfold ret. f_equal.
  exact (twelve_in24 _ _ _ T).
Qed.

(** What [normalizeTime] computes, second revision. *)
Lemma normalizeTime2_spec (time : str) :
  Event2.normalizeTime time
  = if TimeSpec.hhmm (Js.trim time) then inl (Js.trim time)
    else match TimeSpec.twelve 0 false (Js.trim time) with
         | Some parts => inl (TimeSpec.in24 parts)
         | None => inr Event2.InvalidTime
         end.
Proof.
  unfold Event2.normalizeTime. rewrite test_hhmm.
  destruct (TimeSpec.hhmm (Js.trim time)); [reflexivity|].
  pose proof (captures_parts _ _ (exec_twelve2 (Js.trim time))) as H.
  destruct (exec Event2.re_twelve (Js.trim time)) as [l|],
    (TimeSpec.twelve 0 false (Js.trim time)) as [[[h mm] ap]|] eqn:T;
    try contradiction; [|reflexivity].
  destruct H as (-> & -> & ->). unfold ret. f_equal.
  exact (twelve_in24 _ _ _ T).
Qed.

Lemma twelve_hour_zero (padded : bool) (t : str) (parts : str * str * str) :
  TimeSpec.twelve 1 padded t = None ->
  TimeSpec.twelve 0 padded t = Some parts ->
  TimeSpec.value (fst (fst parts)) = 0%Z.
Proof.
  unfold TimeSpec.twelve.
  destruct (TimeSpec.split_hour _) as [[h r]|] eqn:S; [|discriminate].
  destruct r as [|m1 [|m2 r]]; try discriminate.
  pose proof (split_hour_value _ S) as V. rewrite V.
  destruct (1 <=? TimeSpec.value h)%Z eqn:W.
  - intros ->. discriminate.
  - intros _. cbn [andb].
    destruct (_ && _ && _ && _); [|discriminate].
    destruct (drop_while Js.is_space r) as [|a [|b r']]; try discriminate.
    destruct (_ && _ && _); [|discriminate].
    intros [= <-]. cbn [fst]. apply Z.leb_le in V. apply Z.leb_gt in W. lia.
Qed.

(** The examples of the specification. *)
Lemma normalizeTime_examples :
  Event1.normalizeTime (lit "3:30 pm") = inl (lit "15:30") /\
  Event2.normalizeTime (lit "3:30 pm") = inl (lit "15:30") /\
  Event1.normalizeTime (lit "12:00 am") = inl (lit "00:00") /\
  Event2.normalizeTime (lit "12:00 am") = inl (lit "00:00") /\
  Event1.normalizeTime (lit "00:15") = inl (lit "00:15") /\
  Event2.normalizeTime (lit "00:15") = inl (lit "00:15") /\
  Event1.normalizeTime (lit "13:61") = inr Event1.InvalidTime /\
  Event2.normalizeTime (lit "13:61") = inr Event2.InvalidTime.
Proof. repeat split; vm_compute; reflexivity. Qed.

(** The part of C1 that holds: a 24-hour time is returned as trimmed, a
    12-hour time with an hour from 1 to 12 is converted, and an input that
    is neither of these nor a 12-hour time written with the hour 0 fails
    with InvalidTime. *)
Lemma normalizeTime_claimed_shapes (time : str) :
  (TimeSpec.hhmm (Js.trim time) = true ->
   Event1.normalizeTime time = inl (Js.trim time) /\
   Event2.normalizeTime time = inl (Js.trim time)) /\
  (forall padded parts,
     TimeSpec.hhmm (Js.trim time) = false ->
     TimeSpec.twelve 1 padded (Js.trim time) = Some parts ->
     (if padded then Event1.normalizeTime time else Event2.normalizeTime time)
     = inl (TimeSpec.in24 parts)) /\
  (TimeSpec.hhmm (Js.trim time) = false ->
   (TimeSpec.twelve 0 true (Js.trim time) = None ->
    Event1.normalizeTime time = inr Event1.InvalidTime) /\
   (TimeSpec.twelve 0 false (Js.trim time) = None ->
    Event2.normalizeTime time = inr Event2.InvalidTime)).
Proof.
  rewrite normalizeTime1_spec, normalizeTime2_spec. repeat split.
  - now rewrite H.
  - now rewrite H.
  - intros padded parts H T. apply twelve_from_1 in T.
    destruct padded; rewrite ?normalizeTime1_spec, ?normalizeTime2_spec, H, T;
      reflexivity.
  - intros T. now rewrite H, T.
  - intros T. now rewrite H, T.
Qed.

(** C1 at the input ["0:30 pm"]: it is neither a 24-hour time nor a 12-hour
    time with an hour from 1 to 12, and [normalizeTime] of either revision
    returns ["12:30"] for it instead of failing with InvalidTime; likewise
    ["00:30 am"] gives ["00:30"]. *)
Theorem normalizeTime_hour_zero :
  TimeSpec.hhmm (Js.trim (lit "0:30 pm")) = false /\
  TimeSpec.twelve 1 true (Js.trim (lit "0:30 pm")) = None /\
  TimeSpec.twelve 1 false (Js.trim (lit "0:30 pm")) = None /\
  Event1.normalizeTime (lit "0:30 pm") = inl (lit "12:30") /\
  Event2.normalizeTime (lit "0:30 pm") = inl (lit "12:30") /\
  Event1.normalizeTime (lit "00:30 am") = inl (lit "00:30") /\
  Event2.normalizeTime (lit "00:30 am") = inl (lit "00:30").
Proof. repeat split; vm_compute; reflexivity. Qed.

(** The hour 0 is the only way past the shapes of the specification. *)
Lemma normalizeTime_only_hour_zero (time : str) (r : str) :
  TimeSpec.hhmm (Js.trim time) = false ->
  (TimeSpec.twelve 1 true (Js.trim time) = None ->
   Event1.normalizeTime time = inl r ->
   exists parts, TimeSpec.twelve 0 true (Js.trim time) = Some parts /\
                 TimeSpec.value (fst (fst parts)) = 0%Z /\
                 r = TimeSpec.in24 parts) /\
  (TimeSpec.twelve 1 false (Js.trim time) = None ->
   Event2.normalizeTime time = inl r ->
   exists parts, TimeSpec.twelve 0 false (Js.trim time) = Some parts /\
                 TimeSpec.value (fst (fst parts)) = 0%Z /\
                 r = TimeSpec.in24 parts).
Proof.
  intros H. rewrite normalizeTime1_spec, normalizeTime2_spec, H. split.
  - intros N. destruct (TimeSpec.twelve 0 true (Js.trim time)) as [parts|] eqn:T;
      [|discriminate].
    intros [= <-]. exists parts. repeat split.
    exact (twelve_hour_zero _ _ N T).
  - intros N. destruct (TimeSpec.twelve 0 false (Js.trim time)) as [parts|] eqn:T;
      [|discriminate].
    intros [= <-]. exists parts. repeat split.
    exact (twelve_hour_zero _ _ N T).
Qed.

(** ** The date normalizer *)

Module DateFacts.

Import JsDate DateTables.
Local Open Scope Z_scope.

Lemma DaysInYear_cases (y : Z) : DaysInYear y = 365 \/ DaysInYear y = 366.
Proof.
  unfold DaysInYear.
  destruct (y mod 4 =? 0), (y mod 100 =? 0), (y mod 400 =? 0); cbn; auto.
Qed.

Lemma DayFromYear_next (y : Z) :
  DayFromYear (y + 1) = DayFromYear y + DaysInYear y.
Proof.
  unfold DayFromYear, DaysInYear.
  destruct (Z.eqb_spec (y mod 4) 0), (Z.eqb_spec (y mod 100) 0),
    (Z.eqb_spec (y mod 400) 0); cbn [negb];
    Z.div_mod_to_equations; lia.
Qed.

Lemma year_estimate (y d : Z) :
  DayFromYear y <= d < DayFromYear (y + 1) ->
  y - 1 <= 1970 + (400 * d) / 146097 <= y + 1.
Proof.
  rewrite DayFromYear_next. pose proof (DaysInYear_cases y) as C.
  unfold DayFromYear. Z.div_mod_to_equations. lia.
Qed.

Lemma Day_MakeDate (d : Z) : Day (MakeDate d 0) = d.
Proof.
  unfold Day, MakeDate, msPerDay. rewrite Z.add_0_r. now apply Z.div_mul.
Qed.

(** [YearFromTime] is the year number of ECMA-262: the largest [y] with
    [TimeFromYear y <= t]. *)
Lemma YearFromTime_spec (t : Z) :
  TimeFromYear (YearFromTime t) <= t < TimeFromYear (YearFromTime t + 1).
Proof.
  unfold YearFromTime, TimeFromYear.
  assert (D : msPerDay * Day t <= t < msPerDay * (Day t + 1)).
  { unfold Day, msPerDay. Z.div_mod_to_equations. lia. }
  set (d := Day t) in *. set (e := 1970 + 400 * d / 146097).
  assert (E : DayFromYear (e - 1) <= d < DayFromYear (e + 2)).
  { unfold e, DayFromYear. Z.div_mod_to_equations. lia. }
  pose proof (DayFromYear_next (e - 1)) as N0.
  pose proof (DayFromYear_next e) as N1.
  pose proof (DayFromYear_next (e + 1)) as N2.
  replace (e - 1 + 1) with e in N0 by lia.
  replace (e + 1 + 1) with (e + 2) in N2 by lia.
  unfold msPerDay in *.
  destruct (Z.leb_spec (DayFromYear (e + 1)) d).
  - replace (e + 1 + 1) with (e + 2) by lia. lia.
  - destruct (Z.leb_spec (DayFromYear e) d).
    + lia.
    + replace (e - 1 + 1) with e by lia. lia.
Qed.

Lemma YearFromTime_day (y d : Z) :
  DayFromYear y <= d < DayFromYear (y + 1) ->
  YearFromTime (MakeDate d 0) = y.
Proof.
  intros H. pose proof (year_estimate y H) as E.
  unfold YearFromTime. rewrite Day_MakeDate.
  set (e := 1970 + 400 * d / 146097) in *.
  pose proof (DayFromYear_next (y - 1)) as N0.
  pose proof (DayFromYear_next (y + 1)) as N2.
  pose proof (DaysInYear_cases (y - 1)). pose proof (DaysInYear_cases (y + 1)).
  replace (y - 1 + 1) with y in N0 by lia.
  assert (C : e = y - 1 \/ e = y \/ e = y + 1) by lia.
  destruct C as [-> | [-> | ->]].
  - replace (y - 1 + 1) with y by lia.
    destruct (Z.leb_spec (DayFromYear y) d); lia.
  - destruct (Z.leb_spec (DayFromYear (y + 1)) d); [lia|].
    destruct (Z.leb_spec (DayFromYear y) d); lia.
  - destruct (Z.leb_spec (DayFromYear (y + 1 + 1)) d); [lia|].
    destruct (Z.leb_spec (DayFromYear (y + 1)) d); lia.
Qed.

Ltac month_cases m :=
  let C := fresh "C" in
  assert (C : m = 1 \/ m = 2 \/ m = 3 \/ m = 4 \/ m = 5 \/ m = 6 \/ m = 7
              \/ m = 8 \/ m = 9 \/ m = 10 \/ m = 11 \/ m = 12) by lia;
  repeat (destruct C as [C | C]); subst m;
  repeat match goal with
  | |- context [Z.pos ?a - 1] =>
      let v := eval compute in (Z.pos a - 1) in
      change (Z.pos a - 1) with v in *
  end;
  cbv beta iota delta [month_start] in *.

Lemma leap_cases (y : Z) :
  (leap y = 0 /\ DaysInYear y = 365) \/ (leap y = 1 /\ DaysInYear y = 366).
Proof.
  unfold leap. destruct (DaysInYear_cases y) as [-> | ->]; cbn; auto.
Qed.

(** The UTC components of a calendar date read back from its time value. *)
Lemma components_of_date (y m d : Z) :
  1 <= m <= 12 -> 1 <= d <= DaysInMonth y m ->
  let t := MakeDate (MakeDay y (m - 1) d) 0 in
  getUTCFullYear t = y /\ getUTCMonth t + 1 = m /\ getUTCDate t = d.
Proof.
  intros Hm Hd t.
  assert (M : (m - 1) / 12 = 0 /\ (m - 1) mod 12 = m - 1).
  { split; [apply Z.div_small|apply Z.mod_small]; lia. }
  destruct M as (M1 & M2).
  assert (K : MakeDay y (m - 1) d
              = DayFromYear y + (month_start (leap y) (m - 1) + d - 1)).
  { unfold MakeDay. rewrite M1, M2, Z.add_0_r. fold (leap y). lia. }
  unfold DaysInMonth in Hd. fold (leap y) in Hd.
  pose proof (DayFromYear_next y) as N.
  assert (Y : YearFromTime t = y).
  { unfold t. rewrite K. apply YearFromTime_day. rewrite N.
    clear K M1 M2.
    destruct (leap_cases y) as [(L & E) | (L & E)]; rewrite L in *; rewrite E;
      month_cases m; lia. }
  assert (W : DayWithinYear t = month_start (leap y) (m - 1) + d - 1).
  { unfold DayWithinYear. rewrite Y. unfold t. rewrite Day_MakeDate, K. lia. }
  assert (L : InLeapYear t = leap y).
  { unfold InLeapYear, leap. now rewrite Y. }
  unfold getUTCFullYear, getUTCMonth, getUTCDate.
  split; [exact Y|].
  unfold DateFromTime, MonthFromTime. rewrite W, L.
  clear K M1 M2 W L Y N. clearbody t.
  destruct (leap_cases y) as [(E & _) | (E & _)]; rewrite E in *;
    month_cases m;
    repeat match goal with
    | |- context [?a <? ?b] => destruct (Z.ltb_spec a b); try lia
    end; cbv beta iota; lia.
Qed.

End DateFacts.

Import JsDate DateTables.
Local Open Scope Z_scope.

Lemma upto_In (n v : Z) : 0 <= v < n -> In v (upto n).
Proof.
  intros H. unfold upto. apply in_map_iff. exists (Z.to_nat v).
  split; [lia|]. apply in_seq. lia.
Qed.

Lemma four_digits_table : forallb (reads_back 4) (upto 10000) = true.
Proof. vm_compute. reflexivity. Qed.

Lemma two_digits_table : forallb (reads_back 2) (upto 100) = true.
Proof. vm_compute. reflexivity. Qed.

Lemma four_digits (y : Z) :
  0 <= y <= 9999 ->
  exists a b c d, TimeSpec.pad 4 y = [a; b; c; d] /\
                  forallb Js.is_digit [a; b; c; d] = true /\
                  number [a; b; c; d] = y.
Proof.
  intros H. pose proof four_digits_table as T. rewrite forallb_forall in T.
  specialize (T y (@upto_In 10000 y ltac:(lia))). unfold reads_back in T.
  destruct (TimeSpec.pad 4 y) as [|a [|b [|c [|d [|e l]]]]]; try discriminate.
  apply andb_prop in T as (T & N). apply andb_prop in T as (_ & F).
  exists a, b, c, d. repeat split; [exact F|]. now apply Z.eqb_eq.
Qed.

Lemma two_digits (v : Z) :
  0 <= v <= 99 ->
  exists a b, TimeSpec.pad 2 v = [a; b] /\
              forallb Js.is_digit [a; b] = true /\ number [a; b] = v.
Proof.
  intros H. pose proof two_digits_table as T. rewrite forallb_forall in T.
  specialize (T v (@upto_In 100 v ltac:(lia))). unfold reads_back in T.
  destruct (TimeSpec.pad 2 v) as [|a [|b [|c l]]]; try discriminate.
  apply andb_prop in T as (T & N). apply andb_prop in T as (_ & F).
  exists a, b. repeat split; [exact F|]. now apply Z.eqb_eq.
Qed.

Lemma DaysInMonth_max (y m : Z) : DaysInMonth y m <= 31.
Proof.
  unfold DaysInMonth. destruct (DaysInYear y =? 366);
    destruct m as [|[[[|[]|]|[[]|[]|]|]|[[|[]|]|[[]|[]|]|]|]|]; cbn; lia.
Qed.

Lemma iso_canonical (y m d : Z) :
  TimeSpec.calendar_date y m d ->
  iso_date_only (TimeSpec.canonical_date y m d) = Some (y, m, d).
Proof.
  intros (Hy & Hm & Hd). pose proof (DaysInMonth_max y m).
  destruct (four_digits Hy) as (y1 & y2 & y3 & y4 & Ey & Fy & Ny).
  destruct (@two_digits m ltac:(lia)) as (m1 & m2 & Em & Fm & Nm).
  destruct (@two_digits d ltac:(lia)) as (d1 & d2 & Ed & Fd & Nd).
  unfold TimeSpec.canonical_date, ymd. rewrite Ey, Em, Ed.
  cbn [app lit list_ascii_of_string iso_date_only].
  cbn [forallb] in *.
  repeat match goal with
  | H : _ && _ = true |- _ => apply andb_prop in H as [? H]
  end.
  repeat match goal with H : Js.is_digit _ = true |- _ => rewrite H end.
  cbn [andb]. rewrite Ny, Nm, Nd. reflexivity.
Qed.

Section NormalizeDate.

Variable other_formats : str -> option Z.

Lemma parse_canonical (y m d : Z) :
  TimeSpec.calendar_date y m d ->
  parse other_formats (TimeSpec.canonical_date y m d)
  = Some (MakeDate (MakeDay y (m - 1) d) 0).
Proof.
  intros C. unfold parse. rewrite (iso_canonical C).
  destruct C as (_ & Hm & Hd).
  replace (1 <=? m) with true by (symmetry; apply Z.leb_le; lia).
  replace (m <=? 12) with true by (symmetry; apply Z.leb_le; lia).
  replace (1 <=? d) with true by (symmetry; apply Z.leb_le; lia).
  replace (d <=? DaysInMonth y m) with true by (symmetry; apply Z.leb_le; lia).
  reflexivity.
Qed.

(** [normalizeDate] on a canonical date: the month and the day come back
    with their two digits, the year with the digits of the number. *)
Lemma normalizeDate_canonical (y m d : Z) :
  TimeSpec.calendar_date y m d ->
  Event1.normalizeDate other_formats (TimeSpec.canonical_date y m d)
  = inl (ymd (Js.String_ y) (TimeSpec.pad 2 m) (TimeSpec.pad 2 d)) /\
  Event2.normalizeDate other_formats (TimeSpec.canonical_date y m d)
  = inl (ymd (Js.String_ y) (TimeSpec.pad 2 m) (TimeSpec.pad 2 d)).
Proof.
  intros C. unfold Event1.normalizeDate, Event2.normalizeDate.
  rewrite (parse_canonical C). destruct C as (_ & Hm & Hd).
  destruct (DateFacts.components_of_date y Hm Hd) as (Y & M & D).
  cbv zeta in Y, M, D. rewrite Y, M, D. split; reflexivity.
Qed.

End NormalizeDate.

Lemma years_from_1000_table :
  forallb (fun y => year_written_in_full (1000 + y)) (upto 9000) = true.
Proof. vm_compute. reflexivity. Qed.

Lemma years_below_1000_table : forallb year_shortened (upto 1000) = true.
Proof. vm_compute. reflexivity. Qed.

Lemma year_in_full (y : Z) :
  1000 <= y <= 9999 -> Js.String_ y = TimeSpec.pad 4 y.
Proof.
  intros H. pose proof years_from_1000_table as T.
  rewrite forallb_forall in T.
  specialize (T (y - 1000) (@upto_In 9000 (y - 1000) ltac:(lia))).
  replace (1000 + (y - 1000)) with y in T by lia.
  symmetry. now apply str_eqb_eq.
Qed.

Lemma year_short (y : Z) :
  0 <= y < 1000 -> (length (Js.String_ y) < 4)%nat.
Proof.
  intros H. pose proof years_below_1000_table as T.
  rewrite forallb_forall in T.
  specialize (T y (@upto_In 1000 y ltac:(lia))). now apply Nat.ltb_lt.
Qed.

(** The part of C7 that holds: from the year 1000 on, a canonical date is
    returned unchanged. *)
Lemma normalizeDate_from_1000 (other_formats : str -> option Z) (y m d : Z) :
  TimeSpec.calendar_date y m d -> 1000 <= y ->
  Event1.normalizeDate other_formats (TimeSpec.canonical_date y m d)
  = inl (TimeSpec.canonical_date y m d) /\
  Event2.normalizeDate other_formats (TimeSpec.canonical_date y m d)
  = inl (TimeSpec.canonical_date y m d).
Proof.
  intros C Y. destruct (normalizeDate_canonical other_formats C) as (-> & ->).
  destruct C as (Hy & _). rewrite year_in_full by lia. split; reflexivity.
Qed.

(** Below the year 1000 the zeros of the year are lost: the result is
    shorter than the canonical date it was given. *)
Lemma normalizeDate_below_1000 (other_formats : str -> option Z) (y m d : Z) :
  TimeSpec.calendar_date y m d -> y < 1000 ->
  exists r,
    Event1.normalizeDate other_formats (TimeSpec.canonical_date y m d) = inl r /\
    Event2.normalizeDate other_formats (TimeSpec.canonical_date y m d) = inl r /\
    (length r < length (TimeSpec.canonical_date y m d))%nat.
Proof.
  intros C Y. destruct (normalizeDate_canonical other_formats C) as (-> & ->).
  eexists. split; [reflexivity|]. split; [reflexivity|].
  destruct C as (Hy & _).
  destruct (four_digits Hy) as (a & b & c & e & E & _).
  pose proof (@year_short y ltac:(lia)) as S.
  unfold TimeSpec.canonical_date, ymd. rewrite E, !length_app. cbn [length].
  lia.
Qed.

(** C7 at the date ["0999-01-01"], the canonical form of 1 January 999:
    [normalizeDate] of either revision returns ["999-01-01"], a different
    string that is not of the form YYYY-MM-DD. *)
Theorem normalizeDate_drops_year_zeros (other_formats : str -> option Z) :
  TimeSpec.calendar_date 999 1 1 /\
  TimeSpec.canonical_date 999 1 1 = lit "0999-01-01" /\
  Event1.normalizeDate other_formats (lit "0999-01-01")
  = inl (lit "999-01-01") /\
  Event2.normalizeDate other_formats (lit "0999-01-01")
  = inl (lit "999-01-01").
Proof.
  split; [|repeat split; vm_compute; reflexivity].
  unfold TimeSpec.calendar_date.
  repeat split; apply Z.leb_le; vm_compute; reflexivity.
Qed.

(** The other examples of the specification for dates. *)
Lemma normalizeDate_examples (other_formats : str -> option Z) :
  Event1.normalizeDate other_formats (lit "2024-02-29")
  = inl (lit "2024-02-29") /\
  Event2.normalizeDate other_formats (lit "2024-02-29")
  = inl (lit "2024-02-29") /\
  (other_formats (lit "not-a-date") = None ->
   Event1.normalizeDate other_formats (lit "not-a-date")
   = inr Event1.InvalidDate /\
   Event2.normalizeDate other_formats (lit "not-a-date")
   = inr Event2.InvalidDate).
Proof.
  assert (I : iso_date_only (lit "not-a-date") = None)
    by (vm_compute; reflexivity).
  split; [vm_compute; reflexivity|]. split; [vm_compute; reflexivity|].
  intros H. unfold Event1.normalizeDate, Event2.normalizeDate, parse.
  rewrite I, H. split; reflexivity.
Qed.


(** * Further properties *)

(** ** Times *)

Lemma twelve_parts (m : Z) (padded : bool) (t h mm ap : str) :
  TimeSpec.twelve m padded t = Some (h, mm, ap) ->
  (0 <= TimeSpec.value h <= 12)%Z /\
  exists m1 m2,
    mm = [m1; m2] /\ Js.is_digit m1 = true /\ Js.is_digit m2 = true /\
    (TimeSpec.value [m1; m2] <= 59)%Z.
Proof.
  unfold TimeSpec.twelve.
  destruct (TimeSpec.split_hour _) as [[h' r]|] eqn:S; [|discriminate].
  destruct r as [|m1 [|m2 r]]; try discriminate.
  pose proof (split_hour_value _ S) as V.
  destruct ((m <=? TimeSpec.value h')%Z && _ && _ && _ && _) eqn:C;
    [|discriminate].
  destruct (drop_while Js.is_space r) as [|a [|b r']]; try discriminate.
  destruct (one_of "AaPp" a && _ && _); [|discriminate].
  intros [= <- <- <-].
  repeat (apply andb_prop in C as [C ?]).
  split; [lia|]. exists m1, m2. repeat split; auto. lia.
Qed.

Lemma convert12_range (v : Z) (pm : bool) :
  (0 <= v <= 12)%Z -> (0 <= TimeSpec.convert12 v pm <= 23)%Z.
Proof.
  intros H. unfold TimeSpec.convert12.
  destruct (Z.eqb_spec v 12), pm; lia.
Qed.

Lemma in24_hhmm (m : Z) (padded : bool) (t : str) (parts : str * str * str) :
  TimeSpec.twelve m padded t = Some parts ->
  TimeSpec.hhmm (TimeSpec.in24 parts) = true.
Proof.
  destruct parts as [[h mm] ap]. intros T.
  destruct (twelve_parts _ _ _ T) as (Hh & m1 & m2 & -> & D1 & D2 & M).
  pose proof (convert12_range (TimeSpec.is_pm ap) Hh) as R.
  destruct (@two_digits (TimeSpec.convert12 (TimeSpec.value h)
                           (TimeSpec.is_pm ap)) ltac:(lia))
    as (a & b & E & F & N).
  unfold TimeSpec.in24. rewrite E.
  cbn [app lit list_ascii_of_string TimeSpec.hhmm].
  cbn [forallb] in F |- *. apply andb_prop in F as (Fa & F).
  apply andb_prop in F as (Fb & _).
  rewrite Fa, Fb, D1, D2. cbn [andb].
  unfold TimeSpec.value in *. rewrite N.
  replace (_ <=? 23)%Z with true by (symmetry; apply Z.leb_le; lia).
  replace (_ <=? 59)%Z with true by (symmetry; apply Z.leb_le; lia).
  reflexivity.
Qed.

Lemma normalizeTime1_hhmm (time r : str) :
  Event1.normalizeTime time = inl r -> TimeSpec.hhmm r = true.
Proof.
  rewrite normalizeTime1_spec.
  destruct (TimeSpec.hhmm (Js.trim time)) eqn:H; [now intros [= <-]|].
  destruct (TimeSpec.twelve 0 true (Js.trim time)) eqn:T; [|discriminate].
  intros [= <-]. exact (in24_hhmm _ _ _ T).
Qed.

Lemma normalizeTime2_hhmm (time r : str) :
  Event2.normalizeTime time = inl r -> TimeSpec.hhmm r = true.
Proof.
  rewrite normalizeTime2_spec.
  destruct (TimeSpec.hhmm (Js.trim time)) eqn:H; [now intros [= <-]|].
  destruct (TimeSpec.twelve 0 false (Js.trim time)) eqn:T; [|discriminate].
  intros [= <-]. exact (in24_hhmm _ _ _ T).
Qed.

(** X1: whatever the input, a time [normalizeTime] returns is a 24-hour
    time [HH:mm] with hours 00-23 and minutes 00-59.  Both revisions. *)
Theorem normalizeTime_returns_hhmm (time r : str) :
  (Event1.normalizeTime time = inl r -> TimeSpec.hhmm r = true) /\
  (Event2.normalizeTime time = inl r -> TimeSpec.hhmm r = true).
Proof.
  split; [apply normalizeTime1_hhmm|apply normalizeTime2_hhmm].
Qed.

Lemma normalizeTime_returns_hhmm_witness :
  TimeSpec.hhmm (lit "21:05") = true.
Proof.
  apply (proj1 (@normalizeTime_returns_hhmm (lit " 9:05 PM ") (lit "21:05"))).
  vm_compute. reflexivity.
Defined.

(** *** Trimming *)

Lemma trimStart_padding (w s : str) :
  forallb Js.is_space w = true -> Js.trimStart (w ++ s) = Js.trimStart s.
Proof.
  induction w as [|c w IH]; [reflexivity|]. simpl. intros F.
  apply andb_prop in F as [P F]. rewrite P. exact (IH F).
Qed.

Lemma trimEnd_padding (s w : str) :
  forallb Js.is_space w = true -> Js.trimEnd (s ++ w) = Js.trimEnd s.
Proof.
  intros F. unfold Js.trimEnd. rewrite rev_app_distr, trimStart_padding.
  - reflexivity.
  - rewrite forallb_forall in *. intros c H. apply F. now apply in_rev.
Qed.

Lemma trimStart_app (s w : str) :
  forallb Js.is_space w = true ->
  Js.trimEnd (Js.trimStart (s ++ w)) = Js.trimEnd (Js.trimStart s).
Proof.
  intros F. induction s as [|c s IH].
  - cbn [app]. rewrite <- (app_nil_r w) at 1.
    rewrite trimStart_padding by exact F. reflexivity.
  - cbn [app Js.trimStart]. destruct (Js.is_space c); [exact IH|].
    now rewrite app_comm_cons, trimEnd_padding.
Qed.

Lemma trim_padding (w1 s w2 : str) :
  forallb Js.is_space w1 = true -> forallb Js.is_space w2 = true ->
  Js.trim (w1 ++ s ++ w2) = Js.trim s.
Proof.
  intros F1 F2. unfold Js.trim. rewrite trimStart_padding by exact F1.
  now apply trimStart_app.
Qed.

Lemma trimEnd_prefix (s : str) :
  exists w, s = Js.trimEnd s ++ w /\ forallb Js.is_space w = true.
Proof.
  unfold Js.trimEnd. rewrite trimStart_drop.
  destruct (drop_while_split Js.is_space (rev s)) as (w & E & F).
  exists (rev w). split.
  - rewrite <- rev_app_distr, <- E. now rewrite rev_involutive.
  - rewrite forallb_forall in *. intros c H. apply F. now apply in_rev.
Qed.

Lemma trim_first (s : str) c (u : str) :
  Js.trim s = c :: u -> Js.is_space c = false.
Proof.
  unfold Js.trim. intros E.
  destruct (trimEnd_prefix (Js.trimStart s)) as (w & P & _).
  rewrite E, trimStart_drop in P. cbn [app] in P.
  exact (drop_while_head _ _ P).
Qed.

Lemma trim_last (s u v : str) :
  Js.trim s = u ++ v -> forallb Js.is_space v = true -> v = [].
Proof.
  unfold Js.trim, Js.trimEnd. intros E F.
  apply (f_equal (@rev ascii)) in E.
  rewrite rev_involutive, rev_app_distr, trimStart_drop in E.
  destruct (rev v) as [|c r] eqn:R.
  - apply (f_equal (@rev ascii)) in R. now rewrite rev_involutive in R.
  - cbn [app] in E. apply drop_while_head in E.
    rewrite forallb_forall in F. rewrite F in E; [discriminate|].
    apply in_rev. rewrite R. now left.
Qed.

Lemma trim_fixed (s : str) :
  (forall c u, s = c :: u -> Js.is_space c = false) ->
  (forall u c, s = u ++ [c] -> Js.is_space c = false) ->
  Js.trim s = s.
Proof.
  intros L T. unfold Js.trim. rewrite trimStart_drop.
  rewrite drop_while_id by exact L.
  unfold Js.trimEnd. rewrite trimStart_drop, drop_while_id.
  - apply rev_involutive.
  - intros c u E. apply (T (rev u)).
    apply (f_equal (@rev ascii)) in E. rewrite rev_involutive in E.
    exact E.
Qed.

Lemma trim_trim (s : str) : Js.trim (Js.trim s) = Js.trim s.
Proof.
  apply trim_fixed.
  - intros c u. apply trim_first.
  - intros u c E. destruct (Js.is_space c) eqn:P; [|reflexivity].
    apply trim_last in E; [discriminate|]. simpl. now rewrite P.
Qed.

Lemma hhmm_trimmed (r : str) : TimeSpec.hhmm r = true -> Js.trim r = r.
Proof.
  intros H.
  destruct r as [|h1 [|h2 [|c [|m1 [|m2 [|x r]]]]]]; try discriminate.
  cbn [TimeSpec.hhmm forallb] in H.
  repeat match goal with
         | A : _ && _ = true |- _ => apply andb_prop in A as [? ?]
         end.
  apply trim_fixed.
  - intros a u [= <- _].
    match goal with D : Js.is_digit h1 = true |- _ => revert D end.
    class_arith.
  - intros u a E.
    change [h1; h2; c; m1; m2] with ([h1; h2; c; m1] ++ [m2]) in E.
    apply app_inj_tail in E as [_ <-].
    match goal with D : Js.is_digit m2 = true |- _ => revert D end.
    class_arith.
Qed.

Lemma normalizeTime_hhmm_fixed (r : str) :
  TimeSpec.hhmm r = true ->
  Event1.normalizeTime r = inl r /\ Event2.normalizeTime r = inl r.
Proof.
  intros H. rewrite normalizeTime1_spec, normalizeTime2_spec.
  rewrite (hhmm_trimmed _ H), H. split; reflexivity.
Qed.

(** X2: [normalizeTime] is idempotent: a time it returns is returned
    unchanged when normalised again, in both revisions. *)
Theorem normalizeTime_idempotent (time r : str) :
  (Event1.normalizeTime time = inl r -> Event1.normalizeTime r = inl r) /\
  (Event2.normalizeTime time = inl r -> Event2.normalizeTime r = inl r).
Proof.
  split; intros E.
  - apply normalizeTime1_hhmm in E. now apply normalizeTime_hhmm_fixed.
  - apply normalizeTime2_hhmm in E. now apply normalizeTime_hhmm_fixed.
Qed.

Lemma normalizeTime_idempotent_witness :
  Event1.normalizeTime (lit "21:05") = inl (lit "21:05").
Proof.
  apply (proj1 (@normalizeTime_idempotent (lit " 9:05 PM ") (lit "21:05"))).
  vm_compute. reflexivity.
Defined.

(** X3: white space around a time is ignored: padding the argument of
    [normalizeTime] with white space on either side changes neither the
    outcome nor the result, in both revisions. *)
Theorem normalizeTime_ignores_padding (w1 time w2 : str) :
  forallb Js.is_space w1 = true -> forallb Js.is_space w2 = true ->
  Event1.normalizeTime (w1 ++ time ++ w2) = Event1.normalizeTime time /\
  Event2.normalizeTime (w1 ++ time ++ w2) = Event2.normalizeTime time.
Proof.
  intros F1 F2.
  rewrite !normalizeTime1_spec, !normalizeTime2_spec.
  now rewrite (@trim_padding w1 time w2 F1 F2).
Qed.

Lemma normalizeTime_ignores_padding_witness :
  Event1.normalizeTime (lit "  " ++ lit "9:05 PM" ++ lit " ")
  = Event1.normalizeTime (lit "9:05 PM").
Proof.
  apply (@normalizeTime_ignores_padding (lit "  ") (lit "9:05 PM") (lit " "));
    reflexivity.
Defined.

Lemma split_hour_suffix (t h r : str) :
  TimeSpec.split_hour t = Some (h, r) -> exists u, t = u ++ r.
Proof.
  unfold TimeSpec.split_hour.
  destruct t as [|d1 [|c [|c' r']]]; try discriminate.
  - destruct (Js.is_digit d1 && Js.is_char ":" c); [|discriminate].
    intros [= <- <-]. now exists [d1; c].
  - destruct (Js.is_digit d1 && Js.is_char ":" c).
    + intros [= <- <-]. now exists [d1; c].
    + destruct (_ && _ && _); [|discriminate].
      intros [= <- <-]. now exists [d1; c; c'].
Qed.

Lemma twelve_trimmed (m : Z) (t : str) :
  TimeSpec.twelve m true (Js.trim t) = TimeSpec.twelve m false (Js.trim t).
Proof.
  unfold TimeSpec.twelve.
  rewrite (drop_while_id Js.is_space (s := Js.trim t))
    by (intros c u; apply trim_first).
  destruct (TimeSpec.split_hour (Js.trim t)) as [[h r]|] eqn:S;
    [|reflexivity].
  destruct r as [|m1 [|m2 r]]; try reflexivity.
  destruct ((m <=? TimeSpec.value h)%Z && _ && _ && _ && _); [|reflexivity].
  destruct (drop_while Js.is_space r) as [|a [|b r']] eqn:D; try reflexivity.
  destruct (one_of "AaPp" a && one_of "Mm" b); [|reflexivity]. cbn [andb].
  replace (is_nil (drop_while Js.is_space r')) with (is_nil r');
    [reflexivity|].
  destruct (split_hour_suffix _ S) as (u & E).
  destruct (drop_while_split Js.is_space r) as (w & W & _). rewrite D in W.
  destruct (drop_while_split Js.is_space r') as (w' & W' & F').
  destruct (drop_while Js.is_space r') as [|c v].
  - rewrite app_nil_r in W'. subst w'.
    rewrite (@trim_last t (u ++ m1 :: m2 :: w ++ [a; b]) r'); auto.
    rewrite E, W. rewrite <- !app_assoc. cbn [app]. now rewrite <- app_assoc.
  - rewrite W'. now destruct w'.
Qed.

(** X4: the two revisions of [normalizeTime] accept the same inputs and
    return the same time for them; they differ only in the error raised. *)
Theorem normalizeTime_revisions_agree (time : str) :
  match Event1.normalizeTime time, Event2.normalizeTime time with
  | inl r1, inl r2 => r1 = r2
  | inr e1, inr e2 => e1 = Event1.InvalidTime /\ e2 = Event2.InvalidTime
  | _, _ => False
  end.
Proof.
  rewrite normalizeTime1_spec, normalizeTime2_spec, twelve_trimmed.
  destruct (TimeSpec.hhmm (Js.trim time)); [reflexivity|].
  destruct (TimeSpec.twelve 0 false (Js.trim time)); auto.
Qed.

(** ** Slugs *)

(** X5: the two revisions of [generateSlug] compute the same slug for every
    title, although one trims before and the other after lowering the
    case. *)
Theorem generateSlug_revisions_agree (title : str) :
  Event1.generateSlug title = Event2.generateSlug title.
Proof. now rewrite generateSlug1_slug, generateSlug2_slug. Qed.

Lemma filter_dashes (s : str) :
  forallb is_dash s = true -> filter lower_alnum s = [].
Proof.
  induction s as [|c s IH]; [reflexivity|]. simpl. intros F.
  apply andb_prop in F as [P F]. apply dash_non_alnum in P.
  unfold non_alnum in P. apply negb_true_iff in P. rewrite P. exact (IH F).
Qed.

Lemma filter_collapse (b : bool) (s : str) :
  filter lower_alnum (collapse non_alnum b s) = filter lower_alnum s.
Proof.
  revert b. induction s as [|c s IH]; intros b; [reflexivity|].
  cbn [collapse filter]. unfold non_alnum at 1.
  destruct (lower_alnum c) eqn:P; cbn [negb].
  - cbn [filter]. now rewrite P, IH.
  - destruct b; [apply IH|]. cbn [filter].
    change (lower_alnum "-") with false. cbn iota. apply IH.
Qed.

Lemma filter_drop_while (s : str) :
  filter lower_alnum (drop_while is_dash s) = filter lower_alnum s.
Proof.
  induction s as [|c s IH]; [reflexivity|]. cbn [drop_while filter].
  destruct (is_dash c) eqn:P; [|reflexivity].
  apply dash_non_alnum in P. unfold non_alnum in P.
  apply negb_true_iff in P. now rewrite P.
Qed.

Lemma filter_drop_end (s : str) :
  filter lower_alnum (drop_end is_dash s) = filter lower_alnum s.
Proof.
  induction s as [|c s IH]; [reflexivity|]. cbn [drop_end].
  destruct (forallb is_dash (c :: s)) eqn:F.
  - symmetry. now apply filter_dashes.
  - cbn [filter]. now rewrite IH.
Qed.

Lemma filter_slugify (title : str) :
  filter lower_alnum (slugify title)
  = filter lower_alnum (Js.toLowerCase title).
Proof.
  unfold slugify, strip_dashes, collapse_runs.
  now rewrite filter_drop_end, filter_drop_while, filter_collapse.
Qed.

(** X6: a slug keeps every letter and digit of the lower-cased title, in
    order, and adds none: removing the hyphens from the slug and the
    characters outside [a-z0-9] from the lower-cased title gives the same
    string. *)
Theorem generateSlug_keeps_alphanumerics (title : str) :
  filter lower_alnum (Event1.generateSlug title)
  = filter lower_alnum (Js.toLowerCase title) /\
  filter lower_alnum (Event2.generateSlug title)
  = filter lower_alnum (Js.toLowerCase title).
Proof.
  rewrite generateSlug1_slug, generateSlug2_slug.
  split; apply filter_slugify.
Qed.

Lemma filter_nil_iff (s : str) :
  filter lower_alnum s = [] <-> forallb non_alnum s = true.
Proof.
  induction s as [|c s IH]; [simpl; tauto|].
  cbn [filter forallb]. unfold non_alnum at 1.
  destruct (lower_alnum c); cbn [negb andb]; [split; discriminate|exact IH].
Qed.

Lemma slugify_nil_iff (title : str) :
  slugify title = [] <-> forallb non_alnum (Js.toLowerCase title) = true.
Proof.
  rewrite <- filter_nil_iff, <- filter_slugify. split; [now intros ->|].
  intros E. destruct (slug_well_formed title) as (F & L & _).
  destruct (slugify title) as [|c s]; [reflexivity|]. exfalso. apply L.
  exists s. f_equal. apply is_dash_eq.
  cbn [forallb] in F. apply andb_prop in F as [P _].
  apply slug_char_cases; [exact P|].
  apply filter_nil_iff in E. cbn [forallb] in E.
  now apply andb_prop in E as [E _].
Qed.

(** X7: the slug is empty exactly for the titles that have no letter of
    [a-z] or digit once lower-cased, such as a title of punctuation only;
    every other title has a non-empty slug. *)
Theorem generateSlug_empty_iff (title : str) :
  (Event1.generateSlug title = [] <->
   forallb non_alnum (Js.toLowerCase title) = true) /\
  (Event2.generateSlug title = [] <->
   forallb non_alnum (Js.toLowerCase title) = true).
Proof.
  rewrite generateSlug1_slug, generateSlug2_slug.
  split; apply slugify_nil_iff.
Qed.

Lemma collapse_length (p : ascii -> bool) b (s : str) :
  (length (collapse p b s) <= length s)%nat.
Proof.
  revert b. induction s as [|c s IH]; intros b; [reflexivity|].
  pose proof (IH true). pose proof (IH false).
  cbn [collapse]. destruct (p c), b; cbn [length]; lia.
Qed.

Lemma drop_end_length (p : ascii -> bool) (s : str) :
  (length (drop_end p s) <= length s)%nat.
Proof.
  induction s as [|c s IH]; [reflexivity|]. cbn [drop_end].
  destruct (forallb p (c :: s)); cbn [length]; lia.
Qed.

(** X8: a slug is never longer than the lower-cased title it is made
    from.  (Lower-casing itself may lengthen a title that has characters
    outside Latin-1, so the length of the title as given is no bound.) *)
Theorem generateSlug_length (title : str) :
  (length (Event1.generateSlug title)
   <= length (Js.toLowerCase title))%nat /\
  (length (Event2.generateSlug title)
   <= length (Js.toLowerCase title))%nat.
Proof.
  rewrite generateSlug1_slug, generateSlug2_slug.
  assert (H : (length (slugify title) <= length (Js.toLowerCase title))%nat);
    [|now split].
  unfold slugify, strip_dashes, collapse_runs.
  pose proof (drop_end_length is_dash
                (drop_while is_dash
                   (collapse non_alnum false (Js.toLowerCase title)))).
  pose proof (drop_while_length is_dash
                (collapse non_alnum false (Js.toLowerCase title))).
  pose proof (collapse_length non_alnum false (Js.toLowerCase title)).
  lia.
Qed.

Lemma collapse_run_app (p : ascii -> bool) (w s : str) :
  forallb p w = true -> collapse p true (w ++ s) = collapse p true s.
Proof.
  induction w as [|c w IH]; [reflexivity|]. simpl. intros F.
  apply andb_prop in F as [P F]. rewrite P. exact (IH F).
Qed.

Lemma collapse_separator (p : ascii -> bool) b (x w y : str) :
  p "-"%char = true -> w <> [] -> forallb p w = true ->
  collapse p b (x ++ w ++ y) = collapse p b (x ++ "-"%char :: y).
Proof.
  intros D N F. revert b. induction x as [|c x IH]; intros b.
  - destruct w as [|c w]; [congruence|]. simpl in F.
    apply andb_prop in F as [P F]. cbn [app collapse].
    rewrite P, D, (@collapse_run_app p w y F). reflexivity.
  - cbn [app collapse]. destruct (p c), b; now rewrite IH.
Qed.

(** X9: what separates two parts of a title does not matter to the slug:
    any two non-empty runs of characters outside [a-z0-9] (after
    lower-casing) between the same parts give the same slug, so titles that
    differ only in punctuation or spacing share one slug. *)
Theorem generateSlug_separators (a s s' b : str) :
  s <> [] -> s' <> [] ->
  forallb non_alnum (Js.toLowerCase s) = true ->
  forallb non_alnum (Js.toLowerCase s') = true ->
  Event1.generateSlug (a ++ s ++ b) = Event1.generateSlug (a ++ s' ++ b) /\
  Event2.generateSlug (a ++ s ++ b) = Event2.generateSlug (a ++ s' ++ b).
Proof.
  intros N N' F F'. rewrite !generateSlug1_slug, !generateSlug2_slug.
  assert (H : slugify (a ++ s ++ b) = slugify (a ++ s' ++ b)); [|now split].
  unfold slugify, collapse_runs, Js.toLowerCase. rewrite !map_app.
  rewrite !(@collapse_separator non_alnum false); auto.
  all: intros E; apply map_eq_nil in E; contradiction.
Qed.

Lemma generateSlug_separators_witness :
  Event1.generateSlug (lit "Hello" ++ lit ", " ++ lit "World")
  = Event1.generateSlug (lit "Hello" ++ lit " - " ++ lit "World").
Proof.
  apply (@generateSlug_separators (lit "Hello") (lit ", ") (lit " - ")
           (lit "World")); try discriminate; reflexivity.
Defined.

(** X10: characters outside [a-z0-9] (after lower-casing) at either end of
    a title never reach the slug: the title with and without them has the
    same slug. *)
Theorem generateSlug_ignores_edges (w1 title w2 : str) :
  forallb non_alnum (Js.toLowerCase w1) = true ->
  forallb non_alnum (Js.toLowerCase w2) = true ->
  Event1.generateSlug (w1 ++ title ++ w2) = Event1.generateSlug title /\
  Event2.generateSlug (w1 ++ title ++ w2) = Event2.generateSlug title.
Proof.
  intros F1 F2. rewrite !generateSlug1_slug, !generateSlug2_slug.
  assert (H : slugify (w1 ++ title ++ w2) = slugify title); [|now split].
  unfold slugify, Js.toLowerCase. rewrite !map_app.
  now apply strip_collapse_padding.
Qed.

Lemma generateSlug_ignores_edges_witness :
  Event2.generateSlug (lit "** " ++ lit "Rust Meetup" ++ lit " !!")
  = Event2.generateSlug (lit "Rust Meetup").
Proof.
  apply (@generateSlug_ignores_edges (lit "** ") (lit "Rust Meetup")
           (lit " !!")); reflexivity.
Defined.

(** ** Addresses *)

Lemma in_run_seq r1 r2 b (s : str) (h : hit) :
  In h (run (Seq r1 r2) b s) <->
  exists h1 h2, In h1 (run r1 b s) /\
                In h2 (run r2 (b && is_nil (taken h1)) (rest h1)) /\
                h = join h1 h2.
Proof.
  rewrite run_seq, in_flat_map. split.
  - intros (h1 & H1 & H). apply in_map_iff in H as (h2 & <- & H2). eauto.
  - intros (h1 & h2 & H1 & H2 & ->). exists h1. split; [exact H1|].
    apply in_map_iff. eauto.
Qed.

Lemma in_star_cls (p : ascii -> bool) fuel b (s : str) (h : hit) :
  (length s <= fuel)%nat ->
  In h (star (run (Cls p)) fuel b s) <->
  exists u, h = Hit u (rest h) [] /\ s = u ++ rest h /\ forallb p u = true.
Proof.
  revert b s h. induction fuel as [|k IH]; intros b s h L.
  - destruct s; [|simpl in L; lia]. cbn [star In]. split.
    + intros [<- | []]. exists []. auto.
    + intros (u & E & S & _). left. symmetry in S.
      apply app_eq_nil in S as [-> S]. rewrite E, S. reflexivity.
  - rewrite star_S, in_app_iff. destruct s as [|c s].
    + rewrite run_cls_nil. cbn [flat_map In]. split.
      * intros [[] | [<- | []]]. exists []. auto.
      * intros (u & E & S & _). right. left. symmetry in S.
        apply app_eq_nil in S as [-> S]. rewrite E, S. reflexivity.
    + rewrite run_cls_cons. destruct (p c) eqn:P.
      * cbn [flat_map taken rest is_nil]. rewrite app_nil_r.
        split.
        -- intros [H | [<- | []]].
           ++ apply in_map_iff in H as (h' & <- & H).
              apply IH in H as (u & E & S & F); [|simpl in L; lia].
              exists (c :: u). unfold join. cbn [taken rest groups app].
              rewrite E. cbn [taken rest groups forallb].
              rewrite P, F. now rewrite S at 1.
           ++ exists []. auto.
        -- intros (u & E & S & F). destruct u as [|a u].
           ++ right. left. cbn [app] in S. rewrite E, <- S. reflexivity.
           ++ left. injection S as <- S. cbn [forallb] in F.
              apply andb_prop in F as [_ F]. apply in_map_iff.
              exists (Hit u (rest h) []). split.
              ** rewrite E. reflexivity.
              ** apply IH; [simpl in L; lia|]. exists u. auto.
      * cbn [flat_map app In]. split.
        -- intros [[] | [<- | []]]. exists []. auto.
        -- intros (u & E & S & F). right. left. destruct u as [|a u].
           ++ cbn [app] in S. rewrite E, <- S. reflexivity.
           ++ injection S as <- _. cbn [forallb] in F. now rewrite P in F.
Qed.

Lemma in_run_plus (p : ascii -> bool) b (s : str) (h : hit) :
  In h (run (Plus (Cls p)) b s) <->
  exists u, h = Hit u (rest h) [] /\ s = u ++ rest h /\ u <> [] /\
            forallb p u = true.
Proof.
  unfold Plus. rewrite in_run_seq. split.
  - intros (h1 & h2 & H1 & H2 & ->). destruct s as [|c s]; [destruct H1|].
    rewrite run_cls_cons in H1. destruct (p c) eqn:P; [|destruct H1].
    destruct H1 as [<- | []]. cbn [taken rest] in H2.
    rewrite run_star in H2. apply in_star_cls in H2 as (u & E & S & F);
      [|reflexivity].
    exists (c :: u). unfold join. rewrite E. cbn [taken rest groups app forallb].
    rewrite P, F. repeat split; [now rewrite S at 1|discriminate].
  - intros (u & E & S & N & F). destruct u as [|c u]; [congruence|].
    cbn [forallb] in F. apply andb_prop in F as [P F].
    exists (Hit [c] (u ++ rest h) []), (Hit u (rest h) []).
    rewrite S. cbn [app]. rewrite run_cls_cons, P. split; [now left|]. split.
    + cbn [taken rest]. rewrite run_star. apply in_star_cls; [reflexivity|].
      exists u. auto.
    + rewrite E at 1. reflexivity.
Qed.

Lemma in_run_chr (a : ascii) b (s : str) (h : hit) :
  In h (run (Chr a) b s) <-> h = Hit [a] (rest h) [] /\ s = a :: rest h.
Proof.
  unfold Chr. destruct s as [|c s].
  - rewrite run_cls_nil. split; [intros []|intros [_ [=]]].
  - rewrite run_cls_cons. destruct (Js.is_char a c) eqn:P.
    + apply is_char_eq in P. subst c. split.
      * intros [<- | []]. auto.
      * intros [E [= ->]]. left. symmetry. exact E.
    + split; [intros []|]. intros [_ [= <- _]].
      unfold Js.is_char in P. now rewrite N.eqb_refl in P.
Qed.

Lemma test_anchored r (s : str) :
  test (Seq Bol r) s = true <-> exists h, In h (run r true s).
Proof.
  unfold test. rewrite exec_anchored. destruct (run r true s) as [|h l].
  - split; [discriminate|]. intros (h & []).
  - split; [|reflexivity]. intros _. exists h. now left.
Qed.

(** The strings the pattern of the Booking models accepts. *)
Lemma email_pattern (s : str) :
  test EMAIL_REGEX s = true <-> EmailSpec.address s.
Proof.
  unfold EMAIL_REGEX. cbn [Cat fold_right]. rewrite test_anchored.
  unfold NotCls. fold EmailSpec.address_char.
  split.
  - intros (h & H).
    apply in_run_seq in H as (h1 & k1 & H1 & K1 & _).
    apply in_run_plus in H1 as (l & _ & S1 & N1 & F1).
    apply in_run_seq in K1 as (h2 & k2 & H2 & K2 & _).
    apply in_run_chr in H2 as (_ & S2).
    apply in_run_seq in K2 as (h3 & k3 & H3 & K3 & _).
    apply in_run_plus in H3 as (d1 & _ & S3 & N3 & F3).
    apply in_run_seq in K3 as (h4 & k4 & H4 & K4 & _).
    apply in_run_chr in H4 as (_ & S4).
    apply in_run_seq in K4 as (h5 & k5 & H5 & K5 & _).
    apply in_run_plus in H5 as (d2 & _ & S5 & N5 & F5).
    apply in_run_seq in K5 as (h6 & k6 & H6 & _ & _).
    destruct (rest h5) as [|c r5] eqn:R5; [|destruct H6].
    rewrite app_nil_r in S5.
    exists l, d1, d2. rewrite S1, S2, S3, S4, S5. auto 10.
  - intros (l & d1 & d2 & -> & N1 & N3 & N5 & F1 & F3 & F5).
    eexists. apply in_run_seq.
    exists (Hit l ("@"%char :: d1 ++ "."%char :: d2) []). eexists.
    split; [apply in_run_plus; exists l; auto|].
    split; [|reflexivity]. cbn [taken rest]. apply in_run_seq.
    exists (Hit ["@"%char] (d1 ++ "."%char :: d2) []). eexists.
    split; [apply in_run_chr; auto|].
    split; [|reflexivity]. cbn [taken rest]. apply in_run_seq.
    exists (Hit d1 ("."%char :: d2) []). eexists.
    split; [apply in_run_plus; exists d1; auto|].
    split; [|reflexivity]. cbn [taken rest]. apply in_run_seq.
    exists (Hit ["."%char] d2 []). eexists.
    split; [apply in_run_chr; auto|].
    split; [|reflexivity]. cbn [taken rest]. apply in_run_seq.
    exists (Hit d2 [] []). eexists.
    split; [apply in_run_plus; exists d2; rewrite app_nil_r; auto|].
    split; [|reflexivity]. cbn [taken rest]. apply in_run_seq.
    exists (nothing []), (nothing []). repeat split; now left.
Qed.

(** X11: [EMAIL_REGEX] accepts exactly the strings [local@domain.rest]
    whose three parts are non-empty and free of white space and at signs;
    the same pattern validates the email in both revisions. *)
Theorem EMAIL_REGEX_accepts (s : str) :
  test EMAIL_REGEX s = true <-> EmailSpec.address s.
Proof. exact (email_pattern s). Qed.

Lemma Event_exists_true (db : EventStore) (id : ObjectId) :
  Event_exists db id = inl true -> outage db = None /\ In id (stored db).
Proof.
  unfold Event_exists. destruct (outage db); [discriminate|].
  unfold ret. intros [= H]. split; [reflexivity|now apply stored_In].
Qed.

(** X12: a Booking reaches the collection only as it was given, with an
    email of the form [local@domain.rest], and with an [eventId] the Event
    collection holds: on every save in the first revision, on the saves of
    a new booking or of a modified [eventId] in the second. *)
Theorem booking_saved (db : EventStore) (this r : IBooking) :
  (fst (Booking1.preSave db this) = inl r ->
   r = this /\ EmailSpec.address (email r) /\
   outage db = None /\ In (eventId r) (stored db)) /\
  (fst (Booking2.hooks db this) = inl r ->
   r = this /\ EmailSpec.address (email r) /\
   (isNew this || modified this "eventId" = true ->
    outage db = None /\ In (eventId r) (stored db))).
Proof.
  unfold Booking1.preSave, Booking2.hooks, Booking2.preSave.
  rewrite booking2_validate.
  destruct (test EMAIL_REGEX (email this)) eqn:T; cbn [negb];
    [apply email_pattern in T|split; discriminate].
  destruct (Event_exists db (eventId this)) as [[|]|] eqn:X.
  - apply Event_exists_true in X as (O & I).
    split; [intros [= <-]; auto|].
    destruct (isNew this || modified this "eventId"); intros [= <-]; auto.
  - split; [discriminate|].
    destruct (isNew this || modified this "eventId"); [discriminate|].
    intros [= <-]. repeat split; auto; try discriminate.
  - split; [discriminate|].
    destruct (isNew this || modified this "eventId"); [discriminate|].
    intros [= <-]. repeat split; auto; try discriminate.
Qed.

Lemma booking_saved_witness :
  EmailSpec.address (lit "ana@example.org").
Proof.
  refine (proj1 (proj2 (proj1
    (@booking_saved
       {| stored := [lit "64b7f0c2a1"]; outage := None |}
       {| eventId := lit "64b7f0c2a1"; email := lit "ana@example.org";
          isNew := true; modified := fun _ => true |}
       {| eventId := lit "64b7f0c2a1"; email := lit "ana@example.org";
          isNew := true; modified := fun _ => true |}) _))).
  vm_compute. reflexivity.
Defined.

(** *** The setters of the email *)

Lemma lower_char_facts (c : ascii) :
  EmailSpec.address_char (Js.lower_char c) = EmailSpec.address_char c /\
  (Js.lower_char c = "@"%char <-> c = "@"%char) /\
  (Js.lower_char c = "."%char <-> c = "."%char) /\
  Js.lower_char (Js.lower_char c) = Js.lower_char c.
Proof.
  destruct c as [[] [] [] [] [] [] [] []]; vm_compute;
    repeat split; intros; congruence.
Qed.

Lemma lower_lower (s : str) :
  Js.toLowerCase (Js.toLowerCase s) = Js.toLowerCase s.
Proof.
  unfold Js.toLowerCase. rewrite map_map. apply map_ext. intros c.
  apply lower_char_facts.
Qed.

Lemma lower_address_chars (s : str) :
  forallb EmailSpec.address_char (Js.toLowerCase s)
  = forallb EmailSpec.address_char s.
Proof.
  induction s as [|c s IH]; [reflexivity|]. cbn [Js.toLowerCase map forallb].
  fold (Js.toLowerCase s). rewrite IH. f_equal. apply lower_char_facts.
Qed.

Lemma lower_address (s : str) :
  EmailSpec.address (Js.toLowerCase s) <-> EmailSpec.address s.
Proof.
  unfold EmailSpec.address, Js.toLowerCase. split.
  - intros (l & d1 & d2 & E & Nl & N1 & N2 & Fl & F1 & F2).
    apply map_eq_app in E as (l0 & r0 & -> & <- & E).
    apply map_eq_cons in E as (a & r1 & -> & A & E).
    apply map_eq_app in E as (e1 & r2 & -> & <- & E).
    apply map_eq_cons in E as (b & e2 & -> & B & <-).
    apply (proj1 (proj1 (proj2 (lower_char_facts a)))) in A.
    apply (proj1 (proj1 (proj2 (proj2 (lower_char_facts b))))) in B.
    subst a b.
    fold (Js.toLowerCase l0) in *. fold (Js.toLowerCase e1) in *.
    fold (Js.toLowerCase e2) in *. rewrite lower_address_chars in *.
    exists l0, e1, e2.
    repeat split; auto; intros ->; auto.
  - intros (l & d1 & d2 & -> & Nl & N1 & N2 & Fl & F1 & F2).
    exists (Js.toLowerCase l), (Js.toLowerCase d1), (Js.toLowerCase d2).
    rewrite !lower_address_chars.
    repeat split; auto;
      try (unfold Js.toLowerCase; intros E; apply map_eq_nil in E; auto).
    rewrite map_app. cbn [map]. rewrite map_app. reflexivity.
Qed.

(** X13: the setters of the email path, [trim] and [lowercase], commute;
    what they leave is accepted by the pattern exactly when the trimmed
    value assigned is an address [local@domain.rest], whatever its case;
    and applying them again to what they leave changes nothing. *)
Theorem email_setters_spec (raw : str) :
  Js.toLowerCase (Js.trim raw) = Js.trim (Js.toLowerCase raw) /\
  (test EMAIL_REGEX (email_setters raw) = true <->
   EmailSpec.address (Js.trim raw)) /\
  email_setters (email_setters raw) = email_setters raw.
Proof.
  unfold email_setters. split; [symmetry; apply trim_lower|]. split.
  - split; intros H.
    + now apply lower_address, email_pattern.
    + now apply email_pattern, lower_address.
  - now rewrite (trim_lower (Js.trim raw)), lower_lower, trim_trim.
Qed.

(** ** Dates *)

Import DateFacts.

Lemma day_within_year (t : Z) :
  0 <= DayWithinYear t < DaysInYear (YearFromTime t).
Proof.
  pose proof (YearFromTime_spec t) as H.
  pose proof (DayFromYear_next (YearFromTime t)) as N.
  unfold DayWithinYear, TimeFromYear, Day, msPerDay in *.
  rewrite N in H. clear N.
  set (a := DayFromYear (YearFromTime t)) in *.
  set (n := DaysInYear (YearFromTime t)) in *.
  clearbody a n. Z.div_mod_to_equations. lia.
Qed.

Ltac month_chain :=
  repeat match goal with
  | |- context [?a <? ?b] => destruct (Z.ltb_spec a b); try lia
  end; cbv beta iota.

(** The UTC month and day of a time value are a month and a day of the
    calendar, and [MakeDay] of the three components is the day of the time
    value. *)
Lemma month_range (t : Z) : 0 <= MonthFromTime t <= 11.
Proof. unfold MonthFromTime. month_chain; lia. Qed.

(** The UTC month and day of a time value are a month and a day of the
    calendar, and [MakeDay] of the three components is the day of the time
    value. *)
Lemma date_of_components (t : Z) :
  let y := getUTCFullYear t in
  let m := getUTCMonth t + 1 in
  let d := getUTCDate t in
  1 <= m <= 12 /\ 1 <= d <= DaysInMonth y m /\ MakeDay y (m - 1) d = Day t.
Proof.
  cbv zeta. unfold getUTCFullYear, getUTCMonth, getUTCDate.
  pose proof (day_within_year t) as W. pose proof (month_range t) as R.
  split; [lia|].
  assert (L : InLeapYear t = leap (YearFromTime t)) by reflexivity.
  assert (D : Day t = DayFromYear (YearFromTime t) + DayWithinYear t)
    by (unfold DayWithinYear; lia).
  rewrite D. unfold MakeDay, DaysInMonth.
  replace (MonthFromTime t + 1 - 1) with (MonthFromTime t) by lia.
  rewrite Z.div_small, Z.mod_small, Z.add_0_r by lia.
  fold (leap (YearFromTime t)). clear R.
  unfold DateFromTime, MonthFromTime. rewrite L.
  set (y := YearFromTime t) in *. set (w := DayWithinYear t) in *.
  clearbody y w. clear D L t.
  destruct (leap_cases y) as [(E & Y) | (E & Y)]; rewrite E, Y in *;
    clear E Y; month_chain;
    cbn [Z.add Pos.add Pos.succ Pos.add_carry month_start]; lia.
Qed.

Lemma normalizeDate_of_parse (other_formats : str -> option Z)
      (date : str) (t : Z) :
  parse other_formats date = Some t ->
  1000 <= getUTCFullYear t <= 9999 ->
  let r := TimeSpec.canonical_date (getUTCFullYear t) (getUTCMonth t + 1)
                                   (getUTCDate t) in
  TimeSpec.calendar_date (getUTCFullYear t) (getUTCMonth t + 1)
                         (getUTCDate t) /\
  Event1.normalizeDate other_formats date = inl r /\
  Event2.normalizeDate other_formats date = inl r.
Proof.
  intros P Y r. destruct (date_of_components t) as (M & D & _).
  split; [unfold TimeSpec.calendar_date; lia|].
  unfold Event1.normalizeDate, Event2.normalizeDate. rewrite P.
  unfold r, TimeSpec.canonical_date. rewrite <- (year_in_full Y).
  split; reflexivity.
Qed.

(** X14: [normalizeDate] keeps the UTC day and drops the time of day: for
    an input that [Date.parse] reads as a time value whose UTC year is
    between 1000 and 9999, the result is the canonical [YYYY-MM-DD] of the
    UTC year, month and day of that value, and parsing the result gives
    midnight UTC of the same day.  Both revisions. *)
Theorem normalizeDate_keeps_utc_day (other_formats : str -> option Z)
        (date : str) (t : Z) :
  parse other_formats date = Some t ->
  1000 <= getUTCFullYear t <= 9999 ->
  let r := TimeSpec.canonical_date (getUTCFullYear t) (getUTCMonth t + 1)
                                   (getUTCDate t) in
  Event1.normalizeDate other_formats date = inl r /\
  Event2.normalizeDate other_formats date = inl r /\
  parse other_formats r = Some (msPerDay * Day t) /\
  msPerDay * Day t <= t < msPerDay * Day t + msPerDay.
Proof.
  intros P Y r.
  destruct (normalizeDate_of_parse _ _ P Y) as (C & N1 & N2).
  split; [exact N1|]. split; [exact N2|]. split.
  - unfold r. rewrite (parse_canonical other_formats C).
    destruct (date_of_components t) as (_ & _ & ->).
    unfold MakeDate. f_equal. lia.
  - unfold Day, msPerDay. Z.div_mod_to_equations. lia.
Qed.

Lemma normalizeDate_keeps_utc_day_witness :
  Event1.normalizeDate (fun _ => Some 1735734896000) (lit "Jan 1, 2025 12:34:56 UTC")
  = inl (lit "2025-01-01") /\
  parse (fun _ => Some 1735734896000) (lit "2025-01-01") = Some 1735689600000.
Proof.
  pose proof (@normalizeDate_keeps_utc_day
                (fun _ => Some 1735734896000)
                (lit "Jan 1, 2025 12:34:56 UTC") 1735734896000
                ltac:(vm_compute; reflexivity)
                ltac:(vm_compute; split; discriminate)) as H.
  cbv zeta in H. destruct H as (H1 & _ & H3 & _).
  split; [exact H1|exact H3].
Defined.

(** X15: [normalizeDate] is idempotent on what it returns: when the input
    parses to a time value whose UTC year is between 1000 and 9999, the
    date returned is returned unchanged when normalised again.  Both
    revisions. *)
Theorem normalizeDate_idempotent (other_formats : str -> option Z)
        (date r : str) (t : Z) :
  parse other_formats date = Some t ->
  1000 <= getUTCFullYear t <= 9999 ->
  (Event1.normalizeDate other_formats date = inl r ->
   Event1.normalizeDate other_formats r = inl r) /\
  (Event2.normalizeDate other_formats date = inl r ->
   Event2.normalizeDate other_formats r = inl r).
Proof.
  intros P Y.
  destruct (normalizeDate_of_parse _ _ P Y) as (C & N1 & N2).
  destruct (@normalizeDate_from_1000 other_formats _ _ _ C (proj1 Y))
    as (F1 & F2).
  rewrite N1, N2. split; intros [= <-]; assumption.
Qed.

Lemma normalizeDate_idempotent_witness :
  Event2.normalizeDate (fun _ => Some 1735734896000) (lit "2025-01-01")
  = inl (lit "2025-01-01").
Proof.
  apply (proj2 (@normalizeDate_idempotent
                  (fun _ => Some 1735734896000)
                  (lit "Jan 1, 2025 12:34:56 UTC") (lit "2025-01-01")
                  1735734896000
                  ltac:(vm_compute; reflexivity)
                  ltac:(vm_compute; split; discriminate))).
  vm_compute. reflexivity.
Defined.

(** ** What the Event hooks leave *)

Lemma flat_map_nil {A B} (f : A -> list B) (l : list A) (x : A) :
  flat_map f l = [] -> In x l -> f x = [].
Proof.
  induction l as [|a l IH]; [intros _ []|]. cbn [flat_map].
  intros H [<- | I]; apply app_eq_nil in H as [Ha Hl]; auto.
Qed.

Lemma flat_map_all_nil {A B} (f : A -> list B) (l : list A) :
  (forall x, In x l -> f x = []) -> flat_map f l = [].
Proof.
  induction l as [|a l IH]; [reflexivity|]. intros H. cbn [flat_map].
  rewrite (H a (or_introl eq_refl)). apply IH. intros x I. apply H.
  now right.
Qed.

Lemma path_errors_nil (path : string) (checks : list (option str)) :
  Schema.path_errors path checks = [] -> Schema.first_failure checks = None.
Proof.
  unfold Schema.path_errors.
  destruct (Schema.first_failure checks); [discriminate|reflexivity].
Qed.

Lemma validate2_passes (this : IEvent) (path : string)
      (checks : list (option str)) :
  Event2.validate this = [] -> In (path, checks) (Event2.validators this) ->
  Schema.first_failure checks = None.
Proof.
  intros V I. apply (path_errors_nil path).
  exact (flat_map_nil
           (fun p => Schema.path_errors (fst p) (snd p)) _ (path, checks) V I).
Qed.

Lemma required_passes (message : string) (v : str) (rest : list (option str)) :
  Schema.first_failure (Schema.required message v :: rest) = None ->
  v <> [] /\ Schema.first_failure rest = None.
Proof.
  unfold Schema.required. destruct v; cbn; [discriminate|].
  intros H. split; [discriminate|exact H].
Qed.

Lemma non_empty_passes (message : string) (v : list str) :
  Schema.first_failure
    [Schema.validate_with Event2.non_empty_array message v] = None ->
  v <> [].
Proof.
  unfold Schema.validate_with, Event2.non_empty_array.
  destruct v; cbn; [discriminate|]. intros _. discriminate.
Qed.

(** What the validators of the second revision let through. *)
Lemma validate2_nil (this : IEvent) :
  Event2.validate this = [] ->
  (forall f v, In (f, v) (required_strings this) -> v <> []) /\
  date this <> [] /\ time this <> [] /\
  In (mode this) (map lit Event2.mode_values) /\
  agenda this <> [] /\ tags this <> [].
Proof.
  intros V.
  assert (P : forall path checks,
             In (path, checks) (Event2.validators this) ->
             Schema.first_failure checks = None)
    by (intros; eapply validate2_passes; eauto).
  unfold Event2.validators in P.
  assert (M : mode this <> [] /\ In (mode this) (map lit Event2.mode_values)).
  { specialize (P "mode"%string _ ltac:(do 8 right; left; reflexivity)).
    apply required_passes in P as (N & P). split; [exact N|].
    apply mode_values_In. unfold Schema.enum in P.
    destruct (existsb _ _); [reflexivity|discriminate]. }
  repeat match goal with |- _ /\ _ => split end.
  - intros f v I. unfold required_strings in I.
    repeat (destruct I as [[= <- <-] | I]);
      [..|destruct I]; try exact (proj1 M);
      match goal with
      | |- ?x this <> [] =>
          match type of P with
          | context [(?path, [Schema.required ?m (x this)])] =>
              refine (proj1 (@required_passes _ _ _
                               (P path [Schema.required m (x this)] _)));
              cbn; tauto
          end
      end.
  - refine (proj1 (@required_passes _ _ _ (P "date"%string _ _))). cbn. tauto.
  - refine (proj1 (@required_passes _ _ _ (P "time"%string _ _))). cbn. tauto.
  - exact (proj2 M).
  - refine (@non_empty_passes _ _ (P "agenda"%string _ _)). cbn. tauto.
  - refine (@non_empty_passes _ _ (P "tags"%string _ _)). cbn. tauto.
Qed.

Section EventsSaved.

Variable other_formats : str -> option Z.

Lemma preSave1_inl (this r : IEvent) :
  Event1.preSave other_formats this = inl r ->
  first_empty this = None /\ agenda this <> [] /\ tags this <> [] /\
  normalise recompute1 Event1.generateSlug
    (Event1.normalizeDate other_formats) Event1.normalizeTime this = inl r.
Proof.
  rewrite preSave1_cases.
  destruct (first_empty this); [discriminate|].
  destruct (agenda this); [discriminate|].
  destruct (tags this); [discriminate|].
  cbn [is_nil]. intros H. repeat split; try discriminate. exact H.
Qed.

Lemma hooks2_inl (this r : IEvent) :
  Event2.hooks other_formats this = inl r ->
  Event2.validate this = [] /\
  normalise recompute2 Event2.generateSlug
    (Event2.normalizeDate other_formats) Event2.normalizeTime this = inl r.
Proof.
  unfold Event2.hooks, Schema.validated. rewrite preSave2_cases.
  destruct (Event2.validate this); [auto|discriminate].
Qed.

Lemma normalizeDate_nonempty (d r : str) :
  (Event1.normalizeDate other_formats d = inl r -> r <> []) /\
  (Event2.normalizeDate other_formats d = inl r -> r <> []).
Proof.
  unfold Event1.normalizeDate, Event2.normalizeDate.
  destruct (parse other_formats d); cbv zeta; unfold ret, throw, ymd;
    split; intros [= <-]; intros E;
    apply app_eq_nil in E as [_ E]; discriminate E.
Qed.

(** X16: what the hook of the first revision lets through to the
    collection: every required string is non-empty after trimming, the
    agenda and the tags are non-empty, and a time that was modified is a
    24-hour [HH:mm].  The slug field holds a string: the well-formed slug
    of the title when the hook computed it, the non-empty slug the document
    had otherwise.  That string is empty exactly when the hook computed it
    for a title without a letter [a-z] or a digit after lower-casing, so a
    document can go through with an empty slug. *)
Theorem event1_saved (this r : IEvent) :
  Event1.preSave other_formats this = inl r ->
  (forall f v, In (f, v) (required_strings r) -> Js.trim v <> []) /\
  agenda r <> [] /\ tags r <> [] /\
  (exists s,
     slug r = Some s /\
     (isModified this "title" || Js.falsy (slug this) = true ->
      s = Event1.generateSlug (title r) /\ well_formed s) /\
     (isModified this "title" || Js.falsy (slug this) = false ->
      slug this = Some s /\ s <> []) /\
     (s = [] <->
      isModified this "title" || Js.falsy (slug this) = true /\
      forallb non_alnum (Js.toLowerCase (title r)) = true)) /\
  (isModified this "time" = true -> TimeSpec.hhmm (time r) = true).
Proof.
  intros H. apply preSave1_inl in H as (F & A & T & H).
  apply normalise_inl in H as (S & _ & Tm & E).
  assert (R : required_strings r = required_strings this)
    by (rewrite E; reflexivity).
  assert (Ha : agenda r = agenda this) by (rewrite E; reflexivity).
  assert (Ht : tags r = tags this) by (rewrite E; reflexivity).
  assert (Ti : title r = title this) by (rewrite E; reflexivity).
  rewrite R, Ha, Ht, Ti.
  repeat match goal with |- _ /\ _ => split end; auto.
  - intros f v. now apply first_empty_None.
  - unfold recompute1 in S. rewrite S.
    destruct (isModified this "title" || Js.falsy (slug this)) eqn:C.
    + eexists. split; [reflexivity|].
      split; [intros _; split; [reflexivity|]|].
      * rewrite generateSlug1_slug. apply slug_well_formed.
      * split; [discriminate|]. rewrite generateSlug1_slug.
        rewrite slugify_nil_iff. tauto.
    + apply orb_false_elim in C as [_ C].
      destruct (slug this) as [[|c s]|]; try discriminate.
      exists (c :: s). split; [reflexivity|].
      split; [discriminate|]. split; [split; [reflexivity|discriminate]|].
      split; [discriminate|]. intros [X _]. discriminate X.
  - intros M. rewrite M in Tm. exact (@normalizeTime1_hhmm _ _ Tm).
Qed.

(** X17: what validation and the hook of the second revision let through:
    every required string, the date and the time are non-empty, the mode
    is online, offline or hybrid, the agenda and the tags are non-empty, a
    slug computed for a modified title is well formed, and a time that was
    modified is a 24-hour [HH:mm]. *)
Theorem event2_saved (this r : IEvent) :
  Event2.hooks other_formats this = inl r ->
  (forall f v, In (f, v) (required_strings r) -> v <> []) /\
  date r <> [] /\ time r <> [] /\
  In (mode r) (map lit Event2.mode_values) /\
  agenda r <> [] /\ tags r <> [] /\
  (isModified this "title" = true ->
   exists s, slug r = Some s /\ well_formed s) /\
  (isModified this "time" = true -> TimeSpec.hhmm (time r) = true).
Proof.
  intros H. apply hooks2_inl in H as (V & H).
  apply validate2_nil in V as (F & D & T & M & A & G).
  apply normalise_inl in H as (S & Dt & Tm & E).
  assert (R : required_strings r = required_strings this)
    by (rewrite E; reflexivity).
  assert (Hm : mode r = mode this) by (rewrite E; reflexivity).
  assert (Ha : agenda r = agenda this) by (rewrite E; reflexivity).
  assert (Ht : tags r = tags this) by (rewrite E; reflexivity).
  rewrite R, Hm, Ha, Ht.
  assert (Tm' : isModified this "time" = true -> TimeSpec.hhmm (time r) = true).
  { intros C. rewrite C in Tm. exact (@normalizeTime2_hhmm _ _ Tm). }
  repeat match goal with |- _ /\ _ => split end; auto.
  - destruct (isModified this "date").
    + exact (proj2 (normalizeDate_nonempty _ _) Dt).
    + now rewrite Dt.
  - destruct (isModified this "time") eqn:C.
    + specialize (Tm' eq_refl). intros N. now rewrite N in Tm'.
    + now rewrite Tm.
  - intros C. unfold recompute2 in S. rewrite C in S. rewrite S.
    eexists. split; [reflexivity|].
    rewrite generateSlug2_slug. apply slug_well_formed.
Qed.

End EventsSaved.

Lemma event1_saved_witness :
  TimeSpec.hhmm (lit "18:30") = true.
Proof.
  refine (proj2 (proj2 (proj2 (proj2
    (@event1_saved (fun _ => None) sample_modified
       (rewritten sample_modified (Some (lit "rocq-meetup-paris"))
                  (lit "2025-06-01") (lit "18:30")) _)))) _).
  - vm_compute. reflexivity.
  - reflexivity.
Defined.

Lemma event2_saved_witness :
  In (lit "hybrid") (map lit Event2.mode_values).
Proof.
  refine (proj1 (proj2 (proj2 (proj2
    (@event2_saved (fun _ => None) sample_modified
       (rewritten sample_modified (Some (lit "rocq-meetup-paris"))
                  (lit "2025-06-01") (lit "18:30")) _))))).
  vm_compute. reflexivity.
Defined.

Section SavedAgain.

Variable recompute : IEvent -> bool.
Variable generateSlug : str -> str.
Variables normalizeDate normalizeTime : str -> result str.

Lemma normalise_again (this r : IEvent) :
  normalise recompute generateSlug normalizeDate normalizeTime this = inl r ->
  (recompute r = true -> slug r = Some (generateSlug (title r))) ->
  (isModified this "date" = true -> normalizeDate (date r) = inl (date r)) ->
  (isModified this "time" = true -> normalizeTime (time r) = inl (time r)) ->
  normalise recompute generateSlug normalizeDate normalizeTime r = inl r.
Proof.
  intros H S D T. apply normalise_inl in H as (_ & _ & _ & E).
  assert (M : isModified r = isModified this) by (rewrite E; reflexivity).
  unfold normalise, bind, ret.
  assert (R : (if recompute r then set_slug r (generateSlug (title r)) else r)
              = r).
  { destruct (recompute r); [|reflexivity]. destruct r. cbn in *.
    unfold set_slug. cbn. now rewrite S. }
  rewrite R, M.
  assert (Rd : set_date r (date r) = r) by now destruct r.
  assert (Rt : set_time r (time r) = r) by now destruct r.
  destruct (isModified this "date") eqn:Cd;
    [rewrite (D eq_refl), Rd|]; rewrite M;
    (destruct (isModified this "time") eqn:Ct;
     [rewrite (T eq_refl), Rt|]); reflexivity.
Qed.

End SavedAgain.

(** X18: saving again what a hook has produced changes nothing: run on its
    own result with the same modification marks, the hook of the first
    revision, and validation with the hook of the second, return that
    result unchanged, provided a modified date is one [normalizeDate]
    returns unchanged. *)
Theorem event_hooks_idempotent (other_formats : str -> option Z)
        (this r : IEvent) :
  (Event1.preSave other_formats this = inl r ->
   (isModified this "date" = true ->
    Event1.normalizeDate other_formats (date r) = inl (date r)) ->
   Event1.preSave other_formats r = inl r) /\
  (Event2.hooks other_formats this = inl r ->
   (isModified this "date" = true ->
    Event2.normalizeDate other_formats (date r) = inl (date r)) ->
   Event2.hooks other_formats r = inl r).
Proof.
  split; intros H D.
  - apply preSave1_inl in H as (F & A & T & H).
    pose proof (@normalise_inl _ _ _ _ _ _ H) as (S & _ & Tm & E).
    assert (R : first_empty r = first_empty this) by (rewrite E; reflexivity).
    assert (Ha : agenda r = agenda this) by (rewrite E; reflexivity).
    assert (Ht : tags r = tags this) by (rewrite E; reflexivity).
    assert (M : isModified r = isModified this) by (rewrite E; reflexivity).
    assert (Ti : title r = title this) by (rewrite E; reflexivity).
    rewrite preSave1_cases, R, F, Ha, Ht.
    destruct (agenda this); [congruence|]. destruct (tags this); [congruence|].
    cbn [is_nil]. apply (@normalise_again _ _ _ _ _ _ H); [|exact D|].
    + unfold recompute1 in *. rewrite M, Ti.
      destruct (isModified this "title" || Js.falsy (slug this)) eqn:C;
        [intros _; exact S|].
      apply orb_false_elim in C as [C1 C2]. rewrite S, C1, C2. discriminate.
    + intros C. rewrite C in Tm.
      exact (proj1 (@normalizeTime_hhmm_fixed _ (@normalizeTime1_hhmm _ _ Tm))).
  - apply hooks2_inl in H as (V & H).
    pose proof (@normalise_inl _ _ _ _ _ _ H) as (S & Dt & Tm & E).
    assert (M : isModified r = isModified this) by (rewrite E; reflexivity).
    assert (Ti : title r = title this) by (rewrite E; reflexivity).
    assert (Tf : isModified this "time" = true ->
                 Event2.normalizeTime (time r) = inl (time r)).
    { intros C. rewrite C in Tm.
      exact (proj2 (@normalizeTime_hhmm_fixed _ (@normalizeTime2_hhmm _ _ Tm))). }
    unfold Event2.hooks, Schema.validated.
    replace (Event2.validate r) with (@nil Schema.failure).
    + rewrite preSave2_cases. apply (@normalise_again _ _ _ _ _ _ H); auto.
      unfold recompute2 in *. rewrite M, Ti. intros C. now rewrite C in S.
    + symmetry. apply flat_map_all_nil. intros [path checks] I.
      cbn [fst snd]. unfold Schema.path_errors.
      replace (Schema.first_failure checks) with (@None str); [reflexivity|].
      symmetry.
      assert (Nd : date r <> []).
      { destruct (isModified this "date").
        - exact (proj2 (normalizeDate_nonempty other_formats _ _) Dt).
        - rewrite Dt. apply (@validate2_nil this V). }
      assert (Nt : time r <> []).
      { destruct (isModified this "time") eqn:C.
        - specialize (Tf eq_refl). intros N. rewrite N in Tf.
          discriminate Tf.
        - rewrite Tm. apply (@validate2_nil this V). }
      pose proof (fun p c => @validate2_passes this p c V) as P.
      rewrite E in I. unfold Event2.validators in I, P.
      cbn [rewritten title description overview image venue location
           mode audience agenda organizer tags] in I.
      repeat (destruct I as [I | I]); [..|destruct I];
        injection I as <- <-;
        first [ solve [eapply P; repeat (first [left; reflexivity | right])]
              | unfold Schema.required; cbn [date time rewritten];
                destruct (date r); [congruence|reflexivity]
              | unfold Schema.required; cbn [date time rewritten];
                destruct (time r); [congruence|reflexivity] ].
Qed.

Lemma event_hooks_idempotent_witness :
  let r := rewritten sample_modified (Some (lit "rocq-meetup-paris"))
                     (lit "2025-06-01") (lit "18:30") in
  Event1.preSave (fun _ => None) r = inl r.
Proof.
  cbv zeta.
  apply (proj1 (@event_hooks_idempotent (fun _ => None) sample_modified _)).
  - vm_compute. reflexivity.
  - intros _. vm_compute. reflexivity.
Defined.

(** ** The two revisions of the Event hooks side by side *)





(** ** More on the connection helper *)

Section ConnectionSafety.

Import Connection.

Variable Mongoose : Type.

Local Abbreviation World := (World Mongoose).
Local Abbreviation System := (System Mongoose).

(** A cached connection stays, and no attempt is started while there is
    one. *)
Lemma connected_step (s s' : System) ev :
  step s ev = Some s' -> conn (cached (world s)) <> None ->
  attempts (world s') = attempts (world s) /\
  conn (cached (world s')) <> None.
Proof.
  intros St C. destruct ev as [i | p o | i]; cbn [step] in St.
  - destruct (calls s i); [discriminate|].
    unfold connectDB_enter in St.
    destruct (conn (cached (world s))) as [c|] eqn:Ec; [|congruence].
    injection St as <-. cbn. rewrite Ec. split; [reflexivity|discriminate].
  - destruct (settle (world s) p o) as [w'|] eqn:E; [|discriminate].
    injection St as <-. destruct (settle_inv _ _ _ E) as (Ec & Ea & _).
    cbn. rewrite Ec, Ea. auto.
  - destruct (calls s i) as [[p | v | e]|]; try discriminate.
    unfold connectDB_resume in St.
    destruct (nth_error (promises (world s)) p) as [[| v | e]|];
      try discriminate; injection St as <-; cbn;
      (split; [reflexivity|]); [discriminate|exact C].
Qed.

(** With a connection cached, a caller that has not called yet, or was
    answered at once, is never left waiting. *)
Lemma returned_step (s s' : System) ev (i : nat) :
  step s ev = Some s' -> conn (cached (world s)) <> None ->
  (calls s i = None \/ exists v, calls s i = Some (Returned v)) ->
  calls s' i = None \/ exists v, calls s' i = Some (Returned v).
Proof.
  intros St C Q. destruct ev as [j | p o | j]; cbn [step] in St.
  - destruct (calls s j); [discriminate|].
    unfold connectDB_enter in St.
    destruct (conn (cached (world s))) as [c|]; [|congruence].
    injection St as <-. cbn. unfold update.
    destruct (Nat.eqb i j); [right; eauto|exact Q].
  - destruct (settle (world s) p o); [|discriminate].
    now injection St as <-.
  - destruct (calls s j) as [[p | v | e]|] eqn:Cj; try discriminate.
    destruct (connectDB_resume (world s) p) as [[w c]|]; [|discriminate].
    injection St as <-. cbn. unfold update.
    destruct (Nat.eqb_spec i j) as [-> | N]; [|exact Q].
    rewrite Cj in Q. destruct Q as [[=] | (v & [=])].
Qed.

Lemma connected_steps (evs : list (event Mongoose)) (s s' : System) :
  steps s evs = Some s' -> conn (cached (world s)) <> None ->
  attempts (world s') = attempts (world s) /\
  conn (cached (world s')) <> None.
Proof.
  revert s. induction evs as [|ev evs IH]; intros s St C.
  - injection St as <-. auto.
  - cbn [steps] in St. destruct (step s ev) as [s1|] eqn:E; [|discriminate].
    destruct (connected_step _ _ E C) as (A1 & C1).
    destruct (IH s1 St C1) as (A & C'). split; [congruence|exact C'].
Qed.

Lemma returned_steps (evs : list (event Mongoose)) (s s' : System)
      (i : nat) :
  steps s evs = Some s' -> conn (cached (world s)) <> None ->
  (calls s i = None \/ exists v, calls s i = Some (Returned v)) ->
  calls s' i = None \/ exists v, calls s' i = Some (Returned v).
Proof.
  revert s. induction evs as [|ev evs IH]; intros s St C Q.
  - now injection St as <-.
  - cbn [steps] in St. destruct (step s ev) as [s1|] eqn:E; [|discriminate].
    apply (IH s1 St (proj2 (connected_step _ _ E C))).
    exact (@returned_step _ _ _ i E C Q).
Qed.

(** X20: once a connection is cached the helper never connects again:
    along any sequence of calls, settlements and resumptions, no further
    attempt is started, a connection stays cached, and a caller that calls
    from then on is handed a connection at once, without waiting. *)
Theorem connectDB_stays_connected (evs : list (event Mongoose))
        (s s' : System) (i : nat) :
  conn (cached (world s)) <> None ->
  steps s evs = Some s' ->
  attempts (world s') = attempts (world s) /\
  conn (cached (world s')) <> None /\
  (calls s i = None ->
   calls s' i = None \/ exists v, calls s' i = Some (Returned v)).
Proof.
  intros C St. destruct (@connected_steps _ _ _ St C) as (A & C').
  split; [exact A|]. split; [exact C'|]. intros N.
  exact (@returned_steps _ _ _ i St C (or_introl N)).
Qed.

Lemma set_nth_In {A} (l : list A) (n : nat) (x y z : A) :
  nth_error l n = Some z -> y <> z -> In y l -> In y (set_nth l n x).
Proof.
  revert n. induction l as [|a l IH]; intros [|n] E N I; cbn in *; auto.
  - injection E as ->. destruct I as [-> | I]; [congruence|now right].
  - destruct I as [-> | I]; [now left|right; eauto].
Qed.

Lemma from_driver_step (s s' : System) ev :
  step s ev = Some s' -> from_driver s -> from_driver s'.
Proof.
  intros St (C & R & T). destruct ev as [i | p o | i]; cbn [step] in St.
  - destruct (calls s i) eqn:Ci; [discriminate|].
    unfold connectDB_enter in St.
    destruct (conn (cached (world s))) as [c|] eqn:Ec;
      [|destruct (promise (cached (world s)))];
      injection St as <-; unfold from_driver, update; cbn;
      repeat split; intros;
      repeat match goal with
      | H : context [Nat.eqb ?a ?b] |- _ => destruct (Nat.eqb a b)
      | H : Some _ = Some _ |- _ => injection H as H; subst
      end;
      try discriminate; try (apply C; congruence);
      try (apply in_or_app; left); eauto.
  - destruct (settle (world s) p o) as [w'|] eqn:E; [|discriminate].
    injection St as <-. unfold settle in E.
    destruct (nth_error (promises (world s)) p) as [[| |]|] eqn:P;
      try discriminate.
    injection E as <-. unfold from_driver. cbn.
    repeat split; intros;
      (eapply set_nth_In; [exact P|discriminate|eauto]).
  - destruct (calls s i) as [[p | v | e]|] eqn:Ci; try discriminate.
    unfold connectDB_resume in St.
    destruct (nth_error (promises (world s)) p) as [[| v | e]|] eqn:P;
      try discriminate; injection St as <-;
      apply nth_error_In in P; unfold from_driver, update; cbn;
      repeat split; intros;
      repeat match goal with
      | H : context [Nat.eqb ?a ?b] |- _ => destruct (Nat.eqb a b)
      | H : Some _ = Some _ |- _ => injection H as H; subst
      end;
      try discriminate; eauto.
Qed.

(** X21: the helper hands out only what the driver gave: along any
    sequence of calls, settlements and resumptions that starts with nothing
    cached and nobody calling, a handle returned to a caller is the value
    an attempt was fulfilled with, and an error thrown to a caller is the
    reason an attempt was rejected with. *)
Theorem connectDB_returns_what_connect_gave (w : World)
        (evs : list (event Mongoose)) (s : System) (i : nat) :
  conn (cached w) = None ->
  steps (idle w) evs = Some s ->
  (forall v, calls s i = Some (Returned v) ->
             In (Fulfilled v) (promises (world s))) /\
  (forall e, calls s i = Some (Thrown e) ->
             In (Rejected e) (promises (world s))).
Proof.
  intros C St.
  assert (F : from_driver s).
  { assert (F0 : from_driver (idle w)).
    { unfold from_driver, idle. cbn. rewrite C.
      repeat split; intros; discriminate. }
    revert St F0. generalize (idle w).
    induction evs as [|ev evs IH]; intros s0 St F0.
    - now injection St as <-.
    - cbn [steps] in St.
      destruct (step s0 ev) as [s1|] eqn:E; [|discriminate].
      exact (IH s1 St (@from_driver_step _ _ _ E F0)). }
  destruct F as (_ & R & T). split; intros; eauto.
Qed.

(** X22: a failed attempt does not stand in the way of the next one: from
    the Unconnected state, when the first caller's attempt is rejected with
    [e], that caller is thrown [e]; a second caller then starts a second
    attempt, and when it is fulfilled with [v] the second caller and a third
    one that calls afterwards both get [v], two attempts having been made
    in all. *)
Theorem connectDB_retry (w : World) (a b c : nat) (e : error)
        (v : Mongoose) :
  phase_of (cached w) = Unconnected -> a <> b -> a <> c -> b <> c ->
  exists s,
    steps (idle w)
      [Call a; Settle (attempts w) (inr e); Resume a;
       Call b; Settle (S (attempts w)) (inl v); Resume b; Call c]
    = Some s /\
    calls s a = Some (Thrown e) /\
    calls s b = Some (Returned v) /\ calls s c = Some (Returned v) /\
    attempts (world s) = S (S (attempts w)) /\
    conn (cached (world s)) = Some v.
Proof.
  intros U Nab Nac Nbc. destruct w as [[cn p] ps].
  unfold phase_of in U. cbn in U.
  destruct cn; [discriminate|]. destruct p; [discriminate|].
  assert (Eab : Nat.eqb a b = false) by now apply Nat.eqb_neq.
  assert (Eba : Nat.eqb b a = false) by (apply Nat.eqb_neq; congruence).
  assert (Eac : Nat.eqb a c = false) by now apply Nat.eqb_neq.
  assert (Eca : Nat.eqb c a = false) by (apply Nat.eqb_neq; congruence).
  assert (Ebc : Nat.eqb b c = false) by now apply Nat.eqb_neq.
  assert (Ecb : Nat.eqb c b = false) by (apply Nat.eqb_neq; congruence).
  assert (L : forall x : settlement Mongoose,
             S (length ps) = length (ps ++ [x]))
    by (intros x; rewrite length_app; cbn; lia).
  cbv [steps step idle attempts calls world connectDB_enter cached conn
       promise promises update settle connectDB_resume].
  repeat (first [rewrite Eba | rewrite Eab | rewrite Eac | rewrite Eca
                 | rewrite Ebc | rewrite Ecb | rewrite Nat.eqb_refl
                 | rewrite nth_error_last | rewrite set_nth_last
                 | rewrite (L (Rejected e))];
          cbv beta iota).
  eexists. split; [reflexivity|]. cbv beta iota.
  rewrite ?Eab, ?Eac, ?Ebc, ?Eba, ?Eca, ?Ecb, ?Nat.eqb_refl.
  rewrite !length_app. cbn [length].
  repeat split. lia.
Qed.

End ConnectionSafety.

Lemma connectDB_stays_connected_witness :
  let s' :=
    {| Connection.world :=
         {| Connection.cached :=
              {| Connection.conn := Some 7%nat;
                 Connection.promise := Some 0%nat |};
            Connection.promises := [Connection.Fulfilled 7%nat] |};
       Connection.calls :=
         Connection.update
           (Connection.update (fun _ => None) 0%nat (Connection.Returned 7%nat))
           1%nat (Connection.Returned 7%nat) |} in
  Connection.calls s' 1%nat = None \/
  exists v, Connection.calls s' 1%nat = Some (Connection.Returned v).
Proof.
  cbv zeta.
  refine (proj2 (proj2 (@connectDB_stays_connected nat
                          [Connection.Call 0%nat; Connection.Call 1%nat]
                          {| Connection.world :=
                               {| Connection.cached :=
                                    {| Connection.conn := Some 7%nat;
                                       Connection.promise := Some 0%nat |};
                                  Connection.promises :=
                                    [Connection.Fulfilled 7%nat] |};
                             Connection.calls := fun _ => None |}
                          _ 1%nat _ eq_refl)) eq_refl).
  discriminate.
Defined.

Lemma connectDB_returns_what_connect_gave_witness :
  In (Connection.Fulfilled 7%nat) [Connection.Fulfilled 7%nat].
Proof.
  refine (proj1 (@connectDB_returns_what_connect_gave nat
                   {| Connection.cached :=
                        {| Connection.conn := None;
                           Connection.promise := None |};
                      Connection.promises := [] |}
                   [Connection.Call 0%nat; Connection.Settle 0%nat (inl 7%nat);
                    Connection.Resume 0%nat]
                   {| Connection.world :=
                        {| Connection.cached :=
                             {| Connection.conn := Some 7%nat;
                                Connection.promise := Some 0%nat |};
                           Connection.promises :=
                             [Connection.Fulfilled 7%nat] |};
                      Connection.calls :=
                        Connection.update
                          (Connection.update (fun _ => None) 0%nat
                             (Connection.Awaiting 0%nat))
                          0%nat (Connection.Returned 7%nat) |}
                   0%nat eq_refl eq_refl) 7%nat eq_refl).
Defined.

Lemma connectDB_retry_witness :
  exists s,
    Connection.steps
      (Connection.idle
         {| Connection.cached :=
              {| Connection.conn := @None nat; Connection.promise := None |};
            Connection.promises := [] |})
      [Connection.Call 0%nat;
       Connection.Settle 0%nat (inr (Error (lit "down")));
       Connection.Resume 0%nat; Connection.Call 1%nat;
       Connection.Settle 1%nat (inl 7%nat); Connection.Resume 1%nat;
       Connection.Call 2%nat]
    = Some s /\
    Connection.calls s 2%nat = Some (Connection.Returned 7%nat).
Proof.
  destruct (@connectDB_retry nat
              {| Connection.cached :=
                   {| Connection.conn := None; Connection.promise := None |};
                 Connection.promises := [] |}
              0%nat 1%nat 2%nat (Error (lit "down")) 7%nat eq_refl
              ltac:(discriminate) ltac:(discriminate) ltac:(discriminate))
    as (s & St & _ & _ & C & _).
  exists s. split; [exact St|exact C].
Defined.

(** ** Validation before the hook of the first revision *)

Lemma validate1_slug (this : IEvent) :
  Js.falsy (slug this) = true ->
  In ("slug"%string, lit (Event1Schema.required_message "slug"))
     (Event1Schema.validate this).
Proof.
  intros F. unfold Event1Schema.validate. apply in_flat_map.
  exists (Event1Schema.required_path "slug"
            (match slug this with Some s => s | None => [] end)).
  split; [unfold Event1Schema.validators; cbn; tauto|].
  unfold Event1Schema.required_path, Schema.path_errors, Schema.required.
  cbn [fst snd]. destruct (slug this) as [[|c s]|]; try discriminate;
    cbn; auto.
Qed.

(** X23: in the first revision a document without a slug does not reach
    the hook: validation, which runs before it, fails the save with the
    required error of the [slug] path whenever the slug is unset or empty.
    So on every save that succeeds the slug was there already, and it is
    recomputed exactly when the title was modified. *)
Theorem event1_save_requires_slug (other_formats : str -> option Z)
        (this : IEvent) :
  (Js.falsy (slug this) = true ->
   exists errors,
     Event1Schema.hooks other_formats this = inr (ValidationError errors) /\
     In ("slug"%string, lit "Path `slug` is required.") errors) /\
  (forall r, Event1Schema.hooks other_formats this = inl r ->
     Js.falsy (slug this) = false /\
     slug r = (if isModified this "title"
               then Some (Event1.generateSlug (title this))
               else slug this)).
Proof.
  unfold Event1Schema.hooks, Schema.validated. split.
  - intros F. pose proof (validate1_slug this F) as I.
    destruct (Event1Schema.validate this) as [|e l]; [destruct I|].
    eexists. split; [reflexivity|exact I].
  - intros r H.
    destruct (Js.falsy (slug this)) eqn:F.
    + pose proof (validate1_slug this F) as I.
      destruct (Event1Schema.validate this); [destruct I|discriminate].
    + split; [reflexivity|].
      destruct (Event1Schema.validate this); [|discriminate].
      apply preSave1_inl in H as (_ & _ & _ & H).
      apply normalise_inl in H as (S & _). unfold recompute1 in S.
      now rewrite F, orb_false_r in S.
Qed.

(** * The whole save

    The setters and the validators of the schemas run before the hooks of
    the source; the statements of this part are about [Save.event1],
    [Save.event2], [Save.booking1] and [Save.booking2], which put the three
    together. *)

(** ** Events *)






Section NormaliseRuns.

Variable recompute : IEvent -> bool.
Variable generateSlug : str -> str.
Variables normalizeDate normalizeTime : str -> result str.


End NormaliseRuns.









(** ** Bookings *)







(** ** Callers that arrive together *)

Section SingleFlight.

Import Connection.

Variable Mongoose : Type.

Local Abbreviation World := (World Mongoose).
Local Abbreviation System := (System Mongoose).
Local Abbreviation event := (event Mongoose).

Lemma steps_chain (evs1 evs2 : list event) (s s1 s2 : System) :
  steps s evs1 = Some s1 -> steps s1 evs2 = Some s2 ->
  steps s (evs1 ++ evs2) = Some s2.
Proof.
  revert s. induction evs1 as [|ev evs1 IH]; intros s; cbn.
  - now intros [= ->].
  - destruct (step s ev); [apply IH|discriminate].
Qed.

(** Callers that arrive while an attempt is cached all wait for it, and
    change nothing else. *)
Lemma calls_run (p : nat) (l : list nat) (s : System) :
  NoDup l -> (forall i, In i l -> calls s i = None) ->
  conn (cached (world s)) = None -> promise (cached (world s)) = Some p ->
  exists s',
    steps s (map (@Call Mongoose) l) = Some s' /\
    world s' = world s /\
    (forall i, In i l -> calls s' i = Some (Awaiting p)) /\
    (forall i, ~ In i l -> calls s' i = calls s i).
Proof.
  revert s. induction l as [|a l IH]; intros s N F C P.
  - exists s. cbn. repeat split; try tauto.
  - inversion N as [|? ? Na Nl]; subst.
    cbn [map steps step]. rewrite (F a (or_introl eq_refl)).
    unfold connectDB_enter. rewrite C, P.
    destruct (IH {| world := world s;
                    calls := update (calls s) a (Awaiting p) |} Nl)
      as (s' & St & W & A & O); cbn; auto.
    { intros i I. unfold update.
      destruct (Nat.eqb_spec i a) as [-> | _]; [contradiction|].
      apply F. now right. }
    exists s'. split; [exact St|]. split; [exact W|]. split.
    + intros i [<- | I]; [|now apply A].
      rewrite (O a Na). cbn. unfold update. now rewrite Nat.eqb_refl.
    + intros i I. rewrite O by (intros X; apply I; now right).
      cbn. unfold update.
      destruct (Nat.eqb_spec i a) as [-> | _]; [|reflexivity].
      exfalso. apply I. now left.
Qed.

(** The settlement an outcome of the driver gives an attempt, and what a
    caller that resumes on it ends with. *)
Local Abbreviation settled_as outcome :=
  (match outcome with
   | inl v => Fulfilled v
   | inr e => Rejected e
   end).

Local Abbreviation ends_with outcome :=
  (match outcome with
   | inl v => Returned v
   | inr e => Thrown e
   end).

(** Callers that wait for a settled attempt all resume and end with its
    outcome. *)
Lemma resumes_run (p : nat) (outcome : Mongoose + error) (l : list nat)
      (s : System) :
  NoDup l -> (forall i, In i l -> calls s i = Some (Awaiting p)) ->
  nth_error (promises (world s)) p = Some (settled_as outcome) ->
  exists s',
    steps s (map (@Resume Mongoose) l) = Some s' /\
    promises (world s') = promises (world s) /\
    (forall i, In i l -> calls s' i = Some (ends_with outcome)) /\
    (forall i, ~ In i l -> calls s' i = calls s i) /\
    (l <> [] ->
     conn (cached (world s'))
     = match outcome with
       | inl v => Some v
       | inr _ => conn (cached (world s))
       end).
Proof.
  revert s. induction l as [|a l IH]; intros s N F P.
  - exists s. cbn. repeat split; tauto.
  - inversion N as [|? ? Na Nl]; subst.
    cbn [map steps step]. rewrite (F a (or_introl eq_refl)).
    unfold connectDB_resume. rewrite P.
    destruct outcome as [v | e];
      match goal with
      | |- exists s', steps ?s1 _ = _ /\ _ =>
          destruct (IH s1 Nl) as (s' & St & Pr & A & O & K);
            [intros i I; cbn; unfold update;
             destruct (Nat.eqb_spec i a) as [-> | _]; [contradiction|];
             apply F; now right
            |exact P|]
      end;
      (exists s'; split; [exact St|]; split; [exact Pr|]; split; [|split]).
    all: try (intros i [<- | I]; [|now apply A];
              rewrite (O a Na); cbn; unfold update;
              now rewrite Nat.eqb_refl).
    all: try (intros i I; rewrite O by (intros X; apply I; now right);
              cbn; unfold update;
              destruct (Nat.eqb_spec i a) as [-> | _]; [|reflexivity];
              exfalso; apply I; now left).
    all: intros _; destruct l as [|b l];
      [cbn in St; injection St as <-; reflexivity
      |rewrite K by discriminate; reflexivity].
Qed.

(** C9: from the Unconnected state.  Whenever every call is made before
    any is resumed, whatever the number of callers and the interleaving of
    their arrivals, of the settlement and of their resumptions, exactly
    one connection attempt is started, and any two callers that came to
    their end did so alike, with the outcome of that attempt.  And the
    callers do come to their end: for any callers that arrive together,
    the run in which they call, the attempt is settled and they resume
    goes through, with one attempt; when the attempt is fulfilled with a
    handle every one of them is returned that handle, which is then
    cached, and when it is rejected every one of them is thrown its
    error. *)
Theorem connectDB_single_flight (w : World) :
  phase_of (cached w) = Unconnected ->
  (forall (arrivals later : list event) (s : System) (a b : nat)
          (ra rb : call Mongoose),
     concurrent arrivals later ->
     steps (idle w) (arrivals ++ later) = Some s ->
     calls s a = Some ra -> calls s b = Some rb ->
     attempts (world s) = S (attempts w) /\
     (finished ra = true -> finished rb = true ->
      ra = rb /\
      nth_error (promises (world s)) (attempts w)
      = Some (outcome_of ra))) /\
  (forall (callers : list nat) (outcome : Mongoose + error),
     callers <> [] -> NoDup callers ->
     exists s,
       steps (idle w)
         (map (@Call Mongoose) callers
          ++ Settle (attempts w) outcome :: map (@Resume Mongoose) callers)
       = Some s /\
       attempts (world s) = S (attempts w) /\
       (forall i, In i callers -> calls s i = Some (ends_with outcome)) /\
       conn (cached (world s))
       = match outcome with inl v => Some v | inr _ => None end).
Proof.
  intros U. split.
  - intros arrivals later s a b ra rb (F1 & F2) St Ha Hb.
    apply steps_app in St as (s1 & St1 & St2).
    assert (A0 : arriving (attempts w) (idle w)).
    { unfold phase_of in U. unfold arriving. cbn.
      destruct (conn (cached w)); [discriminate|].
      destruct (promise (cached w)); [discriminate|]. auto. }
    pose proof (@arriving_steps _ _ _ _ _ F1 St1 A0)
      as (_ & [(_ & _ & N) | (_ & A & N)]).
    + pose proof (@no_calls_steps _ _ _ _ F2 St2 N a). congruence.
    + assert (S1 : settled (S (attempts w)) (attempts w) s1).
      { split; [exact A|]. intros i c Hc. left. eapply N; eauto. }
      pose proof (@settled_steps _ _ _ _ _ _ F2 St2 S1) as (A' & I).
      split; [exact A'|]. intros Fa Fb.
      destruct (I _ _ Ha) as [-> | (_ & Pa)]; [discriminate|].
      destruct (I _ _ Hb) as [-> | (_ & Pb)]; [discriminate|].
      split; [|exact Pa]. apply outcome_of_inj; congruence.
  - intros callers outcome Ne N.
    destruct callers as [|c0 l]; [congruence|].
    inversion N as [|? ? N0 Nl]; subst.
    destruct w as [[cn pr] ps]. unfold phase_of in U. cbn in U.
    destruct cn; [discriminate|]. destruct pr; [discriminate|].
    set (p := length ps).
    set (s1 := {| world := {| cached := {| conn := None; promise := Some p |};
                             promises := ps ++ [Pending] |};
                  calls := update (fun _ => None) c0 (Awaiting p) |}
               : System).
    destruct (@calls_run p l s1 Nl) as (s2 & St2 & W2 & A2 & O2);
      try reflexivity.
    { intros i I. cbn. unfold update.
      destruct (Nat.eqb_spec i c0) as [-> | _]; [contradiction|reflexivity]. }
    set (s3 := {| world := {| cached := {| conn := None; promise := Some p |};
                             promises := ps ++ [settled_as outcome] |};
                  calls := calls s2 |} : System).
    assert (St3 : step s2 (Settle p outcome) = Some s3).
    { cbn [step]. unfold settle. rewrite W2. cbn [world promises cached s1].
      unfold p. rewrite nth_error_last, set_nth_last. reflexivity. }
    destruct (@resumes_run p outcome (c0 :: l) s3 N)
      as (s4 & St4 & P4 & A4 & _ & K4).
    { intros i [<- | I]; cbn [s3 calls]; [|now apply A2].
      rewrite (O2 c0 N0). cbn. unfold update. now rewrite Nat.eqb_refl. }
    { cbn. unfold p. apply nth_error_last. }
    exists s4. split; [|split; [|split]].
    + cbv [idle attempts promises]. fold p.
      change (map (@Call Mongoose) (c0 :: l)
              ++ Settle p outcome :: map (@Resume Mongoose) (c0 :: l))
        with (Call c0 :: map (@Call Mongoose) l
              ++ Settle p outcome :: map (@Resume Mongoose) (c0 :: l)).
      cbn [steps step calls world connectDB_enter cached conn promise
           promises].
      fold p. fold s1.
      apply (@steps_chain _ _ _ _ _ St2).
      cbn [steps]. rewrite St3. exact St4.
    + unfold attempts. rewrite P4. cbn. rewrite length_app. cbn.
      unfold p. lia.
    + exact A4.
    + rewrite K4 by discriminate. now destruct outcome.
Qed.

End SingleFlight.

(** An instance: two callers and one attempt that succeeds. *)
Lemma connectDB_single_flight_witness :
  exists s,
    Connection.steps
      (Connection.idle
         {| Connection.cached :=
              {| Connection.conn := @None nat; Connection.promise := None |};
            Connection.promises := [] |})
      [Connection.Call 0%nat; Connection.Call 1%nat;
       Connection.Settle 0%nat (inl 7%nat);
       Connection.Resume 0%nat; Connection.Resume 1%nat]
    = Some s /\
    Connection.attempts (Connection.world s) = 1%nat /\
    Connection.calls s 0%nat = Some (Connection.Returned 7%nat) /\
    Connection.calls s 1%nat = Some (Connection.Returned 7%nat).
Proof.
  destruct (proj2 (@connectDB_single_flight nat
                     {| Connection.cached :=
                          {| Connection.conn := None;
                             Connection.promise := None |};
                        Connection.promises := [] |} eq_refl)
                  [0%nat; 1%nat] (inl 7%nat)) as (s & St & A & C & _).
  - discriminate.
  - repeat constructor; cbn; intuition discriminate.
  - exists s. split; [exact St|]. split; [exact A|].
    split; apply C; cbn; auto.
Defined.
